(** * DASH / DART: the sort pipeline's partition bookkeeping, the local
      global-pointer API, team creation and allocator equality.

    A shallow embedding of
    - [dash/algorithm/sort/Merge.h]            (module [Merge]),
    - [dart-impl/mpi/src/dart_globmem.c]       (module [Globmem]),
    - [dart-impl/gaspi/src/dart_team_group.c]  (module [TeamGroup]),
    - [dash/allocator/PersistentMemoryAllocator.h] (module [Pmem]).

    Integers of the C and C++ code are values of [Z]; where the source
    converts or shifts at a fixed width the wrap-around is written out.
    An access outside a [std::vector] and a signed overflow have no defined
    behaviour in the source: the functions below return [None] there. *)

From Stdlib Require Import ZArith Lia Sorted.
From stdpp Require Import base option list gmap strings.

Local Open Scope Z_scope.
Set Default Proof Using "Type".

(** ** Machine integers *)

(** Conversion to [std::size_t] / [uint64_t]. *)
Definition to_size_t (z : Z) : Z := z mod 2 ^ 64.

(** Conversion to [dart_unit_t] ([int32_t]), two's complement. *)
Definition to_int32 (z : Z) : Z := (z + 2 ^ 31) mod 2 ^ 32 - 2 ^ 31.

Definition INT32_MAX : Z := 2 ^ 31 - 1.

(** [v[i]] on a [std::vector]: defined only inside the vector. *)
Definition vec_at {A} (v : list A) (i : Z) : option A :=
  if decide (0 ≤ i) then v !! Z.to_nat i else None.

(** [v[i] = x] on a [std::vector]. *)
Definition vec_set {A} (v : list A) (i : Z) (x : A) : option (list A) :=
  if decide (0 ≤ i < Z.of_nat (length v)) then Some (<[Z.to_nat i := x]> v)
  else None.

Module Merge.

Section Psort.

(** *** [psort__remote_partitions] *)

(** The sentinel of [dart_types.h], which is not part of the sources at
    hand. *)
Variable DART_UNDEFINED_UNIT_ID : Z.

(** The lambda handed to [std::transform]: the unit right of a splitter,
    or the sentinel. *)
Definition right_unit_or_undefined
    (target_counts : list Z) (whoami splitter : Z) : option Z :=
  if decide (to_int32 splitter = INT32_MAX) then None
  else
    let right_unit := to_int32 splitter + 1 in
    count ← vec_at target_counts right_unit;
    Some (if bool_decide (count ≠ 0) && bool_decide (whoami ≠ right_unit)
          then right_unit else DART_UNDEFINED_UNIT_ID).

(** [std::transform] with a [std::back_inserter]. *)
Fixpoint transform_back (f : Z → option Z) (src : list Z) (dst : list Z)
    : option (list Z) :=
  match src with
  | [] => Some dst
  | x :: src' => y ← f x; transform_back f src' (dst ++ [y])
  end.

(** The erase-remove idiom. *)
Definition erase_undefined (units : list Z) : list Z :=
  filter (λ unit, unit ≠ DART_UNDEFINED_UNIT_ID) units.

Definition psort__remote_partitions
    (valid_splitters target_counts : list Z) (nunits : Z)
    (unit_at_begin whoami : Z) : option (list Z) :=
  count ← vec_at target_counts unit_at_begin;
  let remote_units :=
    if bool_decide (count ≠ 0) && bool_decide (whoami ≠ unit_at_begin)
    then [unit_at_begin] else [] in
  remote_units ←
    transform_back (right_unit_or_undefined target_counts whoami)
                   valid_splitters remote_units;
  Some (erase_undefined remote_units).

(** The list as the specification describes it: the unit at the begin
    when it has data for us and is not us, then the right neighbours of
    the splitters under the same test, in input order. *)
Definition has_remote_data (target_counts : list Z) (whoami r : Z) : bool :=
  bool_decide (0 < default 0 (target_counts !! Z.to_nat r))
  && bool_decide (r ≠ whoami).

Definition remote_partitions_spec
    (valid_splitters target_counts : list Z) (unit_at_begin whoami : Z)
    : list Z :=
  (if has_remote_data target_counts whoami unit_at_begin
   then [unit_at_begin] else [])
  ++ filter (λ r, has_remote_data target_counts whoami r = true)
            ((λ s, s + 1) <$> valid_splitters).

(** *** The thread pool and the chunk dependencies *)

(** [dart_handle_t] and its null value come from the DART interface
    headers, which are not part of the sources at hand. *)
Variable dart_handle_t : Type.
Variable DART_HANDLE_NULL : dart_handle_t.

(** The closures the driver's caller hands in ([local_copy]). *)
Variable user_task : Type.

(** The closures submitted to the pool, by what they capture:
    - the copy task waits on its handle unless it is null,
    - the local copy is the caller's,
    - a merge task waits on the futures at [[f, mi)] and [[mi, l)] and then
      calls [merge(f, mi, l, d, depth)]; it also captures
      [is_final_merge]. *)
Inductive task : Type :=
  | WaitTask (hdl : dart_handle_t)
  | LocalCopyTask (local_copy : user_task)
  | MergeTask (f mi l d depth : Z) (is_final_merge : bool).

(** The pool is the sequence of the tasks submitted so far; the future of a
    task is its position in it. *)
Definition future : Type := nat.

Definition submit (thread_pool : list task) (t : task) : list task * future :=
  (thread_pool ++ [t], length thread_pool).

(** [ChunkRange] is a pair of partition indices, [ChunkDependencies] a
    [std::map] from ranges to futures. [std::map::emplace] and insertion
    through [std::inserter] keep an existing entry. *)
Definition map_emplace (k : Z * Z) (fut : future)
    (m : gmap (Z * Z) future) : gmap (Z * Z) future :=
  match m !! k with
  | Some _ => m
  | None => <[k := fut]> m
  end.

(** *** [psort__exchange_data] *)

(** What the function reads from its global iterator: the position, the
    pattern's [unit_at] and [global_index(unit, {})], and the size of the
    team. *)
Record GlobIterT : Type := GlobIter {
  pos : Z;
  pattern_unit_at : Z → Z;
  pattern_global_index : Z → Z;
  team_size : Z
}.

(** One call of [dash::internal::get_handle]: source position, destination
    (local begin and displacement) and element count. *)
Record get_request : Type := GetRequest {
  get_src : Z;
  get_dst_begin : Z;
  get_dst_disp : Z;
  get_count : Z
}.

(** [nullptr] for the local iterator. *)
Definition nullptr : Z := 0.

(** The loop over the remote partitions. [dart_get_handle] is the
    transport: the handle it stores for a request, given the requests
    issued before. *)
Fixpoint exchange_loop
    (dart_get_handle : list get_request → get_request → dart_handle_t)
    (get_send_info : Z → Z * Z * Z)
    (from_global_begin : GlobIterT) (to_local_begin unit_at_begin : Z)
    (remote_partitions : list Z)
    (handles : list dart_handle_t) (issued : list get_request)
    : option (list dart_handle_t * list get_request) :=
  match remote_partitions with
  | [] => Some (handles, issued)
  | unit :: rest =>
      let '(target_count, src_disp, target_disp) := get_send_info unit in
      let it_src :=
        if decide (unit = unit_at_begin) then pos from_global_begin
        else pattern_global_index from_global_begin unit in
      let request :=
        GetRequest (it_src + src_disp) to_local_begin target_disp
                   target_count in
      handles' ← vec_set handles unit (dart_get_handle issued request);
      exchange_loop dart_get_handle get_send_info from_global_begin
                    to_local_begin unit_at_begin rest handles'
                    (issued ++ [request])
  end.

(** Returns the handles and the get requests issued, in order. *)
Definition psort__exchange_data
    (dart_get_handle : list get_request → get_request → dart_handle_t)
    (from_global_begin : GlobIterT) (to_local_begin : Z)
    (remote_partitions : list Z) (get_send_info : Z → Z * Z * Z)
    : option (list dart_handle_t * list get_request) :=
  let unit_at_begin :=
    pattern_unit_at from_global_begin (pos from_global_begin) in
  let nchunks := team_size from_global_begin in
  let handles := replicate (Z.to_nat nchunks) DART_HANDLE_NULL in
  if decide (nullptr = to_local_begin) then Some (handles, [])
  else exchange_loop dart_get_handle get_send_info from_global_begin
                     to_local_begin unit_at_begin remote_partitions
                     handles [].

(** *** [psort__schedule_copy_tasks] *)

(** The [std::transform] into the map: one copy task per remote
    partition, under the key [[partition, partition + 1)]. *)
Fixpoint schedule_transform (handles : list dart_handle_t)
    (remote_partitions : list Z)
    (thread_pool : list task) (chunk_dependencies : gmap (Z * Z) future)
    : option (list task * gmap (Z * Z) future) :=
  match remote_partitions with
  | [] => Some (thread_pool, chunk_dependencies)
  | partition :: rest =>
      handle ← vec_at handles partition;
      let '(thread_pool', fut) := submit thread_pool (WaitTask handle) in
      schedule_transform handles rest thread_pool'
        (map_emplace (partition, partition + 1) fut chunk_dependencies)
  end.

(** [None] also when the [DASH_ASSERT_EQ] on the size of the map fails. *)
Definition psort__schedule_copy_tasks
    (remote_partitions : list Z) (copy_handles : list dart_handle_t)
    (thread_pool : list task) (whoami : Z) (local_copy : user_task)
    : option (list task * gmap (Z * Z) future) :=
  '(thread_pool, chunk_dependencies) ←
    schedule_transform copy_handles remote_partitions thread_pool ∅;
  let local_range : Z * Z := (whoami, whoami + 1) in
  let '(thread_pool, fut) := submit thread_pool (LocalCopyTask local_copy) in
  let chunk_dependencies := map_emplace local_range fut chunk_dependencies in
  if decide (length remote_partitions + 1 = size chunk_dependencies)%nat
  then Some (thread_pool, chunk_dependencies)
  else None.

(** *** [psort__merge_tree] *)

(** [x << n] on [std::size_t]. *)
Definition shl64 (x n : Z) : Z := to_size_t (Z.shiftl x n).

(** The body of the inner loop for one [m]. *)
Definition merge_step (npartitions d depth step dist : Z)
    (is_final_merge : bool)
    (st : list task * gmap (Z * Z) future) (m : Z)
    : list task * gmap (Z * Z) future :=
  let f := to_size_t (m * dist) in
  let mi := to_size_t (to_size_t (m * dist) + step) in
  let l := Z.min (to_size_t (to_size_t (m * dist) + dist)) npartitions in
  let '(thread_pool, fut) :=
    submit st.1 (MergeTask f mi l d depth is_final_merge) in
  let to_merge : Z * Z := (f, l) in
  (thread_pool, map_emplace to_merge fut st.2).

(** The body of the outer loop for one level [d]. *)
Definition merge_level (npartitions depth d nchunks : Z)
    (st : list task * gmap (Z * Z) future)
    : list task * gmap (Z * Z) future :=
  let step := shl64 1 d in
  let dist := shl64 step 1 in
  let nmerges := Z.shiftr nchunks 1 in
  let is_final_merge := bool_decide (nchunks = 2) in
  foldl (merge_step npartitions d depth step dist is_final_merge) st
        (seqZ 0 nmerges).

(** The outer loop, [levels] iterations from level [d] on. *)
Fixpoint merge_levels (levels : nat) (npartitions depth d nchunks : Z)
    (st : list task * gmap (Z * Z) future)
    : list task * gmap (Z * Z) future :=
  match levels with
  | O => st
  | S levels' =>
      merge_levels levels' npartitions depth (d + 1)
                   (nchunks - Z.shiftr nchunks 1)
                   (merge_level npartitions depth d nchunks st)
  end.

(** [depth] is [static_cast<size_t>(std::ceil(std::log2(nchunks)))],
    computed in [double]. For [nchunks ≤ 2 ^ 48] the conversion to [double]
    is exact and the logarithm of a number that is not a power of two lies
    above the integer below it by more than the spacing of the doubles
    there, so that the value computed is the exact [⌈log2 nchunks⌉], which
    the model takes. From [2 ^ 49 + 1] on the logarithm can round down to
    an integer and the depth computed be one less than the exact one: what
    is stated about the depth itself is stated for [nchunks ≤ 2 ^ 48]. *)
Definition merge_tree_depth (nchunks : Z) : Z := Z.log2_up nchunks.

(** The tasks submitted and the dependencies when the loops are done. *)
Definition merge_tree_loops (chunk_dependencies : gmap (Z * Z) future)
    (nchunks : Z) (thread_pool : list task)
    : list task * gmap (Z * Z) future :=
  let depth := merge_tree_depth nchunks in
  let npartitions := nchunks in
  merge_levels (Z.to_nat depth) npartitions depth 0 nchunks
               (thread_pool, chunk_dependencies).

(** Returns the pool and the future awaited in the end; [None] when
    [chunk_dependencies.at] throws. *)
Definition psort__merge_tree (chunk_dependencies : gmap (Z * Z) future)
    (nchunks : Z) (thread_pool : list task) : option (list task * future) :=
  let npartitions := nchunks in
  let '(thread_pool, chunk_dependencies) :=
    merge_tree_loops chunk_dependencies nchunks thread_pool in
  let final_range : Z * Z := (0, npartitions) in
  fut ← chunk_dependencies !! final_range;
  Some (thread_pool, fut).

(** **** Proofs *)

Lemma to_int32_small z : - 2 ^ 31 ≤ z < 2 ^ 31 → to_int32 z = z.
Proof.
  intros Hz. unfold to_int32.
  rewrite Z.mod_small by lia. lia.
Qed.

Lemma vec_at_lookup {A} (v : list A) (i : Z) :
  0 ≤ i → vec_at v i = v !! Z.to_nat i.
Proof. intros Hi. unfold vec_at. by rewrite decide_True. Qed.

Lemma vec_at_is_Some {A} (v : list A) (i : Z) :
  0 ≤ i < Z.of_nat (length v) → is_Some (vec_at v i).
Proof.
  intros Hi. rewrite vec_at_lookup by lia.
  apply lookup_lt_is_Some. lia.
Qed.

Lemma transform_back_acc f src dst :
  transform_back f src dst = (λ ys, dst ++ ys) <$> transform_back f src [].
Proof.
  revert dst. induction src as [|x src IH]; intros dst; simpl.
  - by rewrite app_nil_r.
  - destruct (f x) as [y|]; simpl; [|done].
    rewrite (IH (dst ++ [y])), (IH [y]).
    destruct (transform_back f src []) as [ys|]; simpl; [|done].
    by rewrite <- app_assoc.
Qed.

(** On in-range data the test of the source and the test of the
    specification agree. *)
Lemma source_test_is_spec_test (target_counts : list Z) whoami r count :
  Forall (λ c, 0 ≤ c) target_counts →
  0 ≤ r →
  target_counts !! Z.to_nat r = Some count →
  bool_decide (count ≠ 0) && bool_decide (whoami ≠ r)
  = has_remote_data target_counts whoami r.
Proof.
  intros Hpos Hr Hlk. unfold has_remote_data. rewrite Hlk. simpl.
  assert (0 ≤ count) as Hc.
  { eapply (Forall_lookup_1 _ _ _ _ Hpos Hlk). }
  f_equal; apply bool_decide_ext; [lia | split; congruence].
Qed.

Lemma right_unit_in_range (target_counts : list Z) whoami s :
  Forall (λ c, 0 ≤ c) target_counts →
  Z.of_nat (length target_counts) ≤ 2 ^ 31 →
  0 ≤ s ∧ s + 1 < Z.of_nat (length target_counts) →
  right_unit_or_undefined target_counts whoami s
  = Some (if has_remote_data target_counts whoami (s + 1)
          then s + 1 else DART_UNDEFINED_UNIT_ID).
Proof.
  intros Hpos Hlen [Hs0 Hs1]. unfold right_unit_or_undefined.
  rewrite to_int32_small by lia.
  rewrite decide_False by (unfold INT32_MAX; lia).
  destruct (vec_at_is_Some target_counts (s + 1)) as [count Hcount]; [lia|].
  rewrite Hcount. simpl.
  rewrite vec_at_lookup in Hcount by lia.
  by rewrite (source_test_is_spec_test _ _ _ _ Hpos) by (done || lia).
Qed.

Lemma transform_back_marks (target_counts : list Z) whoami splitters :
  Forall (λ c, 0 ≤ c) target_counts →
  Z.of_nat (length target_counts) ≤ 2 ^ 31 →
  Forall (λ s, 0 ≤ s ∧ s + 1 < Z.of_nat (length target_counts)) splitters →
  transform_back (right_unit_or_undefined target_counts whoami) splitters []
  = Some ((λ s, if has_remote_data target_counts whoami (s + 1)
                then s + 1 else DART_UNDEFINED_UNIT_ID) <$> splitters).
Proof.
  intros Hpos Hlen Hall.
  induction splitters as [|s splitters IH]; [done|].
  apply Forall_cons in Hall as [Hs Hall].
  cbn [transform_back].
  rewrite (right_unit_in_range _ _ _ Hpos Hlen Hs). simpl.
  rewrite transform_back_acc, (IH Hall). done.
Qed.

Lemma erase_undefined_marks (target_counts : list Z) whoami splitters :
  DART_UNDEFINED_UNIT_ID < 0 →
  Forall (λ s, 0 ≤ s ∧ s + 1 < Z.of_nat (length target_counts)) splitters →
  erase_undefined
    ((λ s, if has_remote_data target_counts whoami (s + 1)
           then s + 1 else DART_UNDEFINED_UNIT_ID) <$> splitters)
  = filter (λ r, has_remote_data target_counts whoami r = true)
           ((λ s, s + 1) <$> splitters).
Proof.
  intros Hundef Hall. unfold erase_undefined.
  induction splitters as [|s splitters IH]; [done|].
  apply Forall_cons in Hall as [[Hs0 Hs1] Hall].
  rewrite !fmap_cons, !filter_cons, (IH Hall).
  destruct (has_remote_data target_counts whoami (s + 1)) eqn:Htest.
  - rewrite decide_True by lia. by rewrite decide_True.
  - rewrite decide_False by (intros Hne; by apply Hne). by rewrite decide_False.
Qed.

(** C3. On in-range arguments ([unit_at_begin] and every [s + 1] index
    [target_counts], whose length fits the unit id type and whose entries
    are counts) [psort__remote_partitions] returns exactly the list of the
    specification: [unit_at_begin] when it holds data for us and is not
    us, then for every splitter [s] in input order the unit [s + 1] under
    the same test, the skipped ones removed and the order kept. *)
Theorem psort_remote_partitions_correct
    (valid_splitters target_counts : list Z) (nunits unit_at_begin whoami : Z) :
  DART_UNDEFINED_UNIT_ID < 0 →
  Forall (λ c, 0 ≤ c) target_counts →
  Z.of_nat (length target_counts) ≤ 2 ^ 31 →
  0 ≤ unit_at_begin < Z.of_nat (length target_counts) →
  Forall (λ s, 0 ≤ s ∧ s + 1 < Z.of_nat (length target_counts))
         valid_splitters →
  psort__remote_partitions valid_splitters target_counts nunits
                           unit_at_begin whoami
  = Some (remote_partitions_spec valid_splitters target_counts
                                 unit_at_begin whoami).
Proof.
  intros Hundef Hpos Hlen Hbegin Hall.
  unfold psort__remote_partitions, remote_partitions_spec.
  destruct (vec_at_is_Some target_counts unit_at_begin) as [count Hcount];
    [lia|].
  rewrite Hcount. simpl.
  rewrite vec_at_lookup in Hcount by lia.
  rewrite (source_test_is_spec_test _ _ _ _ Hpos) by (done || lia).
  rewrite transform_back_acc, transform_back_marks by done. simpl.
  f_equal. unfold erase_undefined at 1.
  rewrite filter_app. fold (erase_undefined).
  rewrite (erase_undefined_marks _ _ _ Hundef Hall).
  f_equal.
  destruct (has_remote_data target_counts whoami unit_at_begin); [|done].
  rewrite filter_cons, decide_True by lia. done.
Qed.

(** **** [psort__schedule_copy_tasks] *)

Lemma map_emplace_dom (k : Z * Z) (fut : future) (m : gmap (Z * Z) future) :
  dom (map_emplace k fut m) = {[k]} ∪ dom m.
Proof.
  unfold map_emplace. destruct (m !! k) as [fut'|] eqn:Hk.
  - apply (elem_of_dom_2 (D := gset (Z * Z))) in Hk.
    symmetry. apply subseteq_union_1_L. by apply singleton_subseteq_l.
  - by rewrite dom_insert_L.
Qed.

Lemma map_emplace_lookup_ne (k k' : Z * Z) (fut : future) (m : gmap (Z * Z) future) :
  k ≠ k' → map_emplace k fut m !! k' = m !! k'.
Proof.
  intros Hne. unfold map_emplace.
  destruct (m !! k); [done|]. by rewrite lookup_insert_ne.
Qed.

Lemma map_emplace_lookup_fresh (k : Z * Z) (fut : future) (m : gmap (Z * Z) future) :
  m !! k = None → map_emplace k fut m !! k = Some fut.
Proof.
  intros Hk. unfold map_emplace. rewrite Hk. by rewrite lookup_insert_eq.
Qed.

Lemma map_emplace_lookup_is_Some (k : Z * Z) (fut : future) (m : gmap (Z * Z) future) :
  is_Some (map_emplace k fut m !! k).
Proof.
  destruct (m !! k) as [fut'|] eqn:Hk.
  - unfold map_emplace. rewrite Hk. by rewrite Hk.
  - rewrite map_emplace_lookup_fresh by done. by eexists.
Qed.

Lemma schedule_transform_dom (handles : list dart_handle_t)
    (parts : list Z) (tp : list task) (deps : gmap (Z * Z) future) :
  Forall (λ p, 0 ≤ p < Z.of_nat (length handles)) parts →
  ∃ tp' deps',
    schedule_transform handles parts tp deps = Some (tp', deps')
    ∧ dom deps' = list_to_set ((λ p, (p, p + 1)) <$> parts) ∪ dom deps.
Proof.
  revert tp deps. induction parts as [|p parts IH]; intros tp deps Hall.
  - exists tp, deps. split; [done|].
    by rewrite fmap_nil, list_to_set_nil, (left_id_L ∅ (∪)).
  - apply Forall_cons in Hall as [Hp Hall]. cbn [schedule_transform].
    destruct (vec_at_is_Some handles p Hp) as [hdl Hhdl].
    rewrite Hhdl. simpl.
    destruct (IH (tp ++ [WaitTask hdl])
                 (map_emplace (p, p + 1) (length tp) deps) Hall)
      as (tp' & deps' & Hrun & Hdom).
    exists tp', deps'. split; [done|].
    rewrite Hdom, map_emplace_dom.
    rewrite (comm_L (∪) {[(p, p + 1)]} (list_to_set _)).
    by rewrite (assoc_L (∪)).
Qed.

Lemma partition_ranges_NoDup (parts : list Z) :
  NoDup parts → NoDup ((λ p, (p, p + 1)) <$> parts).
Proof.
  intros Hnd.
  assert (Inj eq eq (λ p : Z, (p, p + 1))) as Hinj.
  { intros p q Hpq. by inversion Hpq. }
  by apply (NoDup_fmap_2 _).
Qed.

(** C5. For pairwise distinct remote partitions, all different from
    [whoami] (and all indexing the handle vector),
    [psort__schedule_copy_tasks] returns a map with exactly
    [|remote_partitions| + 1] entries: the keys [[p, p + 1)] of the remote
    partitions and the key [[whoami, whoami + 1)] of the local copy. The
    size assertion of the source therefore holds. *)
Theorem psort_schedule_copy_tasks_entries
    (remote_partitions : list Z) (copy_handles : list dart_handle_t)
    (thread_pool : list task) (whoami : Z) (local_copy : user_task) :
  NoDup remote_partitions →
  whoami ∉ remote_partitions →
  Forall (λ p, 0 ≤ p < Z.of_nat (length copy_handles)) remote_partitions →
  ∃ thread_pool' chunk_dependencies,
    psort__schedule_copy_tasks remote_partitions copy_handles thread_pool
                               whoami local_copy
    = Some (thread_pool', chunk_dependencies)
    ∧ size chunk_dependencies = (length remote_partitions + 1)%nat
    ∧ ∀ k : Z * Z,
        is_Some (chunk_dependencies !! k)
        ↔ k = (whoami, whoami + 1)
          ∨ ∃ p, p ∈ remote_partitions ∧ k = (p, p + 1).
Proof.
  intros Hnd Hself Hidx. unfold psort__schedule_copy_tasks.
  destruct (schedule_transform_dom copy_handles remote_partitions
              thread_pool ∅ Hidx) as (tp1 & deps1 & Hrun & Hdom).
  rewrite Hrun. cbn [mbind option_bind submit].
  set (deps := map_emplace (whoami, whoami + 1) (length tp1) deps1).
  assert (dom deps
          = {[(whoami, whoami + 1)]}
            ∪ list_to_set ((λ p, (p, p + 1)) <$> remote_partitions))
    as Hdeps.
  { unfold deps. rewrite map_emplace_dom, Hdom, dom_empty_L.
    by rewrite (right_id_L ∅ (∪)). }
  assert (size deps = (length remote_partitions + 1)%nat) as Hsize.
  { rewrite <- size_dom, Hdeps, size_union.
    - rewrite size_singleton, size_list_to_set, length_fmap; [lia|].
      by apply partition_ranges_NoDup.
    - intros k Hk1 Hk2. apply elem_of_singleton in Hk1 as ->.
      apply elem_of_list_to_set, list_elem_of_fmap in Hk2 as (p & Hp & Hin).
      inversion Hp; subst. contradiction. }
  rewrite decide_True by (symmetry; exact Hsize).
  exists (tp1 ++ [LocalCopyTask local_copy]), deps.
  split; [done|]. split; [done|].
  intros k. rewrite <- elem_of_dom, Hdeps, elem_of_union, elem_of_singleton,
    elem_of_list_to_set, list_elem_of_fmap.
  split; (intros [Hk|(p & Hp & Hin)]; [by left|right; by exists p]).
Qed.

(** **** [psort__exchange_data] *)

Lemma vec_set_in_range {A} (v : list A) (i : Z) (x : A) :
  0 ≤ i < Z.of_nat (length v) → vec_set v i x = Some (<[Z.to_nat i := x]> v).
Proof. intros Hi. unfold vec_set. by rewrite decide_True. Qed.

Lemma exchange_loop_handles
    (transport : list get_request → get_request → dart_handle_t)
    (get_send_info : Z → Z * Z * Z) (it : GlobIterT)
    (to_local_begin unit_at_begin : Z) (units : list Z)
    (handles : list dart_handle_t) (issued : list get_request) :
  Forall (λ u, 0 ≤ u < Z.of_nat (length handles)) units →
  ∃ handles' issued',
    exchange_loop transport get_send_info it to_local_begin unit_at_begin
                  units handles issued = Some (handles', issued')
    ∧ length handles' = length handles
    ∧ ∀ u, 0 ≤ u → u ∉ units →
        handles' !! Z.to_nat u = handles !! Z.to_nat u.
Proof.
  revert handles issued.
  induction units as [|unit rest IH]; intros handles issued Hall.
  - exists handles, issued. by repeat split.
  - apply Forall_cons in Hall as [Hunit Hall]. cbn [exchange_loop].
    destruct (get_send_info unit) as [[target_count src_disp] target_disp].
    rewrite vec_set_in_range by done. cbn [mbind option_bind].
    match goal with
    | |- context [exchange_loop _ _ _ _ _ _ ?hs ?rs] =>
        destruct (IH hs rs) as (handles' & issued' & Hrun & Hlen & Hkeep)
    end.
    { by rewrite length_insert. }
    exists handles', issued'. split; [done|]. split.
    + by rewrite Hlen, length_insert.
    + intros u Hu Hnotin. apply not_elem_of_cons in Hnotin as [Hne Hnotin].
      rewrite (Hkeep u Hu Hnotin).
      apply list_lookup_insert_ne. lia.
Qed.

(** C8. With a null local destination (an empty unit)
    [psort__exchange_data] issues no get and returns [team.size()] null
    handles; and in every call whose remote partitions index the handle
    vector, the handle of a unit that is not a remote partition is still
    null. *)
Theorem psort_exchange_data_null_handles
    (transport : list get_request → get_request → dart_handle_t)
    (from_global_begin : GlobIterT) (to_local_begin : Z)
    (remote_partitions : list Z) (get_send_info : Z → Z * Z * Z) :
  (to_local_begin = nullptr →
   psort__exchange_data transport from_global_begin to_local_begin
                        remote_partitions get_send_info
   = Some (replicate (Z.to_nat (team_size from_global_begin))
                     DART_HANDLE_NULL, []))
  ∧ (Forall (λ u, 0 ≤ u < team_size from_global_begin) remote_partitions →
     ∃ handles issued,
       psort__exchange_data transport from_global_begin to_local_begin
                            remote_partitions get_send_info
       = Some (handles, issued)
       ∧ length handles = Z.to_nat (team_size from_global_begin)
       ∧ ∀ u, 0 ≤ u < team_size from_global_begin →
           u ∉ remote_partitions →
           handles !! Z.to_nat u = Some DART_HANDLE_NULL).
Proof.
  unfold psort__exchange_data. split.
  - intros ->. by rewrite decide_True.
  - intros Hall.
    set (null_handles :=
           replicate (Z.to_nat (team_size from_global_begin))
                     DART_HANDLE_NULL).
    assert (∀ u, 0 ≤ u < team_size from_global_begin →
                 null_handles !! Z.to_nat u = Some DART_HANDLE_NULL)
      as Hnull.
    { intros u Hu. apply lookup_replicate_2. lia. }
    destruct (decide (nullptr = to_local_begin)) as [Hempty|Hdata].
    + exists null_handles, []. split; [done|]. split.
      * apply length_replicate.
      * intros u Hu _. by apply Hnull.
    + destruct (exchange_loop_handles transport get_send_info
                  from_global_begin to_local_begin
                  (pattern_unit_at from_global_begin (pos from_global_begin))
                  remote_partitions null_handles [])
        as (handles & issued & Hrun & Hlen & Hkeep).
      { eapply Forall_impl; [exact Hall|]. intros u Hu. simpl in Hu.
        unfold null_handles. rewrite length_replicate. lia. }
      exists handles, issued. split; [done|]. split.
      * rewrite Hlen. apply length_replicate.
      * intros u Hu Hnotin. rewrite Hkeep by (done || lia). by apply Hnull.
Qed.

(** **** [psort__merge_tree] *)

Lemma to_size_t_small z : 0 ≤ z < 2 ^ 64 → to_size_t z = z.
Proof. intros Hz. unfold to_size_t. by rewrite Z.mod_small. Qed.

Lemma pow2_le_63 d : 0 ≤ d ≤ 63 → 0 < 2 ^ d ≤ 2 ^ 63.
Proof.
  intros Hd. split; [apply Z.pow_pos_nonneg; lia|].
  apply Z.pow_le_mono_r; lia.
Qed.

Lemma shl64_one d : 0 ≤ d ≤ 63 → shl64 1 d = 2 ^ d.
Proof.
  intros Hd. unfold shl64. rewrite Z.shiftl_1_l.
  apply to_size_t_small. pose proof (pow2_le_63 d Hd). lia.
Qed.

Lemma shl64_double d : 0 ≤ d ≤ 62 → shl64 (2 ^ d) 1 = 2 ^ (d + 1).
Proof.
  intros Hd. unfold shl64.
  rewrite Z.shiftl_mul_pow2 by lia.
  replace (2 ^ d * 2 ^ 1) with (2 ^ (d + 1))
    by (rewrite Z.pow_add_r by lia; lia).
  apply to_size_t_small.
  assert (0 ≤ d + 1 ≤ 63) as Hd1 by lia.
  pose proof (pow2_le_63 (d + 1) Hd1). lia.
Qed.

(** The inner loop appends one merge task per [m] and touches only the
    keys it computes. *)
Lemma merge_steps_effect (npartitions d depth step dist : Z) (fin : bool)
    (ms : list Z) (tp : list task) (deps : gmap (Z * Z) future) :
  ∃ new deps',
    foldl (merge_step npartitions d depth step dist fin) (tp, deps) ms
    = (tp ++ new, deps')
    ∧ Forall (λ t, ∃ f mi l, t = MergeTask f mi l d depth fin) new
    ∧ ∀ k : Z * Z,
        Forall (λ m, (to_size_t (m * dist),
                      Z.min (to_size_t (to_size_t (m * dist) + dist))
                            npartitions) ≠ k) ms →
        deps' !! k = deps !! k.
Proof.
  revert tp deps. induction ms as [|m ms IH]; intros tp deps.
  - exists [], deps. rewrite app_nil_r. by repeat split.
  - cbn [foldl]. unfold merge_step at 2. cbn [submit fst snd].
    match goal with
    | |- context [foldl _ (tp ++ [?t], ?deps1) ms] =>
        destruct (IH (tp ++ [t]) deps1) as (new & deps' & Hrun & Hnew & Hkeep);
        exists (t :: new), deps'
    end.
    split; [by rewrite Hrun, <- app_assoc|]. split.
    + apply Forall_cons. split; [by eexists _, _, _|done].
    + intros k Hk. apply Forall_cons in Hk as [Hm Hk].
      rewrite (Hkeep k Hk). by apply map_emplace_lookup_ne.
Qed.

(** The last level: two chunks, one merge, over the whole range. *)
Lemma merge_level_final (npartitions depth d : Z)
    (tp : list task) (deps : gmap (Z * Z) future) :
  0 ≤ d ≤ 62 → 0 ≤ npartitions ≤ 2 ^ (d + 1) →
  merge_level npartitions depth d 2 (tp, deps)
  = (tp ++ [MergeTask 0 (2 ^ d) npartitions d depth true],
     map_emplace (0, npartitions) (length tp) deps).
Proof.
  intros Hd Hn. unfold merge_level.
  rewrite shl64_one, shl64_double by lia.
  change (Z.shiftr 2 1) with 1. change (seqZ 0 1) with [0].
  cbn [foldl]. unfold merge_step. cbn [submit fst snd].
  rewrite Z.mul_0_l. change (to_size_t 0) with 0. rewrite !Z.add_0_l.
  assert (0 ≤ d + 1 ≤ 63) as Hd1 by lia.
  pose proof (pow2_le_63 d ltac:(lia)) as Hp.
  pose proof (pow2_le_63 (d + 1) Hd1) as Hp1.
  rewrite !to_size_t_small by lia.
  rewrite Z.min_r by lia.
  by rewrite bool_decide_eq_true_2.
Qed.

(** A level before the last: more than two chunks, and no merge of it
    covers the whole range. *)
Lemma merge_level_inner (npartitions depth d nchunks : Z)
    (tp : list task) (deps : gmap (Z * Z) future) :
  0 ≤ d → d + 2 ≤ depth ≤ 63 →
  2 ^ (depth - 1) < npartitions →
  2 < nchunks ≤ 2 ^ (depth - d) →
  ∃ new deps',
    merge_level npartitions depth d nchunks (tp, deps) = (tp ++ new, deps')
    ∧ Forall (λ t, ∃ f mi l, t = MergeTask f mi l d depth false) new
    ∧ deps' !! (0, npartitions) = deps !! (0, npartitions).
Proof.
  intros Hd Hdepth Hn Hc. unfold merge_level.
  rewrite shl64_one, shl64_double by lia.
  rewrite (bool_decide_eq_false_2 (nchunks = 2)) by lia.
  destruct (merge_steps_effect npartitions d depth (2 ^ d) (2 ^ (d + 1))
              false (seqZ 0 (Z.shiftr nchunks 1)) tp deps)
    as (new & deps' & Hrun & Hnew & Hkeep).
  exists new, deps'. split; [done|]. split; [done|].
  apply Hkeep. apply Forall_forall. intros m Hm.
  apply elem_of_seqZ in Hm. rewrite Z.shiftr_div_pow2 in Hm by lia.
  change (2 ^ 1) with 2 in Hm.
  assert (0 < 2 ^ (d + 1) ≤ 2 ^ (depth - 1)) as Hdist.
  { split; [apply Z.pow_pos_nonneg; lia|].
    apply Z.pow_le_mono_r; lia. }
  assert (2 ^ (depth - d) * 2 ^ d = 2 ^ depth) as Hsplit.
  { rewrite <- Z.pow_add_r by lia. f_equal. lia. }
  assert (2 ^ (d + 1) = 2 * 2 ^ d) as Hdouble.
  { rewrite Z.pow_add_r by lia. lia. }
  pose proof (pow2_le_63 depth ltac:(lia)) as Hdepth63.
  pose proof (pow2_le_63 d ltac:(lia)) as Hstep.
  assert (2 * m + 2 ≤ nchunks) as Hm2.
  { pose proof (Z.mul_div_le nchunks 2 ltac:(lia)). lia. }
  assert (m * 2 ^ (d + 1) + 2 ^ (d + 1) ≤ 2 ^ depth) as Hbound.
  { rewrite Hdouble. nia. }
  assert (0 ≤ m * 2 ^ (d + 1)) as Hprod by nia.
  intros Hkey. inversion Hkey as [[Hf Hl]].
  rewrite (to_size_t_small (m * 2 ^ (d + 1))) in Hf, Hl by lia.
  rewrite to_size_t_small in Hl by lia.
  assert (m = 0) as -> by nia.
  lia.
Qed.

Lemma merge_levels_next (levels : nat) (npartitions depth d nchunks : Z)
    (st : list task * gmap (Z * Z) future) :
  merge_levels (S levels) npartitions depth d nchunks st
  = merge_levels levels npartitions depth (d + 1)
                 (nchunks - Z.shiftr nchunks 1)
                 (merge_level npartitions depth d nchunks st).
Proof. reflexivity. Qed.

(** The outer loop from level [d] on, with [levels] levels left and
    between [2 ^ (levels - 1)] (exclusive) and [2 ^ levels] chunks: every
    level but the last submits merges that are not final, the last level
    submits the one final merge, over [[0, npartitions)]. *)
Lemma merge_levels_effect (npartitions depth : Z) :
  depth ≤ 63 → 2 ^ (depth - 1) < npartitions ≤ 2 ^ depth →
  ∀ (levels : nat) (d nchunks : Z) (tp : list task)
    (deps : gmap (Z * Z) future),
    (1 ≤ levels)%nat → 0 ≤ d → d + Z.of_nat levels = depth →
    2 ^ (Z.of_nat levels - 1) < nchunks ≤ 2 ^ Z.of_nat levels →
    ∃ earlier merged,
      merge_levels levels npartitions depth d nchunks (tp, deps)
      = (tp ++ earlier
            ++ [MergeTask 0 (2 ^ (depth - 1)) npartitions (depth - 1) depth
                          true],
         merged)
      ∧ Forall (λ t, ∃ f mi l d', t = MergeTask f mi l d' depth false
                                  ∧ d ≤ d' < depth - 1) earlier
      ∧ (deps !! (0, npartitions) = None →
         merged !! (0, npartitions) = Some (length (tp ++ earlier)))
      ∧ is_Some (merged !! (0, npartitions)).
Proof.
  intros Hdepth Hn levels.
  induction levels as [|levels IH]; intros d nchunks tp deps Hk Hd Hsum Hc;
    [lia|].
  destruct levels as [|levels].
  - (* the last level *)
    change (Z.of_nat 1) with 1 in *. change (2 ^ (1 - 1)) with 1 in Hc.
    change (2 ^ 1) with 2 in Hc.
    assert (nchunks = 2) as -> by lia.
    assert (d = depth - 1) as -> by lia.
    cbn [merge_levels].
    rewrite merge_level_final
      by (split; [lia | replace (depth - 1 + 1) with depth by lia; lia]).
    exists [], (map_emplace (0, npartitions) (length tp) deps).
    rewrite app_nil_r. split; [done|]. split; [by apply Forall_nil|].
    split; [apply map_emplace_lookup_fresh|apply map_emplace_lookup_is_Some].
  - (* a level before the last *)
    rewrite !Nat2Z.inj_succ in Hsum, Hc.
    set (kz := Z.of_nat levels) in *.
    assert (0 ≤ kz) as Hkz by (unfold kz; lia).
    assert (0 < 2 ^ kz) as Hpow by (apply Z.pow_pos_nonneg; lia).
    replace (Z.succ (Z.succ kz) - 1) with (kz + 1) in Hc by lia.
    replace (Z.succ (Z.succ kz)) with (kz + 2) in Hc, Hsum by lia.
    rewrite !Z.pow_add_r in Hc by lia.
    change (2 ^ 1) with 2 in Hc. change (2 ^ 2) with 4 in Hc.
    destruct (merge_level_inner npartitions depth d nchunks tp deps)
      as (new & deps1 & Hlevel & Hnew & Hkeep); try lia.
    { replace (depth - d) with (kz + 2) by lia.
      rewrite Z.pow_add_r by lia. change (2 ^ 2) with 4. lia. }
    rewrite merge_levels_next, Hlevel.
    pose proof (Z.mul_div_le nchunks 2 ltac:(lia)) as Hhalf1.
    pose proof (Z.mul_succ_div_gt nchunks 2 ltac:(lia)) as Hhalf2.
    destruct (IH (d + 1) (nchunks - Z.shiftr nchunks 1) (tp ++ new) deps1)
      as (earlier & merged & Hrun & Hearlier & Hfresh & Hsome).
    { lia. }
    { lia. }
    { rewrite Nat2Z.inj_succ. fold kz. lia. }
    { rewrite Nat2Z.inj_succ. fold kz.
      replace (Z.succ kz - 1) with kz by lia.
      rewrite Z.pow_succ_r by lia.
      rewrite Z.shiftr_div_pow2 by lia. change (2 ^ 1) with 2. lia. }
    exists (new ++ earlier), merged.
    split; [by rewrite Hrun, <- !app_assoc|]. split.
    { apply Forall_app. split.
      - eapply Forall_impl; [exact Hnew|].
        intros t (f & mi & l & ->). exists f, mi, l, d. split; [done|lia].
      - eapply Forall_impl; [exact Hearlier|].
        intros t (f & mi & l & d' & -> & Hd'). exists f, mi, l, d'.
        split; [done|lia]. }
    split; [|done].
    intros Hnone. rewrite app_assoc. apply Hfresh. by rewrite Hkeep.
Qed.

(** C4. For [2 ≤ nchunks] (and at most [2 ^ 48], where the depth computed
    in [double] is [ceil(log2(nchunks))]), the merges submitted before the
    last level [depth - 1] all have [is_final_merge] false, the last level
    submits one merge with [is_final_merge] true, over
    [[0, npartitions)]; its future is the entry under that key (when the
    map handed in had none), and the final lookup finds an entry. *)
Theorem psort_merge_tree_final_level
    (chunk_dependencies : gmap (Z * Z) future) (nchunks : Z)
    (thread_pool : list task) :
  2 ≤ nchunks ≤ 2 ^ 48 →
  let depth := merge_tree_depth nchunks in
  let npartitions := nchunks in
  ∃ earlier merged,
    let final_merge :=
      MergeTask 0 (2 ^ (depth - 1)) npartitions (depth - 1) depth true in
    merge_tree_loops chunk_dependencies nchunks thread_pool
    = (thread_pool ++ earlier ++ [final_merge], merged)
    ∧ Forall (λ t, ∃ f mi l d, t = MergeTask f mi l d depth false
                               ∧ 0 ≤ d < depth - 1) earlier
    ∧ (chunk_dependencies !! (0, npartitions) = None →
       merged !! (0, npartitions) = Some (length (thread_pool ++ earlier)))
    ∧ ∃ fut,
        merged !! (0, npartitions) = Some fut
        ∧ psort__merge_tree chunk_dependencies nchunks thread_pool
          = Some (thread_pool ++ earlier ++ [final_merge], fut).
Proof.
  intros Hexact depth npartitions. subst npartitions.
  assert (2 ≤ nchunks ≤ 2 ^ 63) as Hn by lia.
  unfold merge_tree_depth in depth.
  destruct (Z.log2_up_spec nchunks ltac:(lia)) as [Hlow Hhigh].
  rewrite <- Z.sub_1_r in Hlow. fold depth in Hlow, Hhigh.
  assert (1 ≤ depth ≤ 63) as Hdepth.
  { split.
    - unfold depth. change 1 with (Z.log2_up 2).
      apply Z.log2_up_le_mono. lia.
    - unfold depth. apply Z.log2_up_le_pow2; lia. }
  destruct (merge_levels_effect nchunks depth ltac:(lia) ltac:(lia)
              (Z.to_nat depth) 0 nchunks thread_pool chunk_dependencies)
    as (earlier & merged & Hrun & Hearlier & Hfresh & [fut Hfut]).
  { lia. }
  { lia. }
  { lia. }
  { rewrite Z2Nat.id by lia. lia. }
  exists earlier, merged. cbn zeta.
  split; [exact Hrun|]. split; [exact Hearlier|]. split; [exact Hfresh|].
  exists fut. split; [exact Hfut|].
  unfold psort__merge_tree.
  replace (merge_tree_loops chunk_dependencies nchunks thread_pool)
    with (thread_pool ++ earlier
            ++ [MergeTask 0 (2 ^ (depth - 1)) nchunks (depth - 1) depth true],
          merged) by (symmetry; exact Hrun).
  by rewrite Hfut.
Qed.

End Psort.

Lemma psort_remote_partitions_correct_witness :
  psort__remote_partitions (-1) [0; 1; 2] [4; 0; 7; 3] 4 0 2 = Some [0; 3].
Proof.
  apply (psort_remote_partitions_correct (-1) [0; 1; 2] [4; 0; 7; 3] 4 0 2).
  - lia.
  - repeat constructor; lia.
  - simpl. lia.
  - simpl. lia.
  - repeat constructor; simpl; lia.
Defined.

(** Five chunks: two merges on level 0, one on level 1, and the final
    merge of [[0, 4)] with the lonely chunk [[4, 5)] on level 2. *)
Example merge_tree_five_chunks :
  (merge_tree_loops Z unit ∅ 5 []).1
  = [MergeTask Z unit 0 1 2 0 3 false; MergeTask Z unit 2 3 4 0 3 false;
     MergeTask Z unit 0 2 4 1 3 false; MergeTask Z unit 0 4 5 2 3 true].
Proof. vm_compute. reflexivity. Qed.

(** A splitter whose right neighbour lies outside [target_counts] is an
    access outside the vector. *)
Example remote_partitions_out_of_range :
  psort__remote_partitions (-1) [0; 1; 3] [4; 0; 7; 3] 4 0 5 = None.
Proof. reflexivity. Qed.

(** Unit 0 at the begin of the range is read from the iterator itself, the
    others from the start of their slice. *)
Example exchange_data_requests :
  psort__exchange_data Z 0 (λ _ r, get_src r)
    (GlobIter 3 (λ _, 0) (λ u, 10 * u) 3) 64 [1; 0; 2]
    (λ u, (u + 1, u, 2 * u))
  = Some ([3; 11; 22],
          [GetRequest 11 64 2 2; GetRequest 3 64 0 1; GetRequest 22 64 4 3]).
Proof. reflexivity. Qed.

Lemma psort_schedule_copy_tasks_entries_witness :
  ∃ thread_pool chunk_dependencies,
    psort__schedule_copy_tasks Z unit [0; 2] [7; 0; 9] [] 1 ()
    = Some (thread_pool, chunk_dependencies)
    ∧ size chunk_dependencies = 3%nat.
Proof.
  destruct (psort_schedule_copy_tasks_entries Z unit [0; 2] [7; 0; 9] [] 1 ())
    as (thread_pool & chunk_dependencies & Hrun & Hsize & _).
  - compute_done.
  - compute_done.
  - repeat constructor; simpl; lia.
  - by exists thread_pool, chunk_dependencies.
Defined.

Lemma psort_exchange_data_null_handles_witness :
  let it := GlobIter 0 (λ _, 0) (λ u, 10 * u) 3 in
  psort__exchange_data Z 0 (λ _ _, 5) it nullptr [1; 2] (λ _, (1, 0, 0))
  = Some ([0; 0; 0], [])
  ∧ ∃ handles issued,
      psort__exchange_data Z 0 (λ _ _, 5) it 64 [1; 2] (λ _, (1, 0, 0))
      = Some (handles, issued)
      ∧ handles !! 0%nat = Some 0.
Proof.
  intros it. split.
  - apply (psort_exchange_data_null_handles Z 0 (λ _ _, 5) it nullptr [1; 2]
             (λ _, (1, 0, 0))).
    reflexivity.
  - destruct (psort_exchange_data_null_handles Z 0 (λ _ _, 5) it 64 [1; 2]
                (λ _, (1, 0, 0))) as [_ Hkeep].
    destruct Hkeep as (handles & issued & Hrun & _ & Hnull).
    + repeat constructor; simpl; lia.
    + exists handles, issued. split; [exact Hrun|].
      apply (Hnull 0); [simpl; lia|compute_done].
Defined.

Lemma psort_merge_tree_final_level_witness :
  ∃ earlier fut,
    psort__merge_tree Z unit ∅ 5 []
    = Some (earlier ++ [MergeTask Z unit 0 4 5 2 3 true], fut).
Proof.
  destruct (psort_merge_tree_final_level Z unit ∅ 5 [])
    as (earlier & merged & _ & _ & _ & fut & _ & Hrun).
  - lia.
  - exists earlier, fut. exact Hrun.
Defined.

End Merge.

(** ** Return codes of the DART interface ([dart_types.h]) *)

Inductive dart_ret_t : Type :=
  | DART_OK
  | DART_ERR_INVAL
  | DART_ERR_NOTFOUND
  | DART_ERR_NOTINIT
  | DART_ERR_OTHER.

Global Instance dart_ret_t_eq_dec : EqDecision dart_ret_t.
Proof. solve_decision. Defined.

Module Globmem.

(** *** The local buddy allocator *)

(** Modelled from the spec: [dart_buddy_alloc] ([dart_mem.h] and the buddy
    allocator behind it are not part of the sources at hand). A fixed-size
    arena of [2 ^ buddy_level] bytes in power-of-two classes; a block is
    unused, used, or split into its two buddies. *)
Inductive buddy_node : Type :=
  | Unused
  | Used
  | Split (left right : buddy_node).

Record dart_buddy : Type := Buddy {
  buddy_level : nat;
  buddy_tree : buddy_node
}.

(** Modelled from the spec: the class of a request, the least [k] with
    [nbytes ≤ 2 ^ k]. *)
Definition buddy_class (nbytes : Z) : nat :=
  Z.to_nat (Z.log2_up (Z.max nbytes 1)).

(** Modelled from the spec: first fit of a block of class [want] below a
    node of class [level] that starts at offset [off]; an unused block
    that is too large is split. *)
Fixpoint buddy_alloc_node (level want : nat) (t : buddy_node) (off : Z)
    : option (buddy_node * Z) :=
  match level with
  | O =>
      match t with
      | Unused => if decide (want = 0%nat) then Some (Used, off) else None
      | _ => None
      end
  | S level' =>
      if decide (want = level) then
        match t with
        | Unused => Some (Used, off)
        | _ => None
        end
      else if decide (level < want)%nat then None
      else
        match t with
        | Used => None
        | Unused =>
            '(l, o) ← buddy_alloc_node level' want Unused off;
            Some (Split l Unused, o)
        | Split l r =>
            match buddy_alloc_node level' want l off with
            | Some (l', o) => Some (Split l' r, o)
            | None =>
                '(r', o) ← buddy_alloc_node level' want r
                                            (off + 2 ^ Z.of_nat level');
                Some (Split l r', o)
            end
        end
  end.

(** The value [-1] as the allocator returns it in a [uint64_t]. *)
Definition BUDDY_EXHAUSTED : Z := to_size_t (-1).

(** Modelled from the spec: [alloc(bytes)] yields a 64-bit offset, or
    reports exhaustion and leaves the arena as it is. *)
Definition dart_buddy_alloc (pool : dart_buddy) (nbytes : Z)
    : dart_buddy * Z :=
  match buddy_alloc_node (buddy_level pool) (buddy_class nbytes)
                         (buddy_tree pool) 0 with
  | Some (t, off) => (Buddy (buddy_level pool) t, off)
  | None => (pool, BUDDY_EXHAUSTED)
  end.

(** *** Global pointers and the translation table *)

Record dart_gptr_t : Type := Gptr {
  unitid : Z;
  segid : Z;
  flags : Z;
  offset : Z
}.

(** An entry of the translation table ([info_t]); [win] and [baseptr] are
    the fields of the shared-memory build, [selfbaseptr] the field of the
    other. *)
Record info_t : Type := Info {
  seg_id : Z;
  size : Z;
  disp : list Z;
  win : Z;
  baseptr : list Z;
  selfbaseptr : Z
}.

(** The process-wide state the functions of [dart_globmem.c] work on.
    [mpi_win_base] is the [MPI_WIN_BASE] attribute of a window. *)
Record dart_state : Type := State {
  dart_myid : Z;
  dart_mempool_localalloc : Z;
  dart_localpool : dart_buddy;
  dart_transtable : gmap Z info_t;
  mpi_win_base : Z → Z
}.

(** Modelled from the spec: the translation table maps a segment id to
    its descriptor; [dart_adapt_transtable_get_win] and
    [dart_adapt_transtable_get_selfbaseptr] ([dart_translation.h]) report
    [-1], here [None], for an id that is not in the table. *)
Definition dart_adapt_transtable_get_win (st : dart_state) (seg : Z)
    : option Z :=
  win <$> dart_transtable st !! seg.

Definition dart_adapt_transtable_get_selfbaseptr (st : dart_state) (seg : Z)
    : option Z :=
  selfbaseptr <$> dart_transtable st !! seg.

Definition NULL : Z := 0.

(** [offset + (char * ) base] on a 64-bit address space. *)
Definition ptr_add (base off : Z) : Z := to_size_t (base + off).

(** *** [dart_gptr_getaddr] *)

(** [SHAREDMEM_ENABLE] selects the build. The second component is the
    value stored through [addr], [None] when nothing is stored. *)
Definition dart_gptr_getaddr (SHAREDMEM_ENABLE : bool) (st : dart_state)
    (gptr : dart_gptr_t) : dart_ret_t * option Z :=
  let seg_id := segid gptr in
  let offset := offset gptr in
  let myid := dart_myid st in
  if decide (myid = unitid gptr) then
    if decide (seg_id ≠ 0) then
      if SHAREDMEM_ENABLE then
        match dart_adapt_transtable_get_win st seg_id with
        | None => (DART_ERR_INVAL, None)
        | Some win => (DART_OK, Some (ptr_add (mpi_win_base st win) offset))
        end
      else
        match dart_adapt_transtable_get_selfbaseptr st seg_id with
        | None => (DART_ERR_INVAL, None)
        | Some addr => (DART_OK, Some (ptr_add addr offset))
        end
    else
      if decide (myid = unitid gptr)
      then (DART_OK, Some (ptr_add (dart_mempool_localalloc st) offset))
      else (DART_OK, None)
  else (DART_OK, Some NULL).

(** The base a pointer is relative to: the local pool for segment [0],
    the segment's own base otherwise. *)
Definition segment_base (SHAREDMEM_ENABLE : bool) (st : dart_state)
    (seg : Z) : option Z :=
  if decide (seg = 0) then Some (dart_mempool_localalloc st)
  else if SHAREDMEM_ENABLE
       then mpi_win_base st <$> dart_adapt_transtable_get_win st seg
       else dart_adapt_transtable_get_selfbaseptr st seg.

(** A state to evaluate on: unit 1, a local pool of 16 bytes at address
    4096, one collective segment 3 whose own base is 8192 and whose
    window 9 has base 900. *)
Definition example_state : dart_state :=
  State 1 4096 (Buddy 4 Unused) {[ 3 := Info 3 64 [8192] 9 [] 8192 ]}
        (λ w, 100 * w).

(** *** [dart_memalloc] *)

Definition set_localpool (st : dart_state) (pool : dart_buddy) : dart_state :=
  State (dart_myid st) (dart_mempool_localalloc st) pool
        (dart_transtable st) (mpi_win_base st).

(** Returns the code, the pointer written through [gptr] and the state. *)
Definition dart_memalloc (st : dart_state) (nbytes : Z)
    : dart_ret_t * dart_gptr_t * dart_state :=
  let unitid := dart_myid st in
  let '(pool, off) := dart_buddy_alloc (dart_localpool st) nbytes in
  let gptr := Gptr unitid 0 0 (to_size_t off) in
  let st := set_localpool st pool in
  if decide (offset gptr = to_size_t (-1)) then (DART_ERR_OTHER, gptr, st)
  else (DART_OK, gptr, st).

(** **** Proofs *)

(** A block handed out lies inside the node it was found under. *)
Lemma buddy_alloc_node_offset (level want : nat) :
  ∀ (t : buddy_node) (off : Z) (t' : buddy_node) (o : Z),
    buddy_alloc_node level want t off = Some (t', o) →
    off ≤ o ∧ o + 2 ^ Z.of_nat want ≤ off + 2 ^ Z.of_nat level.
Proof.
  induction level as [|level IH]; intros t off t' o Halloc.
  - simpl in Halloc. destruct t; try done.
    destruct (decide (want = 0%nat)) as [->|]; [|done].
    inversion Halloc; subst. lia.
  - cbn [buddy_alloc_node] in Halloc.
    assert (2 ^ Z.of_nat (S level) = 2 * 2 ^ Z.of_nat level) as Hpow.
    { rewrite Nat2Z.inj_succ, Z.pow_succ_r by lia. done. }
    assert (0 < 2 ^ Z.of_nat level) as Hpos
      by (apply Z.pow_pos_nonneg; lia).
    destruct (decide (want = S level)) as [->|Hne].
    { destruct t; try done. inversion Halloc; subst. lia. }
    destruct (decide (S level < want)%nat); [done|].
    destruct t as [| |l r]; [|done|].
    + destruct (buddy_alloc_node level want Unused off) as [[l o']|] eqn:Hl;
        [|done].
      inversion Halloc; subst. apply IH in Hl. lia.
    + destruct (buddy_alloc_node level want l off) as [[l' o']|] eqn:Hl.
      * inversion Halloc; subst. apply IH in Hl. lia.
      * destruct (buddy_alloc_node level want r (off + 2 ^ Z.of_nat level))
          as [[r' o']|] eqn:Hr; [|done].
        inversion Halloc; subst. apply IH in Hr. lia.
Qed.

Lemma buddy_offset_not_exhausted (pool : dart_buddy) (nbytes : Z)
    (t : buddy_node) (off : Z) :
  (buddy_level pool ≤ 63)%nat →
  buddy_alloc_node (buddy_level pool) (buddy_class nbytes)
                   (buddy_tree pool) 0 = Some (t, off) →
  0 ≤ off < 2 ^ 63.
Proof.
  intros Hlevel Halloc. apply buddy_alloc_node_offset in Halloc.
  assert (0 < 2 ^ Z.of_nat (buddy_class nbytes))
    by (apply Z.pow_pos_nonneg; lia).
  assert (2 ^ Z.of_nat (buddy_level pool) ≤ 2 ^ 63)
    by (apply Z.pow_le_mono_r; lia).
  lia.
Qed.

Lemma set_localpool_same (st : dart_state) :
  set_localpool st (dart_localpool st) = st.
Proof. by destruct st. Qed.

(** C2. For a pointer whose segment resolves (or is [0]), with [base] the
    base of that segment or of the local pool, [dart_gptr_getaddr] returns
    [DART_OK]; the address it stores is [base] plus the offset when the
    caller is the pointer's unit and [NULL] when it is not, so (off the
    null address) the local address is stored if and only if the caller
    owns the pointer. *)
Theorem dart_gptr_getaddr_local_iff (SHAREDMEM_ENABLE : bool)
    (st : dart_state) (gptr : dart_gptr_t) (base : Z) :
  segment_base SHAREDMEM_ENABLE st (segid gptr) = Some base →
  ∃ addr,
    dart_gptr_getaddr SHAREDMEM_ENABLE st gptr = (DART_OK, Some addr)
    ∧ (dart_myid st = unitid gptr → addr = ptr_add base (offset gptr))
    ∧ (dart_myid st ≠ unitid gptr → addr = NULL)
    ∧ (ptr_add base (offset gptr) ≠ NULL →
       (addr = ptr_add base (offset gptr) ↔ dart_myid st = unitid gptr)).
Proof.
  intros Hbase. unfold dart_gptr_getaddr, segment_base in *.
  destruct (decide (dart_myid st = unitid gptr)) as [Hown|Hother].
  - destruct (decide (segid gptr ≠ 0)) as [Hseg|Hseg].
    + rewrite decide_False in Hbase by done.
      destruct SHAREDMEM_ENABLE.
      * destruct (dart_adapt_transtable_get_win st (segid gptr)) as [w|];
          [|done].
        inversion Hbase; subst. eexists. by repeat split.
      * destruct (dart_adapt_transtable_get_selfbaseptr st (segid gptr))
          as [b|]; [|done].
        inversion Hbase; subst. eexists. by repeat split.
    + rewrite decide_True in Hbase by (by apply dec_stable).
      inversion Hbase; subst. eexists. by repeat split.
  - exists NULL. split; [done|]. by repeat split.
Qed.

(** C10. For a pointer of the caller's own unit whose segment id is not
    zero and not in the translation table, [dart_gptr_getaddr] returns
    [DART_ERR_INVAL] and stores no address, in either build. *)
Theorem dart_gptr_getaddr_unresolved (SHAREDMEM_ENABLE : bool)
    (st : dart_state) (gptr : dart_gptr_t) :
  dart_myid st = unitid gptr →
  segid gptr ≠ 0 →
  dart_transtable st !! segid gptr = None →
  dart_gptr_getaddr SHAREDMEM_ENABLE st gptr = (DART_ERR_INVAL, None).
Proof.
  intros Hown Hseg Hmiss. unfold dart_gptr_getaddr.
  rewrite decide_True by done. rewrite decide_True by done.
  unfold dart_adapt_transtable_get_win, dart_adapt_transtable_get_selfbaseptr.
  rewrite Hmiss. by destruct SHAREDMEM_ENABLE.
Qed.

(** C9. [dart_memalloc] on a pool of at most [2 ^ 63] bytes: when the
    buddy allocator finds a block, the call returns [DART_OK] with a
    pointer of segment [0], owned by the caller, at the offset the
    allocator returned; when it finds none, the call returns an error and
    the state, the pool with it, is what it was. *)
Theorem dart_memalloc_result (st : dart_state) (nbytes : Z) :
  (buddy_level (dart_localpool st) ≤ 63)%nat →
  (∀ pool off,
     dart_buddy_alloc (dart_localpool st) nbytes = (pool, off) →
     off ≠ BUDDY_EXHAUSTED →
     dart_memalloc st nbytes
     = (DART_OK, Gptr (dart_myid st) 0 0 off, set_localpool st pool))
  ∧ (∀ pool off,
       dart_buddy_alloc (dart_localpool st) nbytes = (pool, off) →
       off = BUDDY_EXHAUSTED →
       pool = dart_localpool st
       ∧ ∃ gptr, dart_memalloc st nbytes = (DART_ERR_OTHER, gptr, st)).
Proof.
  intros Hlevel. unfold dart_memalloc, dart_buddy_alloc.
  destruct (buddy_alloc_node (buddy_level (dart_localpool st))
              (buddy_class nbytes) (buddy_tree (dart_localpool st)) 0)
    as [[t o]|] eqn:Halloc.
  - pose proof (buddy_offset_not_exhausted _ _ _ _ Hlevel Halloc) as Ho.
    assert (to_size_t o = o) as Hsmall.
    { unfold to_size_t. apply Z.mod_small. lia. }
    assert (o ≠ to_size_t (-1)) as Hne.
    { change (to_size_t (-1)) with (2 ^ 64 - 1). lia. }
    split; intros pool off Heq Hoff; injection Heq as <- <-.
    + cbn [offset]. rewrite Hsmall. by rewrite decide_False.
    + unfold BUDDY_EXHAUSTED in Hoff. congruence.
  - split; intros pool off Heq Hoff; injection Heq as <- <-; [done|].
    split; [done|]. rewrite set_localpool_same.
    cbn [offset]. rewrite decide_True by done. by eexists.
Qed.

(** Two allocations of four bytes from the pool of sixteen are buddies. *)
Example memalloc_twice :
  let '(_, first, st) := dart_memalloc example_state 4 in
  let '(_, second, _) := dart_memalloc st 4 in
  (offset first, offset second) = (0, 4).
Proof. reflexivity. Qed.

Lemma dart_gptr_getaddr_local_iff_witness :
  dart_gptr_getaddr false example_state (Gptr 1 3 0 16)
  = (DART_OK, Some 8208)
  ∧ dart_gptr_getaddr true example_state (Gptr 2 3 0 16)
    = (DART_OK, Some NULL).
Proof.
  split.
  - destruct (dart_gptr_getaddr_local_iff false example_state
                (Gptr 1 3 0 16) 8192) as (addr & Hrun & Hown & _).
    + reflexivity.
    + rewrite Hrun, Hown; reflexivity.
  - destruct (dart_gptr_getaddr_local_iff true example_state
                (Gptr 2 3 0 16) 900) as (addr & Hrun & _ & Hother & _).
    + reflexivity.
    + rewrite Hrun, Hother; [reflexivity|]. simpl. lia.
Defined.

Lemma dart_gptr_getaddr_unresolved_witness :
  dart_gptr_getaddr false example_state (Gptr 1 5 0 16)
  = (DART_ERR_INVAL, None).
Proof.
  apply (dart_gptr_getaddr_unresolved false example_state (Gptr 1 5 0 16)).
  - reflexivity.
  - simpl. lia.
  - reflexivity.
Defined.

Lemma dart_memalloc_result_witness :
  dart_memalloc example_state 4
  = (DART_OK, Gptr 1 0 0 0,
     set_localpool example_state
       (Buddy 4 (Split (Split Used Unused) Unused)))
  ∧ ∃ gptr,
      dart_memalloc (set_localpool example_state (Buddy 2 Used)) 4
      = (DART_ERR_OTHER, gptr, set_localpool example_state (Buddy 2 Used)).
Proof.
  split.
  - destruct (dart_memalloc_result example_state 4) as [Hfound _].
    + simpl. lia.
    + apply Hfound; [reflexivity|]. vm_compute. lia.
  - destruct (dart_memalloc_result
                (set_localpool example_state (Buddy 2 Used)) 4)
      as [_ Hnone].
    + simpl. lia.
    + destruct (Hnone (Buddy 2 Used) BUDDY_EXHAUSTED) as [_ Hrun];
        [reflexivity|reflexivity|exact Hrun].
Defined.

End Globmem.

Module TeamGroup.

Section TeamCreate.

(** [dart_team_t] is a signed integer type of [dart_types.h], which is not
    part of the sources at hand: its largest value and [DART_TEAM_NULL]
    are parameters. *)
Variable DART_TEAM_MAX : Z.
Variable DART_TEAM_NULL : Z.

(** *** Groups and the team registry *)

Record dart_group_struct : Type := Group {
  nmem : Z;
  l2g : list Z;
  g2l : list Z
}.

(** Modelled from the spec: [dart_group_getmembers] and [dart_group_size]
    ([dart_group.c] is not part of the sources at hand) read the group's
    [nmem] global ranks [l2g[0..nmem)]. *)
Definition dart_group_getmembers (group : dart_group_struct) : list Z :=
  take (Z.to_nat (nmem group)) (l2g group).

(** Modelled from the spec: [dart_group_ismember], a unit is a member when
    it is one of the group's global ranks. *)
Definition dart_group_ismember (group : dart_group_struct) (unit : Z) : bool :=
  bool_decide (unit ∈ dart_group_getmembers group).

(** A slot of [dart_teams]: the team bound to it, if any, the transport
    group handle [id] and the group descriptor. *)
Record dart_team_struct : Type := Team {
  team_bound : option Z;
  id : Z;
  group : dart_group_struct
}.

(** Modelled from the spec: [dart_adapt_teamlist_convert]
    ([dart_team_private.c] is not part of the sources at hand) finds the
    slot a team id is bound to, or reports [-1], here [None]. *)
Definition dart_adapt_teamlist_convert (teams : list dart_team_struct)
    (teamid : Z) : option nat :=
  fst <$> list_find (λ slot, team_bound slot = Some teamid) teams.

(** Modelled from the spec: [dart_adapt_teamlist_alloc] binds the team id
    to a free slot of the fixed-capacity table, or reports [-1], here
    [None], when the table is full. *)
Definition dart_adapt_teamlist_alloc (teams : list dart_team_struct)
    (teamid : Z) : option (nat * list dart_team_struct) :=
  '(index, slot) ← list_find (λ slot, team_bound slot = None) teams;
  Some (index, <[index := Team (Some teamid) (id slot) (group slot)]> teams).

(** The process-wide variables [dart_team_create] works on. *)
Record dart_state : Type := State {
  dart_next_availteamid : Z;
  gaspi_group_id_top : Z;
  dart_teams : list dart_team_struct
}.

(** *** The transport, as it answers during one call *)

(** What the other units and the GASPI library contribute to one call of
    [dart_team_create]: the rank of the caller, the counters the other
    members of the parent team hand to the two allreduces, and the return
    codes and results of the library calls in the order they are made. *)
Record gaspi_env : Type := Env {
  gaspi_proc_rank : Z;
  gaspi_proc_num_ret : dart_ret_t;
  peer_next_availteamid : list Z;
  allreduce_teamid_ret : dart_ret_t;
  peer_group_id_top : list Z;
  allreduce_group_ret : dart_ret_t;
  group_create_replies : list (dart_ret_t * Z);
  group_add_ret : Z → dart_ret_t;
  group_commit_ret : dart_ret_t
}.

(** An allreduce with [MAX] over the caller's value and its peers'. *)
Definition allreduce_max (own : Z) (peers : list Z) : Z :=
  foldr Z.max own peers.

(** The loop [while (new_gaspi_group <= gaspi_group_max)] around
    [gaspi_group_create]: an error code, the group id it ends with, or
    [None] when the library's replies never exceed the maximum. *)
Fixpoint group_create_loop (replies : list (dart_ret_t * Z))
    (new_gaspi_group gaspi_group_max : Z) : option (dart_ret_t + Z) :=
  match replies with
  | [] =>
      if decide (new_gaspi_group ≤ gaspi_group_max) then None
      else Some (inr new_gaspi_group)
  | (ret, created) :: replies' =>
      if decide (new_gaspi_group ≤ gaspi_group_max) then
        if decide (ret = DART_OK)
        then group_create_loop replies' created gaspi_group_max
        else Some (inl ret)
      else Some (inr new_gaspi_group)
  end.

(** The loop over the members around [gaspi_group_add]: the first code
    that is not [DART_OK], if any. *)
Fixpoint group_add_loop (add_ret : Z → dart_ret_t) (group_members : list Z)
    : option dart_ret_t :=
  match group_members with
  | [] => None
  | member :: rest =>
      if decide (add_ret member = DART_OK) then group_add_loop add_ret rest
      else Some (add_ret member)
  end.

(** A state and a transport to evaluate on: unit 0 of four, whose counter
    is 1 while the peers' are 2, 1 and 2; the universal team 0 sits in
    slot 0 of a registry of three slots; the library hands out group 1. *)
Definition example_state : dart_state :=
  State 1 0
        [Team (Some 0) 0 (Group 4 [0; 1; 2; 3] [0; 1; 2; 3]);
         Team None 0 (Group 0 [] []);
         Team None 0 (Group 0 [] [])].

Definition example_env : gaspi_env :=
  Env 0 DART_OK [2; 1; 2] DART_OK [0; 0; 0] DART_OK [(DART_OK, 1)]
      (λ _, DART_OK) DART_OK.

(** *** [dart_team_create] *)

Definition set_next_availteamid (st : dart_state) (next : Z) : dart_state :=
  State next (gaspi_group_id_top st) (dart_teams st).

Definition set_group_id_top (st : dart_state) (top : Z) : dart_state :=
  State (dart_next_availteamid st) top (dart_teams st).

Definition set_teams (st : dart_state) (teams : list dart_team_struct)
    : dart_state :=
  State (dart_next_availteamid st) (gaspi_group_id_top st) teams.

(** The part of [dart_team_create] only a member of the new group runs,
    from the assignment of [DART_TEAM_NULL] on. *)
Definition team_create_member (env : gaspi_env) (st : dart_state)
    (new_group : dart_group_struct) (max_teamid gaspi_group_max : Z)
    : option (dart_ret_t * dart_state * option Z) :=
  let group_members := dart_group_getmembers new_group in
  match group_create_loop (group_create_replies env) 0 gaspi_group_max with
  | None => None
  | Some (inl err) => Some (err, st, Some DART_TEAM_NULL)
  | Some (inr new_gaspi_group) =>
      let st := set_group_id_top st new_gaspi_group in
      match group_add_loop (group_add_ret env) group_members with
      | Some err => Some (err, st, Some DART_TEAM_NULL)
      | None =>
          if decide (group_commit_ret env = DART_OK) then
            match dart_adapt_teamlist_alloc (dart_teams st) max_teamid with
            | None => Some (DART_ERR_OTHER, st, Some DART_TEAM_NULL)
            | Some (index, teams) =>
                let teams :=
                  <[index := Team (Some max_teamid) new_gaspi_group
                                  new_group]> teams in
                Some (DART_OK, set_teams st teams, Some max_teamid)
            end
          else Some (group_commit_ret env, st, Some DART_TEAM_NULL)
      end
  end.

(** Returns the code, the state and the value stored through [newteam],
    [None] when nothing is stored. The whole result is [None] when the
    increment of the counter overflows or the group loop does not end.
    [DART_CHECK_ERROR] ([gaspi_utils.h]) is modelled from the spec: a
    failure is reported to the caller unchanged. *)
Definition dart_team_create (env : gaspi_env) (st : dart_state)
    (teamid : Z) (new_group : dart_group_struct)
    : option (dart_ret_t * dart_state * option Z) :=
  let myid := gaspi_proc_rank env in
  if decide (gaspi_proc_num_ret env = DART_OK) then
    match dart_adapt_teamlist_convert (dart_teams st) teamid with
    | None => Some (DART_ERR_INVAL, st, None)
    | Some index =>
        if decide (allreduce_teamid_ret env = DART_OK) then
          let max_teamid :=
            allreduce_max (dart_next_availteamid st)
                          (peer_next_availteamid env) in
          if decide (max_teamid = DART_TEAM_MAX) then None
          else
            let st := set_next_availteamid st (max_teamid + 1) in
            if decide (allreduce_group_ret env = DART_OK) then
              let gaspi_group_max :=
                allreduce_max (gaspi_group_id_top st)
                              (peer_group_id_top env) in
              if dart_group_ismember new_group myid
              then team_create_member env st new_group max_teamid
                                      gaspi_group_max
              else Some (DART_OK, st, None)
            else Some (allreduce_group_ret env, st, None)
        else Some (allreduce_teamid_ret env, st, None)
    end
  else Some (gaspi_proc_num_ret env, st, None).

(** **** Proofs *)

Lemma allreduce_max_ge_own (own : Z) (peers : list Z) :
  own ≤ allreduce_max own peers.
Proof.
  unfold allreduce_max. induction peers as [|p peers IH]; simpl; lia.
Qed.

(** [allreduce_max] is the greatest of the values handed in. *)
Lemma allreduce_max_is_max (own : Z) (peers : list Z) :
  Forall (λ v, v ≤ allreduce_max own peers) (own :: peers)
  ∧ allreduce_max own peers ∈ own :: peers.
Proof.
  unfold allreduce_max. induction peers as [|p peers [Hall Hin]]; simpl.
  - split; [by repeat constructor|by left].
  - apply Forall_cons in Hall as [Hown Hall]. split.
    + repeat apply Forall_cons_2; [lia|lia|].
      eapply Forall_impl; [exact Hall|]. simpl. intros v Hv. lia.
    + destruct (Z.max_spec p (foldr Z.max own peers))
        as [[_ ->]|[_ ->]].
      * apply elem_of_cons in Hin as [->|Hin]; [by left|].
        right. by right.
      * right. by left.
Qed.

(** The member's part leaves the counter alone and returns [DART_OK] only
    together with the team id it was given. *)
Lemma team_create_member_result (env : gaspi_env) (st : dart_state)
    (new_group : dart_group_struct) (max_teamid gaspi_group_max : Z)
    (ret : dart_ret_t) (st' : dart_state) (newteam : option Z) :
  team_create_member env st new_group max_teamid gaspi_group_max
  = Some (ret, st', newteam) →
  dart_next_availteamid st' = dart_next_availteamid st
  ∧ (ret = DART_OK → newteam = Some max_teamid).
Proof.
  unfold team_create_member. intros Hrun.
  destruct (group_create_loop _ _ _) as [[err|new_gaspi_group]|] eqn:Hloop;
    [| |done].
  - inversion Hrun; subst. split; [done|]. intros ->.
    exfalso. clear Hrun. revert Hloop.
    generalize 0. induction (group_create_replies env) as [|[r g] rs IH];
      intros new; simpl.
    + by destruct (decide (new ≤ gaspi_group_max)).
    + destruct (decide (new ≤ gaspi_group_max)); [|done].
      destruct (decide (r = DART_OK)); [apply IH|congruence].
  - destruct (group_add_loop _ _) as [err|] eqn:Hadd.
    { inversion Hrun; subst. split; [done|]. intros ->.
      exfalso. clear Hrun. revert Hadd.
      induction (dart_group_getmembers new_group) as [|m ms IH]; simpl;
        [done|].
      destruct (decide (group_add_ret env m = DART_OK)); [done|congruence]. }
    destruct (decide (group_commit_ret env = DART_OK)) as [Hcommit|Hcommit].
    + destruct (dart_adapt_teamlist_alloc _ _) as [[index teams]|].
      * inversion Hrun; subst. by split.
      * inversion Hrun; subst. by split.
    + inversion Hrun; subst. split; [done|]. intros Hok. congruence.
Qed.

Lemma team_create_member_returns (env : gaspi_env) (st : dart_state)
    (new_group : dart_group_struct) (max_teamid gaspi_group_max : Z) :
  is_Some (group_create_loop (group_create_replies env) 0 gaspi_group_max) →
  is_Some (team_create_member env st new_group max_teamid gaspi_group_max).
Proof.
  intros [res Hloop]. unfold team_create_member. rewrite Hloop.
  destruct res as [err|new_gaspi_group]; [by eexists|].
  destruct (group_add_loop _ _); [by eexists|].
  destruct (decide _); [|by eexists].
  destruct (dart_adapt_teamlist_alloc _ _) as [[index teams]|]; by eexists.
Qed.

(** C6, amended. On a parent team, when [dart_size] and the allreduce of
    the counters return [DART_OK] and the increment does not overflow,
    every call of [dart_team_create] (by a member of the new group or not,
    successful or not later on) returns with the caller's
    [dart_next_availteamid] at the allreduce-MAX of the parent members'
    counters plus one, which is greater than its value before the call.
    For a member the group loop is assumed to end. *)
Theorem dart_team_create_next_availteamid (env : gaspi_env)
    (st : dart_state) (teamid : Z) (new_group : dart_group_struct) :
  let max_teamid :=
    allreduce_max (dart_next_availteamid st) (peer_next_availteamid env) in
  is_Some (dart_adapt_teamlist_convert (dart_teams st) teamid) →
  gaspi_proc_num_ret env = DART_OK →
  allreduce_teamid_ret env = DART_OK →
  max_teamid ≠ DART_TEAM_MAX →
  (dart_group_ismember new_group (gaspi_proc_rank env) = true →
   allreduce_group_ret env = DART_OK →
   is_Some (group_create_loop (group_create_replies env) 0
              (allreduce_max (gaspi_group_id_top st)
                             (peer_group_id_top env)))) →
  ∃ ret st' newteam,
    dart_team_create env st teamid new_group = Some (ret, st', newteam)
    ∧ dart_next_availteamid st' = max_teamid + 1
    ∧ dart_next_availteamid st < dart_next_availteamid st'.
Proof.
  intros max_teamid [index Hindex] Hnum Hreduce Hmax Hloop.
  pose proof (allreduce_max_ge_own (dart_next_availteamid st)
                (peer_next_availteamid env)) as Hge.
  fold max_teamid in Hge.
  unfold dart_team_create. rewrite Hindex.
  rewrite !decide_True by done. fold max_teamid.
  rewrite decide_False by done.
  destruct (decide (allreduce_group_ret env = DART_OK)) as [Hgroup|Hgroup].
  - destruct (dart_group_ismember new_group (gaspi_proc_rank env))
      eqn:Hmember.
    + destruct (team_create_member_returns env
                  (set_next_availteamid st (max_teamid + 1)) new_group
                  max_teamid
                  (allreduce_max (gaspi_group_id_top st)
                                 (peer_group_id_top env)))
        as [[[ret st'] newteam] Hrun]; [by apply Hloop|].
      cbn [set_next_availteamid gaspi_group_id_top] in *.
      exists ret, st', newteam. split; [exact Hrun|].
      apply team_create_member_result in Hrun as [-> _].
      unfold set_next_availteamid. simpl. lia.
    + eexists _, _, _. split; [reflexivity|].
      unfold set_next_availteamid. simpl. lia.
  - eexists _, _, _. split; [reflexivity|].
    unfold set_next_availteamid. simpl. lia.
Qed.

(** C1, amended. For a caller that is a member of the new group, a call of
    [dart_team_create] that returns [DART_OK] has stored the allreduce-MAX
    of the parent members' counters itself as the new team id, and left
    that value plus one in [dart_next_availteamid]; and the call does
    return [DART_OK] when the parent team resolves, the library calls
    succeed, the counter does not overflow and the registry has a free
    slot. *)
Theorem dart_team_create_newteam (env : gaspi_env) (st : dart_state)
    (teamid : Z) (new_group : dart_group_struct) :
  let max_teamid :=
    allreduce_max (dart_next_availteamid st) (peer_next_availteamid env) in
  let gaspi_group_max :=
    allreduce_max (gaspi_group_id_top st) (peer_group_id_top env) in
  dart_group_ismember new_group (gaspi_proc_rank env) = true →
  (∀ st' newteam,
     dart_team_create env st teamid new_group
     = Some (DART_OK, st', newteam) →
     newteam = Some max_teamid
     ∧ dart_next_availteamid st' = max_teamid + 1)
  ∧ (∀ new_gaspi_group,
       is_Some (dart_adapt_teamlist_convert (dart_teams st) teamid) →
       gaspi_proc_num_ret env = DART_OK →
       allreduce_teamid_ret env = DART_OK →
       max_teamid ≠ DART_TEAM_MAX →
       allreduce_group_ret env = DART_OK →
       group_create_loop (group_create_replies env) 0 gaspi_group_max
       = Some (inr new_gaspi_group) →
       group_add_loop (group_add_ret env) (dart_group_getmembers new_group)
       = None →
       group_commit_ret env = DART_OK →
       is_Some (dart_adapt_teamlist_alloc (dart_teams st) max_teamid) →
       ∃ st',
         dart_team_create env st teamid new_group
         = Some (DART_OK, st', Some max_teamid)).
Proof.
  intros max_teamid gaspi_group_max Hmember. split.
  - intros st' newteam. unfold dart_team_create. rewrite Hmember.
    fold max_teamid gaspi_group_max.
    destruct (decide (gaspi_proc_num_ret env = DART_OK)); [|congruence].
    destruct (dart_adapt_teamlist_convert _ _); [|done].
    destruct (decide (allreduce_teamid_ret env = DART_OK)); [|congruence].
    destruct (decide (max_teamid = DART_TEAM_MAX)); [done|].
    destruct (decide (allreduce_group_ret env = DART_OK)); [|congruence].
    intros Hrun. apply team_create_member_result in Hrun as [Hnext Hteam].
    split; [by apply Hteam|]. by rewrite Hnext.
  - intros new_gaspi_group [index Hindex] Hnum Hreduce Hmax Hgroup Hloop
      Hadd Hcommit [[slot teams] Halloc].
    unfold dart_team_create. rewrite Hindex, Hmember.
    fold max_teamid.
    destruct (decide (gaspi_proc_num_ret env = DART_OK)); [|done].
    destruct (decide (allreduce_teamid_ret env = DART_OK)); [|done].
    destruct (decide (max_teamid = DART_TEAM_MAX)); [done|].
    destruct (decide (allreduce_group_ret env = DART_OK)); [|done].
    unfold team_create_member.
    change (gaspi_group_id_top (set_next_availteamid st (max_teamid + 1)))
      with (gaspi_group_id_top st).
    fold gaspi_group_max. rewrite Hloop, Hadd.
    change (dart_teams (set_group_id_top _ _)) with (dart_teams st).
    rewrite Halloc.
    destruct (decide (group_commit_ret env = DART_OK)); [|done].
    eexists. reflexivity.
Qed.

End TeamCreate.

(** A unit outside the new group takes part in both allreduces and
    returns without a team id. *)
Example team_create_non_member :
  dart_team_create (2 ^ 31 - 1) (-1) example_env example_state 0
                   (Group 2 [1; 3] [-1; 0; -1; 1])
  = Some (DART_OK, set_next_availteamid example_state 3, None).
Proof. reflexivity. Qed.

(** A failing first allreduce is reported before the counter is
    touched. *)
Example team_create_allreduce_fails :
  dart_team_create (2 ^ 31 - 1) (-1)
    (Env 0 DART_OK [2; 1; 2] DART_ERR_OTHER [0; 0; 0] DART_OK
         [(DART_OK, 1)] (λ _, DART_OK) DART_OK)
    example_state 0 (Group 2 [0; 2] [0; -1; 1; -1])
  = Some (DART_ERR_OTHER, example_state, None).
Proof. reflexivity. Qed.

(** C6 as the specification states it, for every call, fails: when the
    allreduce of the counters answers an error, the call on the parent
    team 0 returns that error with the counter still at 1, while the
    parent counters are 1, 2, 1 and 2 and their maximum plus one is 3. *)
Lemma dart_team_create_next_availteamid_early_return :
  ∃ ret st' newteam,
    dart_team_create (2 ^ 31 - 1) (-1)
      (Env 0 DART_OK [2; 1; 2] DART_ERR_OTHER [0; 0; 0] DART_OK
           [(DART_OK, 1)] (λ _, DART_OK) DART_OK)
      example_state 0 (Group 2 [0; 2] [0; -1; 1; -1])
    = Some (ret, st', newteam)
    ∧ dart_next_availteamid st'
      ≠ allreduce_max (dart_next_availteamid example_state) [2; 1; 2] + 1
    ∧ ¬ dart_next_availteamid example_state < dart_next_availteamid st'.
Proof.
  eexists _, _, _. split; [reflexivity|]. vm_compute.
  split; [discriminate|]. intros Hlt. discriminate Hlt.
Qed.

Lemma dart_team_create_next_availteamid_witness :
  ∃ ret st' newteam,
    dart_team_create (2 ^ 31 - 1) (-1) example_env example_state 0
                     (Group 2 [1; 3] [-1; 0; -1; 1])
    = Some (ret, st', newteam)
    ∧ dart_next_availteamid st' = 3
    ∧ dart_next_availteamid example_state < dart_next_availteamid st'.
Proof.
  apply (dart_team_create_next_availteamid (2 ^ 31 - 1) (-1) example_env
           example_state 0 (Group 2 [1; 3] [-1; 0; -1; 1])).
  - by eexists.
  - reflexivity.
  - reflexivity.
  - vm_compute. lia.
  - intros Hmember. vm_compute in Hmember. discriminate.
Defined.

Lemma dart_team_create_newteam_witness :
  ∃ st',
    dart_team_create (2 ^ 31 - 1) (-1) example_env example_state 0
                     (Group 2 [0; 2] [0; -1; 1; -1])
    = Some (DART_OK, st', Some 2).
Proof.
  destruct (dart_team_create_newteam (2 ^ 31 - 1) (-1) example_env
              example_state 0 (Group 2 [0; 2] [0; -1; 1; -1]))
    as [_ Hruns]; [reflexivity|].
  apply (Hruns 1).
  - by eexists.
  - reflexivity.
  - reflexivity.
  - vm_compute. lia.
  - reflexivity.
  - reflexivity.
  - reflexivity.
  - reflexivity.
  - by eexists.
Defined.

(** C1 as the specification states it, with the new id one above the
    allreduce-MAX, fails: the parent counters are 1, 2, 1 and 2, the
    caller is a member of the new group, and the id stored is 2. *)
Lemma dart_team_create_newteam_not_incremented :
  ∃ st',
    dart_group_ismember (Group 2 [0; 2] [0; -1; 1; -1])
                        (gaspi_proc_rank example_env) = true
    ∧ dart_team_create (2 ^ 31 - 1) (-1) example_env example_state 0
                       (Group 2 [0; 2] [0; -1; 1; -1])
      = Some (DART_OK, st', Some 2)
    ∧ 2 ≠ allreduce_max (dart_next_availteamid example_state)
                        (peer_next_availteamid example_env) + 1.
Proof.
  eexists. split; [reflexivity|]. split; [reflexivity|].
  vm_compute. lia.
Qed.

End TeamGroup.

Module Pmem.

Section Allocator.

(** The element types the template is instantiated at, with their
    [sizeof]. *)
Context {ElementType : Type} `{!EqDecision ElementType}.
Variable sizeof : ElementType → Z.

(** The members of [PersistentMemoryAllocator<ElementType>] that the
    comparisons read, and the element type of the instance. *)
Record PersistentMemoryAllocator : Type := Allocator {
  value_type : ElementType;
  _team_id : Z;
  _nunits : Z;
  _poolId : string
}.

(** The member [operator==(const self_t &)]. *)
Definition member_operator_eq (lhs rhs : PersistentMemoryAllocator) : bool :=
  bool_decide (_team_id lhs = _team_id rhs).

(** The namespace-scope template [operator==], for operands of element
    types [T] and [U]. *)
Definition template_operator_eq (lhs rhs : PersistentMemoryAllocator) : bool :=
  bool_decide (sizeof (value_type lhs) = sizeof (value_type rhs))
  && bool_decide (_team_id lhs = _team_id rhs)
  && bool_decide (_poolId lhs = _poolId rhs)
  && bool_decide (_nunits lhs = _nunits rhs).

(** The expression [lhs == rhs]. Both functions are viable when the
    operands have the same element type, with the same conversions, and
    overload resolution then prefers the member, which is not a template
    specialization; for different element types only the template is
    viable. *)
Definition operator_eq (lhs rhs : PersistentMemoryAllocator) : bool :=
  if decide (value_type lhs = value_type rhs)
  then member_operator_eq lhs rhs
  else template_operator_eq lhs rhs.

(** **** Proofs *)

(** What [==] decides for two instances of one element type. *)
Lemma operator_eq_same_type (lhs rhs : PersistentMemoryAllocator) :
  value_type lhs = value_type rhs →
  (operator_eq lhs rhs = true ↔ _team_id lhs = _team_id rhs).
Proof.
  intros Htype. unfold operator_eq, member_operator_eq.
  rewrite decide_True by exact Htype. apply bool_decide_eq_true.
Qed.

(** The template compares what the specification lists. *)
Lemma template_operator_eq_same_type (lhs rhs : PersistentMemoryAllocator) :
  value_type lhs = value_type rhs →
  (template_operator_eq lhs rhs = true
   ↔ _team_id lhs = _team_id rhs ∧ _poolId lhs = _poolId rhs
     ∧ _nunits lhs = _nunits rhs).
Proof.
  intros Htype. unfold template_operator_eq. rewrite Htype.
  rewrite !andb_true_iff, !bool_decide_eq_true.
  split; [intros [[[_ ?] ?] ?]|intros (? & ? & ?)]; repeat split; assumption.
Qed.

End Allocator.

(** C7 fails on the code: two allocators of one element type on team 0,
    over the pools [a.pmem] and [b.pmem], compare equal with [==]; the
    template, the comparison the claim describes, tells them apart. *)
Lemma operator_eq_ignores_pool_id :
  let lhs := Allocator tt 0 4 "a.pmem" in
  let rhs := Allocator tt 0 4 "b.pmem" in
  operator_eq (λ _ : unit, 4) lhs rhs = true
  ∧ _poolId lhs ≠ _poolId rhs
  ∧ template_operator_eq (λ _ : unit, 4) lhs rhs = false.
Proof. by repeat split. Qed.

End Pmem.

(** ** More of [Merge.h]: the stages of the pipeline together, the tasks
    behind the futures, and the merge functions *)

Module SortPipeline.

Import Merge.

Section Pipeline.

Variable DART_UNDEFINED_UNIT_ID : Z.
Variable dart_handle_t : Type.
Variable DART_HANDLE_NULL : dart_handle_t.
Variable user_task : Type.

(** *** The request of one iteration of [psort__exchange_data] *)

(** What the loop body hands to [dash::internal::get_handle] for [unit]:
    the source is the iterator itself for the unit at the begin of the
    range and the start of the unit's slice otherwise, moved by [src_disp];
    the destination is [to_local_begin + target_disp]. *)
Definition exchange_request (get_send_info : Z → Z * Z * Z)
    (from_global_begin : GlobIterT) (to_local_begin unit : Z) : get_request :=
  let unit_at_begin :=
    pattern_unit_at from_global_begin (pos from_global_begin) in
  let '(target_count, src_disp, target_disp) := get_send_info unit in
  let it_src :=
    if decide (unit = unit_at_begin) then pos from_global_begin
    else pattern_global_index from_global_begin unit in
  GetRequest (it_src + src_disp) to_local_begin target_disp target_count.

(** *** [merge] and [merge_inplace_and_copy] *)

(** [std::merge] with the comparison [cmp]: an element of the second range
    goes first only when it is less than the head of the first. *)
Fixpoint std_merge {A} (cmp : A → A → bool) (left : list A)
    : list A → list A :=
  fix from_right (right : list A) : list A :=
    match left, right with
    | [], _ => right
    | _, [] => left
    | x :: left', y :: right' =>
        if cmp y x then y :: from_right right'
        else x :: std_merge cmp left' right
    end.

(** [std::inplace_merge]: the same sequence, left in the range itself. *)
Definition std_inplace_merge {A} (cmp : A → A → bool) (left right : list A)
    : list A :=
  std_merge cmp left right.

(** [merge], which returns nothing: the sequence written to [out]. *)
Definition merge {A} (cmp : A → A → bool) (left right : list A) : list A :=
  std_merge cmp left right.

(** What a call of [merge_inplace_and_copy] leaves behind: the range
    [[first, last)], what was written to [out] if anything, and the number
    of calls of [barrier]. *)
Record merge_effect (A : Type) : Type := MergeEffect {
  working_range : list A;
  written_to_out : option (list A);
  barrier_calls : nat
}.
Global Arguments MergeEffect {A} _ _ _.
Global Arguments working_range {A} _.
Global Arguments written_to_out {A} _.
Global Arguments barrier_calls {A} _.

(** [left] is [[first, mid)], [right] is [[mid, last)]. *)
Definition merge_inplace_and_copy {A} (cmp : A → A → bool)
    (left right : list A) (is_final_merge : bool) : merge_effect A :=
  if is_final_merge
  then MergeEffect (left ++ right) (Some (std_merge cmp left right)) 1
  else MergeEffect (std_inplace_merge cmp left right) None 0.

(** The sequence a call produces, wherever it lands. *)
Definition merged_sequence {A} (e : merge_effect A) : list A :=
  default (working_range e) (written_to_out e).

(** *** Merge tasks and what they wait on *)

(** The task at position [i] of the pool, when it is a merge, finds both
    futures it waits on in the map, and both belong to tasks submitted
    before it; its range is split into two parts that are not empty. *)
Definition waits_on_earlier (pool : list (task dart_handle_t user_task))
    (chunk_dependencies : gmap (Z * Z) future) (i : nat) : Prop :=
  match pool !! i with
  | Some (MergeTask _ _ f mi l _ _ _) =>
      f < mi < l
      ∧ ∃ left right : nat,
          chunk_dependencies !! (f, mi) = Some left
          ∧ chunk_dependencies !! (mi, l) = Some right
          ∧ (left < i)%nat ∧ (right < i)%nat
  | _ => True
  end.

(** **** [psort__remote_partitions] *)

Lemma erase_undefined_app (units1 units2 : list Z) :
  erase_undefined DART_UNDEFINED_UNIT_ID (units1 ++ units2)
  = erase_undefined DART_UNDEFINED_UNIT_ID units1
    ++ erase_undefined DART_UNDEFINED_UNIT_ID units2.
Proof. unfold erase_undefined. apply filter_app. Qed.

Lemma remote_partitions_runs
    (valid_splitters target_counts : list Z) (nunits unit_at_begin whoami : Z) :
  DART_UNDEFINED_UNIT_ID < 0 →
  Forall (λ c, 0 ≤ c) target_counts →
  Z.of_nat (length target_counts) ≤ 2 ^ 31 →
  0 ≤ unit_at_begin < Z.of_nat (length target_counts) →
  Forall (λ s, 0 ≤ s ∧ s + 1 < Z.of_nat (length target_counts))
         valid_splitters →
  psort__remote_partitions DART_UNDEFINED_UNIT_ID valid_splitters
                           target_counts nunits unit_at_begin whoami
  = Some (remote_partitions_spec valid_splitters target_counts
                                 unit_at_begin whoami).
Proof.
  intros Hundef Hpos Hlen Hbegin Hall.
  unfold psort__remote_partitions, remote_partitions_spec.
  destruct (vec_at_is_Some target_counts unit_at_begin) as [count Hcount];
    [lia|].
  rewrite Hcount. simpl.
  rewrite vec_at_lookup in Hcount by lia.
  rewrite (source_test_is_spec_test _ _ _ _ Hpos) by (done || lia).
  rewrite transform_back_acc.
  rewrite (transform_back_marks DART_UNDEFINED_UNIT_ID) by done. simpl.
  f_equal. rewrite erase_undefined_app.
  rewrite (erase_undefined_marks _ _ _ _ Hundef Hall).
  f_equal. unfold erase_undefined.
  destruct (has_remote_data target_counts whoami unit_at_begin); [|done].
  rewrite filter_cons, decide_True by lia. done.
Qed.

Lemma has_remote_data_true (target_counts : list Z) (whoami r : Z) :
  0 ≤ r →
  has_remote_data target_counts whoami r = true →
  r ≠ whoami ∧ ∃ count, vec_at target_counts r = Some count ∧ 0 < count.
Proof.
  intros Hr Htest. unfold has_remote_data in Htest.
  apply andb_true_iff in Htest as [Hcount Hself].
  apply bool_decide_eq_true in Hcount, Hself. split; [done|].
  rewrite vec_at_lookup by done.
  destruct (target_counts !! Z.to_nat r) as [count|]; simpl in Hcount;
    [by exists count|lia].
Qed.

(** The list of the specification is well formed. *)
Lemma remote_partitions_spec_wf
    (valid_splitters target_counts : list Z) (unit_at_begin whoami : Z) :
  0 ≤ unit_at_begin < Z.of_nat (length target_counts) →
  Forall (λ s, 0 ≤ s ∧ s + 1 < Z.of_nat (length target_counts))
         valid_splitters →
  let remote_partitions :=
    remote_partitions_spec valid_splitters target_counts unit_at_begin
                           whoami in
  (whoami ∉ remote_partitions)
  ∧ Forall (λ u, (0 ≤ u < Z.of_nat (length target_counts))
                 ∧ ∃ count, vec_at target_counts u = Some count
                            ∧ 0 < count) remote_partitions
  ∧ (NoDup valid_splitters →
     unit_at_begin - 1 ∉ valid_splitters →
     NoDup remote_partitions).
Proof.
  intros Hbegin Hall. cbn zeta. unfold remote_partitions_spec.
  assert (∀ r, r ∈ filter (λ r, has_remote_data target_counts whoami r = true)
                          ((λ s, s + 1) <$> valid_splitters) →
               (0 ≤ r < Z.of_nat (length target_counts))
               ∧ has_remote_data target_counts whoami r = true) as Hright.
  { intros r Hr. apply list_elem_of_filter in Hr as [Htest Hr].
    apply list_elem_of_fmap in Hr as (s & -> & Hs).
    rewrite Forall_forall in Hall. specialize (Hall s Hs). split; [lia|done]. }
  split; [|split].
  - intros Hin. apply elem_of_app in Hin as [Hin|Hin].
    + destruct (has_remote_data target_counts whoami unit_at_begin) eqn:Htest;
        [|by apply elem_of_nil in Hin].
      apply list_elem_of_singleton in Hin as <-.
      apply has_remote_data_true in Htest as [Hne _]; [done|lia].
    + apply Hright in Hin as [Hrange Htest].
      apply has_remote_data_true in Htest as [Hne _]; [done|lia].
  - apply Forall_app. split.
    + destruct (has_remote_data target_counts whoami unit_at_begin) eqn:Htest;
        [|by apply Forall_nil].
      apply Forall_singleton. split; [lia|].
      apply has_remote_data_true in Htest as [_ Hcount]; [done|lia].
    + apply Forall_forall. intros r Hr.
      apply Hright in Hr as [Hrange Htest]. split; [done|].
      apply has_remote_data_true in Htest as [_ Hcount]; [done|lia].
  - intros Hnd Hfirst. apply NoDup_app. split; [|split].
    + destruct (has_remote_data target_counts whoami unit_at_begin);
        [apply NoDup_singleton|apply NoDup_nil_2].
    + intros r Hr Hin.
      destruct (has_remote_data target_counts whoami unit_at_begin);
        [|by apply elem_of_nil in Hr].
      apply list_elem_of_singleton in Hr as ->.
      apply list_elem_of_filter in Hin as [_ Hin].
      apply list_elem_of_fmap in Hin as (s & Hs & Hin).
      apply Hfirst. by replace (unit_at_begin - 1) with s by lia.
    + apply NoDup_filter.
      assert (Inj eq eq (λ s : Z, s + 1)) as Hinj.
      { intros a b Hab. lia. }
      by apply (NoDup_fmap_2 _).
Qed.

(** X1. What [psort__remote_partitions] returns on in-range arguments
    never holds [whoami], and every unit in it indexes [target_counts] at a
    positive count; when the splitters are pairwise distinct and none of
    them has the unit at the begin as its right neighbour, the units are
    pairwise distinct too. *)
Theorem remote_partitions_output
    (valid_splitters target_counts : list Z) (nunits unit_at_begin whoami : Z) :
  DART_UNDEFINED_UNIT_ID < 0 →
  Forall (λ c, 0 ≤ c) target_counts →
  Z.of_nat (length target_counts) ≤ 2 ^ 31 →
  0 ≤ unit_at_begin < Z.of_nat (length target_counts) →
  Forall (λ s, 0 ≤ s ∧ s + 1 < Z.of_nat (length target_counts))
         valid_splitters →
  ∃ remote_partitions,
    psort__remote_partitions DART_UNDEFINED_UNIT_ID valid_splitters
                             target_counts nunits unit_at_begin whoami
    = Some remote_partitions
    ∧ (whoami ∉ remote_partitions)
    ∧ Forall (λ u, (0 ≤ u < Z.of_nat (length target_counts))
                   ∧ ∃ count, vec_at target_counts u = Some count
                              ∧ 0 < count) remote_partitions
    ∧ (NoDup valid_splitters →
       unit_at_begin - 1 ∉ valid_splitters →
       NoDup remote_partitions).
Proof.
  intros Hundef Hpos Hlen Hbegin Hall.
  eexists. split; [by apply remote_partitions_runs|].
  by apply remote_partitions_spec_wf.
Qed.

(** **** [psort__exchange_data] *)

Lemma exchange_loop_requests
    (transport : list get_request → get_request → dart_handle_t)
    (get_send_info : Z → Z * Z * Z) (it : GlobIterT) (to_local_begin : Z)
    (units : list Z) :
  ∀ (handles : list dart_handle_t) (issued : list get_request),
    Forall (λ u, 0 ≤ u < Z.of_nat (length handles)) units →
    ∃ handles',
      exchange_loop dart_handle_t transport get_send_info it to_local_begin
                    (pattern_unit_at it (pos it)) units handles issued
      = Some (handles',
              issued ++ (exchange_request get_send_info it to_local_begin
                           <$> units))
      ∧ length handles' = length handles
      ∧ (∀ u, 0 ≤ u → u ∉ units →
           handles' !! Z.to_nat u = handles !! Z.to_nat u)
      ∧ (NoDup units →
         ∀ (i : nat) (u : Z), units !! i = Some u →
           handles' !! Z.to_nat u
           = Some (transport
                     (issued ++ take i (exchange_request get_send_info it
                                          to_local_begin <$> units))
                     (exchange_request get_send_info it to_local_begin u))).
Proof.
  induction units as [|unit rest IH]; intros handles issued Hall.
  - exists handles. rewrite app_nil_r. by repeat split.
  - apply Forall_cons in Hall as [Hunit Hall]. cbn [exchange_loop].
    set (request := exchange_request get_send_info it to_local_begin unit).
    assert ((let '(target_count, src_disp, target_disp) :=
               get_send_info unit in
             GetRequest
               ((if decide (unit = pattern_unit_at it (pos it))
                 then pos it else pattern_global_index it unit) + src_disp)
               to_local_begin target_disp target_count) = request) as Hreq.
    { unfold request, exchange_request.
      by destruct (get_send_info unit) as [[? ?] ?]. }
    destruct (get_send_info unit) as [[target_count src_disp] target_disp].
    rewrite Hreq. rewrite vec_set_in_range by done.
    cbn [mbind option_bind].
    destruct (IH (<[Z.to_nat unit := transport issued request]> handles)
                 (issued ++ [request]))
      as (handles' & Hrun & Hlen & Hkeep & Hset).
    { by rewrite length_insert. }
    exists handles'. split; [|split; [|split]].
    + rewrite Hrun, fmap_cons. fold request. by rewrite <- app_assoc.
    + by rewrite Hlen, length_insert.
    + intros u Hu Hnotin. apply not_elem_of_cons in Hnotin as [Hne Hnotin].
      rewrite (Hkeep u Hu Hnotin). apply list_lookup_insert_ne. lia.
    + intros Hnd i u Hi. apply NoDup_cons in Hnd as [Hfresh Hnd].
      destruct i as [|i]; simpl in Hi.
      * injection Hi as <-. rewrite (Hkeep unit) by (done || lia).
        rewrite list_lookup_insert_eq by lia.
        by rewrite take_0, app_nil_r.
      * rewrite (Hset Hnd i u Hi), fmap_cons. fold request.
        cbn [take]. by rewrite <- app_assoc.
Qed.

(** X2. With a destination buffer and remote partitions that index the
    handle vector, [psort__exchange_data] issues exactly one get per remote
    partition, in the order of the partitions: from the iterator itself for
    the unit at the begin of the range and from the start of the unit's
    slice otherwise, moved by the source displacement, to the local begin
    plus the target displacement. When the partitions are pairwise
    distinct, the slot of each holds the handle the transport gave for its
    request. *)
Theorem exchange_data_one_get_per_partition
    (transport : list get_request → get_request → dart_handle_t)
    (from_global_begin : GlobIterT) (to_local_begin : Z)
    (remote_partitions : list Z) (get_send_info : Z → Z * Z * Z) :
  to_local_begin ≠ nullptr →
  Forall (λ u, 0 ≤ u < team_size from_global_begin) remote_partitions →
  let requests :=
    exchange_request get_send_info from_global_begin to_local_begin
      <$> remote_partitions in
  ∃ handles,
    psort__exchange_data dart_handle_t DART_HANDLE_NULL transport
      from_global_begin to_local_begin remote_partitions get_send_info
    = Some (handles, requests)
    ∧ length requests = length remote_partitions
    ∧ (NoDup remote_partitions →
       ∀ (i : nat) (u : Z), remote_partitions !! i = Some u →
         handles !! Z.to_nat u
         = Some (transport (take i requests)
                   (exchange_request get_send_info from_global_begin
                                     to_local_begin u))).
Proof.
  intros Hdata Hall requests. unfold psort__exchange_data.
  rewrite decide_False by congruence.
  destruct (exchange_loop_requests transport get_send_info from_global_begin
              to_local_begin remote_partitions
              (replicate (Z.to_nat (team_size from_global_begin))
                         DART_HANDLE_NULL) [])
    as (handles & Hrun & _ & _ & Hset).
  { eapply Forall_impl; [exact Hall|]. intros u Hu. simpl in Hu.
    rewrite length_replicate. lia. }
  exists handles. split; [exact Hrun|]. split; [apply length_fmap|].
  exact Hset.
Qed.

(** **** [psort__schedule_copy_tasks] *)

Lemma size_list_to_set_le (keys : list (Z * Z)) :
  (size (list_to_set keys : gset (Z * Z)) ≤ length keys)%nat.
Proof.
  induction keys as [|k keys IH]; [by rewrite list_to_set_nil, size_empty|].
  rewrite list_to_set_cons. destruct (decide (k ∈ keys)) as [Hin|Hnotin].
  - rewrite (subseteq_union_1_L {[k]} (list_to_set keys)).
    + simpl. lia.
    + apply singleton_subseteq_l. by apply elem_of_list_to_set.
  - rewrite size_union, size_singleton; [simpl; lia|].
    intros k' Hk Hin. apply elem_of_singleton in Hk as ->.
    by apply elem_of_list_to_set in Hin.
Qed.

Lemma size_list_to_set_full (keys : list (Z * Z)) :
  size (list_to_set keys : gset (Z * Z)) = length keys → NoDup keys.
Proof.
  induction keys as [|k keys IH]; intros Hsize; [apply NoDup_nil_2|].
  rewrite list_to_set_cons in Hsize.
  pose proof (size_list_to_set_le keys) as Hle.
  destruct (decide (k ∈ keys)) as [Hin|Hnotin].
  - rewrite (subseteq_union_1_L {[k]} (list_to_set keys)) in Hsize.
    + simpl in Hsize. lia.
    + apply singleton_subseteq_l. by apply elem_of_list_to_set.
  - rewrite size_union, size_singleton in Hsize.
    + apply NoDup_cons. split; [done|]. apply IH. simpl in Hsize. lia.
    + intros k' Hk Hin. apply elem_of_singleton in Hk as ->.
      by apply elem_of_list_to_set in Hin.
Qed.

(** The transform appends one copy task per partition and enters its
    future under the partition's range, unless the range has an entry. *)
Lemma schedule_transform_run (handles : list dart_handle_t)
    (parts : list Z) :
  ∀ (tp : list (task dart_handle_t user_task))
    (deps : gmap (Z * Z) future),
    Forall (λ p, 0 ≤ p < Z.of_nat (length handles)) parts →
    ∃ hs deps',
      schedule_transform dart_handle_t user_task handles parts tp deps
      = Some (tp ++ (WaitTask dart_handle_t user_task <$> hs), deps')
      ∧ Forall2 (λ p h, vec_at handles p = Some h) parts hs
      ∧ (∀ k v, deps !! k = Some v → deps' !! k = Some v)
      ∧ (∀ k, k ∉ ((λ p, (p, p + 1)) <$> parts) → deps' !! k = deps !! k)
      ∧ (NoDup parts →
         ∀ (i : nat) (p : Z), parts !! i = Some p →
           deps !! (p, p + 1) = None →
           deps' !! (p, p + 1) = Some (length tp + i)%nat).
Proof.
  induction parts as [|p parts IH]; intros tp deps Hall.
  - exists [], deps. rewrite app_nil_r. by repeat split.
  - apply Forall_cons in Hall as [Hp Hall]. cbn [schedule_transform].
    destruct (vec_at_is_Some handles p Hp) as [hdl Hhdl].
    rewrite Hhdl. cbn [mbind option_bind submit].
    destruct (IH (tp ++ [WaitTask dart_handle_t user_task hdl])
                 (map_emplace (p, p + 1) (length tp) deps) Hall)
      as (hs & deps' & Hrun & Hhs & Hmono & Hother & Hfresh).
    exists (hdl :: hs), deps'. split; [|split; [|split; [|split]]].
    + by rewrite Hrun, fmap_cons, <- app_assoc.
    + by apply Forall2_cons.
    + intros k v Hk. apply Hmono. unfold map_emplace.
      destruct (deps !! (p, p + 1)) eqn:Hold; [done|].
      rewrite lookup_insert_ne; [done|]. intros <-. congruence.
    + intros k Hk. rewrite fmap_cons in Hk.
      apply not_elem_of_cons in Hk as [Hne Hk].
      rewrite (Hother k Hk). by apply map_emplace_lookup_ne.
    + intros Hnd i q Hi Hnone. apply NoDup_cons in Hnd as [Hnotin Hnd].
      destruct i as [|i]; simpl in Hi.
      * injection Hi as <-. rewrite Hother.
        -- rewrite map_emplace_lookup_fresh by done. f_equal. lia.
        -- intros Hin. apply list_elem_of_fmap in Hin as (q & Hq & Hin).
           inversion Hq; subst. contradiction.
      * assert (q ≠ p) as Hne.
        { intros ->. apply Hnotin. by eapply list_elem_of_lookup_2. }
        rewrite (Hfresh Hnd i q Hi).
        -- rewrite length_app. simpl. f_equal. lia.
        -- rewrite map_emplace_lookup_ne; [done|]. intros Heq.
           inversion Heq. congruence.
Qed.

(** X3. For pairwise distinct remote partitions other than [whoami] that
    index the handle vector, the map [psort__schedule_copy_tasks] returns
    leads from every range [[p, p + 1)] to a task that waits on exactly
    [copy_handles[p]], and from [[whoami, whoami + 1)] to the local copy;
    the tasks are appended to the pool in the order of the partitions, the
    local copy last, and the tasks already in the pool stay. *)
Theorem schedule_copy_tasks_futures
    (remote_partitions : list Z) (copy_handles : list dart_handle_t)
    (thread_pool : list (task dart_handle_t user_task)) (whoami : Z)
    (local_copy : user_task) :
  NoDup remote_partitions →
  whoami ∉ remote_partitions →
  Forall (λ p, 0 ≤ p < Z.of_nat (length copy_handles)) remote_partitions →
  ∃ submitted chunk_dependencies,
    psort__schedule_copy_tasks dart_handle_t user_task remote_partitions
      copy_handles thread_pool whoami local_copy
    = Some (thread_pool ++ submitted, chunk_dependencies)
    ∧ length submitted = (length remote_partitions + 1)%nat
    ∧ (∀ (i : nat) (p : Z), remote_partitions !! i = Some p →
         ∃ handle,
           vec_at copy_handles p = Some handle
           ∧ chunk_dependencies !! (p, p + 1)
             = Some (length thread_pool + i)%nat
           ∧ submitted !! i = Some (WaitTask dart_handle_t user_task handle))
    ∧ chunk_dependencies !! (whoami, whoami + 1)
      = Some (length thread_pool + length remote_partitions)%nat
    ∧ submitted !! length remote_partitions
      = Some (LocalCopyTask dart_handle_t user_task local_copy).
Proof.
  intros Hnd Hself Hidx. unfold psort__schedule_copy_tasks.
  destruct (schedule_transform_run copy_handles remote_partitions
              thread_pool ∅ Hidx)
    as (hs & deps1 & Hrun & Hhs & _ & Hother & Hfresh).
  destruct (schedule_transform_dom dart_handle_t user_task copy_handles
              remote_partitions thread_pool ∅ Hidx)
    as (tp1 & deps1' & Hrun' & Hdom).
  rewrite Hrun in Hrun'. injection Hrun' as <- <-.
  rewrite Hrun. cbn [mbind option_bind submit].
  pose proof (Forall2_length _ _ _ Hhs) as Hlen.
  assert (deps1 !! (whoami, whoami + 1) = None) as Hlocal.
  { rewrite Hother; [apply lookup_empty|].
    intros Hin. apply list_elem_of_fmap in Hin as (p & Hp & Hin).
    inversion Hp; subst. contradiction. }
  set (tp1 := thread_pool ++ (WaitTask dart_handle_t user_task <$> hs)).
  set (deps := map_emplace (whoami, whoami + 1) (length tp1) deps1).
  assert (size deps = (length remote_partitions + 1)%nat) as Hsize.
  { rewrite <- size_dom. unfold deps.
    rewrite map_emplace_dom, Hdom, dom_empty_L, (right_id_L ∅ (∪)).
    rewrite size_union.
    - rewrite size_singleton, size_list_to_set, length_fmap; [lia|].
      by apply partition_ranges_NoDup.
    - intros k Hk1 Hk2. apply elem_of_singleton in Hk1 as ->.
      apply elem_of_list_to_set, list_elem_of_fmap in Hk2 as (p & Hp & Hin).
      inversion Hp; subst. contradiction. }
  rewrite decide_True by (symmetry; exact Hsize).
  exists ((WaitTask dart_handle_t user_task <$> hs)
          ++ [LocalCopyTask dart_handle_t user_task local_copy]), deps.
  assert (length tp1 = (length thread_pool + length remote_partitions)%nat)
    as Htp1.
  { unfold tp1. rewrite length_app, length_fmap. lia. }
  split; [by rewrite app_assoc|]. split; [|split; [|split]].
  - rewrite length_app, length_fmap. simpl. lia.
  - intros i p Hi.
    destruct (Forall2_lookup_l _ _ _ _ _ Hhs Hi) as (h & Hh & Hat).
    exists h. split; [exact Hat|]. split.
    + unfold deps. rewrite map_emplace_lookup_ne.
      * apply (Hfresh Hnd i p Hi). apply lookup_empty.
      * intros Heq. inversion Heq; subst. apply Hself.
        by eapply list_elem_of_lookup_2.
    + rewrite lookup_app_l.
      * by rewrite list_lookup_fmap, Hh.
      * rewrite length_fmap. by eapply lookup_lt_Some.
  - unfold deps. rewrite map_emplace_lookup_fresh by done. by rewrite Htp1.
  - rewrite lookup_app_r by (rewrite length_fmap; lia).
    rewrite length_fmap, Hlen, Nat.sub_diag. done.
Qed.

(** X4. With remote partitions that index the handle vector, the size
    assertion of [psort__schedule_copy_tasks] holds, and the function
    returns, exactly when the partitions are pairwise distinct and none of
    them is [whoami]. *)
Theorem schedule_copy_tasks_assertion
    (remote_partitions : list Z) (copy_handles : list dart_handle_t)
    (thread_pool : list (task dart_handle_t user_task)) (whoami : Z)
    (local_copy : user_task) :
  Forall (λ p, 0 ≤ p < Z.of_nat (length copy_handles)) remote_partitions →
  is_Some (psort__schedule_copy_tasks dart_handle_t user_task
             remote_partitions copy_handles thread_pool whoami local_copy)
  ↔ NoDup remote_partitions ∧ whoami ∉ remote_partitions.
Proof.
  intros Hidx. unfold psort__schedule_copy_tasks.
  destruct (schedule_transform_dom dart_handle_t user_task copy_handles
              remote_partitions thread_pool ∅ Hidx)
    as (tp1 & deps1 & Hrun & Hdom).
  rewrite Hrun. cbn [mbind option_bind submit].
  set (deps := map_emplace (whoami, whoami + 1) (length tp1) deps1).
  assert (size deps
          = size (list_to_set ((λ p, (p, p + 1))
                                 <$> whoami :: remote_partitions)
                  : gset (Z * Z))) as Hsize.
  { rewrite <- size_dom. unfold deps.
    rewrite map_emplace_dom, Hdom, dom_empty_L, (right_id_L ∅ (∪)).
    by rewrite fmap_cons, list_to_set_cons. }
  assert (Inj eq eq (λ p : Z, (p, p + 1))) as Hinj.
  { intros p q Hpq. by inversion Hpq. }
  split.
  - intros Hsome.
    destruct (decide (length remote_partitions + 1 = size deps)%nat)
      as [Hassert|]; [|by destruct Hsome].
    rewrite Hsize in Hassert.
    assert (NoDup (whoami :: remote_partitions)) as Hnd.
    { apply (NoDup_fmap (λ p : Z, (p, p + 1))).
      apply size_list_to_set_full. rewrite length_fmap. cbn [length]. lia. }
    apply NoDup_cons in Hnd as [Hself Hnd]. by split.
  - intros [Hnd Hself]. rewrite decide_True; [by eexists|].
    rewrite Hsize, size_list_to_set, length_fmap; [simpl; lia|].
    apply partition_ranges_NoDup. by apply NoDup_cons.
Qed.

(** **** The three stages together *)

(** X5. The stages fit: on in-range arguments with pairwise distinct
    splitters, none of which has the unit at the begin as its right
    neighbour, and a team of as many units as there are target counts, the
    list [psort__remote_partitions] returns is accepted by
    [psort__exchange_data], which issues one get per remote partition
    (none at all when the destination buffer is null), and the handles it
    returns are accepted by [psort__schedule_copy_tasks], whose size
    assertion holds. *)
Theorem sort_stages_compose
    (transport : list get_request → get_request → dart_handle_t)
    (valid_splitters target_counts : list Z) (nunits whoami : Z)
    (from_global_begin : GlobIterT) (to_local_begin : Z)
    (get_send_info : Z → Z * Z * Z)
    (thread_pool : list (task dart_handle_t user_task))
    (local_copy : user_task) :
  let unit_at_begin :=
    pattern_unit_at from_global_begin (pos from_global_begin) in
  DART_UNDEFINED_UNIT_ID < 0 →
  Forall (λ c, 0 ≤ c) target_counts →
  Z.of_nat (length target_counts) ≤ 2 ^ 31 →
  0 ≤ unit_at_begin < Z.of_nat (length target_counts) →
  Forall (λ s, 0 ≤ s ∧ s + 1 < Z.of_nat (length target_counts))
         valid_splitters →
  NoDup valid_splitters →
  unit_at_begin - 1 ∉ valid_splitters →
  team_size from_global_begin = Z.of_nat (length target_counts) →
  ∃ remote_partitions handles issued thread_pool' chunk_dependencies,
    psort__remote_partitions DART_UNDEFINED_UNIT_ID valid_splitters
                             target_counts nunits unit_at_begin whoami
    = Some remote_partitions
    ∧ psort__exchange_data dart_handle_t DART_HANDLE_NULL transport
        from_global_begin to_local_begin remote_partitions get_send_info
      = Some (handles, issued)
    ∧ length issued
      = (if decide (nullptr = to_local_begin) then 0%nat
         else length remote_partitions)
    ∧ psort__schedule_copy_tasks dart_handle_t user_task remote_partitions
        handles thread_pool whoami local_copy
      = Some (thread_pool', chunk_dependencies)
    ∧ size chunk_dependencies = (length remote_partitions + 1)%nat.
Proof.
  intros unit_at_begin Hundef Hpos Hlen Hbegin Hall Hnd Hfirst Hteam.
  destruct (remote_partitions_spec_wf valid_splitters target_counts
              unit_at_begin whoami Hbegin Hall) as (Hself & Hrange & Hdistinct).
  specialize (Hdistinct Hnd Hfirst).
  set (rp := remote_partitions_spec valid_splitters target_counts
               unit_at_begin whoami) in *.
  assert (Forall (λ u, 0 ≤ u < Z.of_nat (Z.to_nat
                                   (team_size from_global_begin))) rp)
    as Hidx.
  { eapply Forall_impl; [exact Hrange|]. intros u [Hu _]. simpl. lia. }
  assert (∃ handles issued,
            psort__exchange_data dart_handle_t DART_HANDLE_NULL transport
              from_global_begin to_local_begin rp get_send_info
            = Some (handles, issued)
            ∧ length handles = Z.to_nat (team_size from_global_begin)
            ∧ length issued
              = (if decide (nullptr = to_local_begin) then 0%nat
                 else length rp))
    as (handles & issued & Hexchange & Hhandles & Hissued).
  { unfold psort__exchange_data.
    destruct (decide (nullptr = to_local_begin)).
    - eexists _, _. split; [reflexivity|].
      split; [apply length_replicate|done].
    - destruct (exchange_loop_requests transport get_send_info
                  from_global_begin to_local_begin rp
                  (replicate (Z.to_nat (team_size from_global_begin))
                             DART_HANDLE_NULL) [])
        as (handles & Hrun & Hlength & _).
      { by rewrite length_replicate. }
      eexists _, _. split; [exact Hrun|]. split.
      + by rewrite Hlength, length_replicate.
      + apply length_fmap. }
  rewrite <- Hhandles in Hidx.
  destruct (schedule_transform_dom dart_handle_t user_task handles rp
              thread_pool ∅ Hidx) as (tp1 & deps1 & Hrun & Hdom).
  set (deps := map_emplace (whoami, whoami + 1) (length tp1) deps1).
  assert (size deps = (length rp + 1)%nat) as Hsize.
  { rewrite <- size_dom. unfold deps.
    rewrite map_emplace_dom, Hdom, dom_empty_L, (right_id_L ∅ (∪)).
    rewrite size_union.
    - rewrite size_singleton, size_list_to_set, length_fmap; [lia|].
      by apply partition_ranges_NoDup.
    - intros k Hk1 Hk2. apply elem_of_singleton in Hk1 as ->.
      apply elem_of_list_to_set, list_elem_of_fmap in Hk2 as (p & Hp & Hin).
      inversion Hp; subst. contradiction. }
  exists rp, handles, issued,
    (tp1 ++ [LocalCopyTask dart_handle_t user_task local_copy]), deps.
  split; [by apply remote_partitions_runs|].
  split; [exact Hexchange|]. split; [exact Hissued|]. split; [|exact Hsize].
  unfold psort__schedule_copy_tasks. rewrite Hrun.
  cbn [mbind option_bind submit]. fold deps.
  by rewrite decide_True by (symmetry; exact Hsize).
Qed.

(** **** [psort__merge_tree]: what the merges wait on *)

Lemma map_emplace_persist (k k' : Z * Z) (fut v : future)
    (m : gmap (Z * Z) future) :
  m !! k = Some v → map_emplace k' fut m !! k = Some v.
Proof.
  intros Hk. unfold map_emplace. destruct (m !! k') eqn:Hk'; [done|].
  rewrite lookup_insert_ne; [done|]. intros <-. congruence.
Qed.

Lemma map_emplace_bound (k : Z * Z) (fut : future) (bound : nat)
    (m : gmap (Z * Z) future) :
  (fut < bound)%nat →
  map_Forall (λ _ v, (v < bound)%nat) m →
  map_Forall (λ _ v, (v < bound)%nat) (map_emplace k fut m).
Proof.
  intros Hfut Hm k' v Hk'. unfold map_emplace in Hk'.
  destruct (m !! k) eqn:Hk; [by eapply Hm|].
  destruct (decide (k = k')) as [<-|Hne].
  - rewrite lookup_insert_eq in Hk'. by injection Hk' as <-.
  - rewrite lookup_insert_ne in Hk' by done. by eapply Hm.
Qed.

Lemma waits_on_earlier_grows
    (pool more : list (task dart_handle_t user_task))
    (deps deps' : gmap (Z * Z) future) (i : nat) :
  (∀ k v, deps !! k = Some v → deps' !! k = Some v) →
  (i < length pool)%nat →
  waits_on_earlier pool deps i →
  waits_on_earlier (pool ++ more) deps' i.
Proof.
  intros Hmono Hi. unfold waits_on_earlier.
  rewrite lookup_app_l by done.
  destruct (pool !! i) as [[hdl|lc|f mi l d depth fin]|]; try done.
  intros (Horder & a & b & Ha & Hb & Hlt). split; [done|].
  exists a, b. split; [by apply Hmono|]. split; [by apply Hmono|done].
Qed.

(** The inner loop over plain numbers: when nothing wraps and both halves
    of every merge have a future in the map, every merge submitted finds
    them there, at tasks submitted before it, and leaves its own future
    under the union of the halves. *)
Lemma merge_steps_resolved (npartitions d depth step dist : Z) (fin : bool)
    (ms : list Z) :
  0 < step < dist →
  ∀ (tp : list (task dart_handle_t user_task))
    (deps : gmap (Z * Z) future),
    Forall (λ m, 0 ≤ m ∧ m * dist + dist < 2 ^ 64
                 ∧ m * dist + step < npartitions
                 ∧ is_Some (deps !! (m * dist, m * dist + step))
                 ∧ is_Some (deps !! (m * dist + step,
                                     Z.min (m * dist + dist) npartitions)))
           ms →
    map_Forall (λ _ v, (v < length tp)%nat) deps →
    ∃ new deps',
      foldl (merge_step dart_handle_t user_task npartitions d depth step
                        dist fin) (tp, deps) ms
      = (tp ++ new, deps')
      ∧ length new = length ms
      ∧ (∀ k v, deps !! k = Some v → deps' !! k = Some v)
      ∧ map_Forall (λ _ v, (v < length (tp ++ new))%nat) deps'
      ∧ Forall (λ m, is_Some (deps' !! (m * dist,
                                        Z.min (m * dist + dist) npartitions)))
               ms
      ∧ ∀ i, (length tp ≤ i)%nat → waits_on_earlier (tp ++ new) deps' i.
Proof.
  intros Hstep. induction ms as [|m ms IH]; intros tp deps Hms Hbound.
  - exists [], deps. rewrite app_nil_r. repeat split; try done.
    intros i Hi. unfold waits_on_earlier.
    by rewrite lookup_ge_None_2.
  - apply Forall_cons in Hms
      as [(Hm & Hwrap & Hmid & [a Ha] & [b Hb]) Hms].
    cbn [foldl]. unfold merge_step at 2. cbn [submit fst snd].
    assert (0 ≤ m * dist) as Hprod by nia.
    rewrite (to_size_t_small (m * dist)) by lia.
    rewrite !to_size_t_small by lia.
    set (last := Z.min (m * dist + dist) npartitions).
    set (t := MergeTask dart_handle_t user_task (m * dist) (m * dist + step)
                        last d depth fin).
    set (deps1 := map_emplace (m * dist, last) (length tp) deps).
    destruct (IH (tp ++ [t]) deps1)
      as (new & deps' & Hrun & Hlen & Hmono & Hbound' & Hkeys & Hwait).
    { eapply Forall_impl; [exact Hms|]. simpl.
      intros m' (? & ? & ? & [a' Ha'] & [b' Hb']).
      repeat split; try done; eexists; by apply map_emplace_persist. }
    { rewrite length_app. simpl. apply map_emplace_bound; [lia|].
      eapply map_Forall_impl; [exact Hbound|]. simpl. intros _ v Hv. lia. }
    exists (t :: new), deps'.
    assert ((tp ++ [t]) ++ new = tp ++ t :: new) as Hpool
      by (by rewrite <- app_assoc).
    rewrite Hpool in *.
    split; [exact Hrun|]. split; [simpl; lia|]. split; [|split; [|split]].
    + intros k v Hk. apply Hmono. by apply map_emplace_persist.
    + exact Hbound'.
    + apply Forall_cons. split; [|exact Hkeys].
      destruct (map_emplace_lookup_is_Some (m * dist, last) (length tp) deps)
        as [v Hv].
      exists v. by apply Hmono.
    + intros i Hi. destruct (decide (i = length tp)) as [->|Hne].
      * unfold waits_on_earlier.
        rewrite lookup_app_r by lia. rewrite Nat.sub_diag. simpl.
        split; [unfold last; lia|].
        exists a, b. split; [by apply Hmono, map_emplace_persist|].
        split; [by apply Hmono, map_emplace_persist|].
        split; [by eapply (Hbound _ a)|by eapply (Hbound _ b)].
      * apply Hwait. rewrite length_app. simpl. lia.
Qed.

(** One level: [nchunks] chunks of [2 ^ d] partitions (the last may be
    shorter), each with a future in the map, become [nchunks - nchunks / 2]
    chunks of [2 ^ (d + 1)]. *)
Lemma merge_level_resolved (npartitions depth d nchunks : Z)
    (tp : list (task dart_handle_t user_task))
    (deps : gmap (Z * Z) future) :
  0 ≤ d ≤ 62 → 1 ≤ npartitions ≤ 2 ^ 63 →
  (nchunks - 1) * 2 ^ d < npartitions ≤ nchunks * 2 ^ d →
  (∀ j, 0 ≤ j < nchunks →
     is_Some (deps !! (j * 2 ^ d, Z.min (j * 2 ^ d + 2 ^ d) npartitions))) →
  map_Forall (λ _ v, (v < length tp)%nat) deps →
  ∃ new deps',
    merge_level dart_handle_t user_task npartitions depth d nchunks
                (tp, deps) = (tp ++ new, deps')
    ∧ length new = Z.to_nat (nchunks / 2)
    ∧ (∀ k v, deps !! k = Some v → deps' !! k = Some v)
    ∧ map_Forall (λ _ v, (v < length (tp ++ new))%nat) deps'
    ∧ (nchunks - nchunks / 2 - 1) * 2 ^ (d + 1) < npartitions
        ≤ (nchunks - nchunks / 2) * 2 ^ (d + 1)
    ∧ (∀ j, 0 ≤ j < nchunks - nchunks / 2 →
         is_Some (deps' !! (j * 2 ^ (d + 1),
                            Z.min (j * 2 ^ (d + 1) + 2 ^ (d + 1))
                                  npartitions)))
    ∧ ∀ i, (length tp ≤ i)%nat → waits_on_earlier (tp ++ new) deps' i.
Proof.
  intros Hd Hn Hc Hchunks Hbound. unfold merge_level.
  rewrite shl64_one, shl64_double by lia.
  rewrite Z.shiftr_div_pow2 by lia. change (2 ^ 1) with 2.
  replace (2 ^ (d + 1)) with (2 * 2 ^ d)
    by (rewrite Z.pow_add_r by lia; lia).
  pose proof (pow2_le_63 d ltac:(lia)) as Hs.
  assert (2 ^ d ≤ 2 ^ 62) as Hs62 by (apply Z.pow_le_mono_r; lia).
  set (s := 2 ^ d) in *.
  pose proof (Z.mul_div_le nchunks 2 ltac:(lia)) as Hhalf1.
  pose proof (Z.mul_succ_div_gt nchunks 2 ltac:(lia)) as Hhalf2.
  set (h := nchunks / 2) in *.
  assert (1 ≤ nchunks) as Hc1 by nia.
  destruct (merge_steps_resolved npartitions d depth s (2 * s)
              (bool_decide (nchunks = 2)) (seqZ 0 h) ltac:(lia) tp deps)
    as (new & deps' & Hrun & Hlen & Hmono & Hbound' & Hkeys & Hwait).
  { apply Forall_forall. intros m Hm. apply elem_of_seqZ in Hm.
    assert (2 * m + 2 ≤ nchunks) as Hm2 by lia.
    assert (m * (2 * s) + 2 * s ≤ nchunks * s) as Hdist by nia.
    assert (m * (2 * s) + s ≤ (nchunks - 1) * s) as Hmid by nia.
    split; [lia|]. split; [nia|]. split; [lia|]. split.
    - destruct (Hchunks (2 * m) ltac:(lia)) as [v Hv]. exists v.
      rewrite Z.min_l in Hv by nia. rewrite <- Hv. f_equal. f_equal; lia.
    - destruct (Hchunks (2 * m + 1) ltac:(lia)) as [v Hv]. exists v.
      rewrite <- Hv. f_equal. f_equal; [lia|f_equal; lia]. }
  { exact Hbound. }
  exists new, deps'. split; [exact Hrun|].
  split; [by rewrite Hlen, length_seqZ|]. split; [exact Hmono|].
  split; [exact Hbound'|]. split; [nia|]. split; [|exact Hwait].
  intros j Hj. destruct (decide (j < h)) as [Hlt|Hge].
  - rewrite Forall_forall in Hkeys. apply (Hkeys j).
    apply elem_of_seqZ. lia.
  - assert (j = h) as -> by lia. assert (nchunks = 2 * h + 1) as Hodd by lia.
    destruct (Hchunks (nchunks - 1) ltac:(lia)) as [v Hv]. exists v.
    apply Hmono. rewrite <- Hv. f_equal. f_equal; [nia|].
    rewrite !Z.min_r by nia. done.
Qed.

(** The levels from [d] on. *)
Lemma merge_levels_resolved (npartitions depth : Z) :
  1 ≤ npartitions ≤ 2 ^ 63 →
  ∀ (levels : nat) (d nchunks : Z)
    (tp : list (task dart_handle_t user_task))
    (deps : gmap (Z * Z) future),
    0 ≤ d → d + Z.of_nat levels ≤ 63 →
    (nchunks - 1) * 2 ^ d < npartitions ≤ nchunks * 2 ^ d →
    (∀ j, 0 ≤ j < nchunks →
       is_Some (deps !! (j * 2 ^ d,
                         Z.min (j * 2 ^ d + 2 ^ d) npartitions))) →
    map_Forall (λ _ v, (v < length tp)%nat) deps →
    ∃ new deps',
      merge_levels dart_handle_t user_task levels npartitions depth d
                   nchunks (tp, deps) = (tp ++ new, deps')
      ∧ (∀ k v, deps !! k = Some v → deps' !! k = Some v)
      ∧ map_Forall (λ _ v, (v < length (tp ++ new))%nat) deps'
      ∧ ∀ i, (length tp ≤ i)%nat → waits_on_earlier (tp ++ new) deps' i.
Proof.
  intros Hn levels.
  induction levels as [|levels IH];
    intros d nchunks tp deps Hd Hlevels Hc Hchunks Hbound.
  - exists [], deps. rewrite app_nil_r. repeat split; try done.
    intros i Hi. unfold waits_on_earlier. by rewrite lookup_ge_None_2.
  - rewrite merge_levels_next.
    destruct (merge_level_resolved npartitions depth d nchunks tp deps)
      as (new1 & deps1 & Hlevel & _ & Hmono1 & Hbound1 & Hc1 & Hchunks1
          & Hwait1); try done; [lia|].
    rewrite Hlevel. rewrite Z.shiftr_div_pow2 by lia. change (2 ^ 1) with 2.
    destruct (IH (d + 1) (nchunks - nchunks / 2) (tp ++ new1) deps1)
      as (new2 & deps2 & Hrun & Hmono2 & Hbound2 & Hwait2); try done;
      [lia|lia|].
    exists (new1 ++ new2), deps2. rewrite app_assoc.
    split; [exact Hrun|]. split; [|split; [exact Hbound2|]].
    + intros k v Hk. by apply Hmono2, Hmono1.
    + intros i Hi.
      destruct (decide (i < length (tp ++ new1))%nat) as [Hlt|Hge].
      * apply (waits_on_earlier_grows _ _ deps1); [done|done|].
        by apply Hwait1.
      * apply Hwait2. lia.
Qed.

(** X6. When the map handed in holds a future for every single partition
    [[p, p + 1)] and every future in it belongs to a task of the pool,
    every merge that [psort__merge_tree] submits for [1 ≤ nchunks ≤ 2 ^ 63]
    covers a range [f < mi < l], finds the futures of [[f, mi)] and
    [[mi, l)] in the map, and both belong to tasks submitted before the
    merge itself; no entry of the map handed in is replaced. *)
Theorem merge_tree_waits_on_earlier
    (chunk_dependencies : gmap (Z * Z) future) (nchunks : Z)
    (thread_pool : list (task dart_handle_t user_task)) :
  1 ≤ nchunks ≤ 2 ^ 63 →
  (∀ p, 0 ≤ p < nchunks → is_Some (chunk_dependencies !! (p, p + 1))) →
  map_Forall (λ _ v, (v < length thread_pool)%nat) chunk_dependencies →
  ∃ submitted merged,
    merge_tree_loops dart_handle_t user_task chunk_dependencies nchunks
                     thread_pool = (thread_pool ++ submitted, merged)
    ∧ (∀ k v, chunk_dependencies !! k = Some v → merged !! k = Some v)
    ∧ ∀ i, (length thread_pool ≤ i)%nat →
        waits_on_earlier (thread_pool ++ submitted) merged i.
Proof.
  intros Hn Hunits Hbound. unfold merge_tree_loops, merge_tree_depth.
  assert (0 ≤ Z.log2_up nchunks ≤ 63) as Hdepth.
  { split; [apply Z.log2_up_nonneg|].
    destruct (decide (nchunks = 1)) as [->|]; [by cbn|].
    apply Z.log2_up_le_pow2; lia. }
  destruct (merge_levels_resolved nchunks (Z.log2_up nchunks) Hn
              (Z.to_nat (Z.log2_up nchunks)) 0 nchunks thread_pool
              chunk_dependencies)
    as (new & merged & Hrun & Hmono & _ & Hwait); try done; try lia.
  - intros j Hj. change (2 ^ 0) with 1. rewrite !Z.mul_1_r.
    rewrite Z.min_l by lia. by apply Hunits.
  - by exists new, merged.
Qed.

(** **** [psort__merge_tree]: how many merges *)

Lemma merge_steps_count (npartitions d depth step dist : Z) (fin : bool)
    (ms : list Z) :
  ∀ (tp : list (task dart_handle_t user_task))
    (deps : gmap (Z * Z) future),
    ∃ new deps',
      foldl (merge_step dart_handle_t user_task npartitions d depth step
                        dist fin) (tp, deps) ms
      = (tp ++ new, deps')
      ∧ length new = length ms
      ∧ Forall (λ t, ∃ f mi l, t = MergeTask dart_handle_t user_task
                                     f mi l d depth fin) new.
Proof.
  induction ms as [|m ms IH]; intros tp deps.
  - exists [], deps. rewrite app_nil_r. by repeat split.
  - cbn [foldl]. unfold merge_step at 2. cbn [submit fst snd].
    match goal with
    | |- context [foldl _ (tp ++ [?t], ?deps1) ms] =>
        destruct (IH (tp ++ [t]) deps1) as (new & deps' & Hrun & Hlen & Hnew);
        exists (t :: new), deps'
    end.
    split; [by rewrite Hrun, <- app_assoc|]. split; [simpl; lia|].
    apply Forall_cons. split; [by eexists _, _, _|done].
Qed.

Lemma merge_levels_count (npartitions depth : Z) (levels : nat) :
  ∀ (d nchunks : Z) (tp : list (task dart_handle_t user_task))
    (deps : gmap (Z * Z) future),
    1 ≤ nchunks ≤ 2 ^ Z.of_nat levels →
    ∃ new deps',
      merge_levels dart_handle_t user_task levels npartitions depth d
                   nchunks (tp, deps) = (tp ++ new, deps')
      ∧ length new = Z.to_nat (nchunks - 1)
      ∧ Forall (λ t, ∃ f mi l d' fin,
                  t = MergeTask dart_handle_t user_task f mi l d' depth fin)
               new.
Proof.
  induction levels as [|levels IH]; intros d nchunks tp deps Hc.
  - change (2 ^ Z.of_nat 0) with 1 in Hc. assert (nchunks = 1) as -> by lia.
    exists [], deps. rewrite app_nil_r. by repeat split.
  - rewrite merge_levels_next. unfold merge_level.
    rewrite Z.shiftr_div_pow2 by lia. change (2 ^ 1) with 2.
    destruct (merge_steps_count npartitions d depth (shl64 1 d)
                (shl64 (shl64 1 d) 1) (bool_decide (nchunks = 2))
                (seqZ 0 (nchunks / 2)) tp deps)
      as (new1 & deps1 & Hlevel & Hlen1 & Hnew1).
    rewrite Hlevel.
    pose proof (Z.mul_div_le nchunks 2 ltac:(lia)) as Hhalf1.
    pose proof (Z.mul_succ_div_gt nchunks 2 ltac:(lia)) as Hhalf2.
    rewrite Nat2Z.inj_succ, Z.pow_succ_r in Hc by lia.
    destruct (IH (d + 1) (nchunks - nchunks / 2) (tp ++ new1) deps1)
      as (new2 & deps2 & Hrun & Hlen2 & Hnew2); [lia|].
    exists (new1 ++ new2), deps2. rewrite app_assoc.
    split; [exact Hrun|]. split.
    + rewrite length_app, Hlen1, Hlen2, length_seqZ. lia.
    + apply Forall_app. split; [|exact Hnew2].
      eapply Forall_impl; [exact Hnew1|].
      intros t (f & mi & l & ->). by eexists _, _, _, _, _.
Qed.

(** X7. For [1 ≤ nchunks ≤ 2 ^ 48], where the depth computed in [double]
    is the exact one, the loops of [psort__merge_tree] submit exactly
    [nchunks - 1] tasks, all of them merges, after the tasks already in the
    pool; for a single chunk they submit nothing. *)
Theorem merge_tree_submits_one_merge_less
    (chunk_dependencies : gmap (Z * Z) future) (nchunks : Z)
    (thread_pool : list (task dart_handle_t user_task)) :
  1 ≤ nchunks ≤ 2 ^ 48 →
  ∃ submitted merged,
    merge_tree_loops dart_handle_t user_task chunk_dependencies nchunks
                     thread_pool = (thread_pool ++ submitted, merged)
    ∧ length submitted = Z.to_nat (nchunks - 1)
    ∧ Forall (λ t, ∃ f mi l d fin,
                t = MergeTask dart_handle_t user_task f mi l d
                              (merge_tree_depth nchunks) fin) submitted.
Proof.
  intros [Hn _]. unfold merge_tree_loops.
  apply merge_levels_count. split; [done|].
  unfold merge_tree_depth. rewrite Z2Nat.id by apply Z.log2_up_nonneg.
  destruct (decide (nchunks = 1)) as [->|]; [by cbn|].
  apply Z.log2_up_spec. lia.
Qed.

(** **** [merge] and [merge_inplace_and_copy] *)

Lemma std_merge_nil_l {A} (cmp : A → A → bool) (right : list A) :
  std_merge cmp [] right = right.
Proof. by destruct right. Qed.

Lemma std_merge_nil_r {A} (cmp : A → A → bool) (left : list A) :
  std_merge cmp left [] = left.
Proof. by destruct left. Qed.

Lemma std_merge_cons {A} (cmp : A → A → bool) (x y : A)
    (left right : list A) :
  std_merge cmp (x :: left) (y :: right)
  = if cmp y x then y :: std_merge cmp (x :: left) right
    else x :: std_merge cmp left (y :: right).
Proof. reflexivity. Qed.

Lemma std_merge_Permutation {A} (cmp : A → A → bool) (left right : list A) :
  std_merge cmp left right ≡ₚ left ++ right.
Proof.
  revert right. induction left as [|x left IHl]; intros right.
  - by rewrite std_merge_nil_l.
  - induction right as [|y right IHr].
    + by rewrite std_merge_nil_r, app_nil_r.
    + rewrite std_merge_cons. destruct (cmp y x).
      * rewrite IHr. by rewrite <- Permutation_middle.
      * by rewrite IHl.
Qed.

Lemma HdRel_std_merge {A} (cmp : A → A → bool) (R : relation A) (a : A)
    (left right : list A) :
  HdRel R a left → HdRel R a right → HdRel R a (std_merge cmp left right).
Proof.
  destruct left as [|x left]; [by rewrite std_merge_nil_l|].
  destruct right as [|y right]; [by rewrite std_merge_nil_r|].
  intros Hl Hr. rewrite std_merge_cons.
  inversion Hl; inversion Hr; subst. destruct (cmp y x); by constructor.
Qed.

Lemma std_merge_Sorted {A} (cmp : A → A → bool) (left right : list A) :
  (∀ a b, cmp a b = true → cmp b a = false) →
  Sorted (λ a b, cmp b a = false) left →
  Sorted (λ a b, cmp b a = false) right →
  Sorted (λ a b, cmp b a = false) (std_merge cmp left right).
Proof.
  intros Hasym Hleft. revert right.
  induction Hleft as [|x left Hleft IHl Hx]; intros right Hright.
  - by rewrite std_merge_nil_l.
  - induction Hright as [|y right Hright IHr Hy].
    + rewrite std_merge_nil_r. by constructor.
    + rewrite std_merge_cons. destruct (cmp y x) eqn:Hyx.
      * constructor; [exact IHr|].
        apply HdRel_std_merge; [|exact Hy]. constructor. by apply Hasym.
      * constructor; [apply IHl; by constructor|].
        apply HdRel_std_merge; [exact Hx|]. by constructor.
Qed.

(** X8. For a comparison that is asymmetric and two halves that are each
    in order, [merge_inplace_and_copy] produces the elements of both halves
    in order: when [is_final_merge] is set, it calls the barrier once,
    writes the sequence to [out] and leaves the range as it was; otherwise
    it merges within the range, calls no barrier and writes nothing to
    [out]. [merge] writes the same sequence. *)
Theorem merge_inplace_and_copy_sorted {A} (cmp : A → A → bool)
    (left right : list A) (is_final_merge : bool) :
  (∀ a b, cmp a b = true → cmp b a = false) →
  Sorted (λ a b, cmp b a = false) left →
  Sorted (λ a b, cmp b a = false) right →
  let effect := merge_inplace_and_copy cmp left right is_final_merge in
  Sorted (λ a b, cmp b a = false) (merged_sequence effect)
  ∧ merged_sequence effect ≡ₚ left ++ right
  ∧ merged_sequence effect = merge cmp left right
  ∧ (if is_final_merge
     then working_range effect = left ++ right
          ∧ written_to_out effect = Some (merged_sequence effect)
          ∧ barrier_calls effect = 1%nat
     else written_to_out effect = None ∧ barrier_calls effect = 0%nat).
Proof.
  intros Hasym Hleft Hright effect.
  assert (merged_sequence effect = std_merge cmp left right) as ->.
  { unfold effect, merge_inplace_and_copy. by destruct is_final_merge. }
  split; [by apply std_merge_Sorted|].
  split; [apply std_merge_Permutation|]. split; [done|].
  unfold effect, merge_inplace_and_copy. by destruct is_final_merge.
Qed.

End Pipeline.

Lemma remote_partitions_output_witness :
  ∃ remote_partitions,
    psort__remote_partitions (-1) [0; 1; 2] [4; 0; 7; 3] 4 0 2
    = Some remote_partitions
    ∧ (2 ∉ remote_partitions) ∧ NoDup remote_partitions.
Proof.
  destruct (remote_partitions_output (-1) [0; 1; 2] [4; 0; 7; 3] 4 0 2)
    as (rp & Hrun & Hself & _ & Hnd).
  - lia.
  - repeat constructor; lia.
  - simpl. lia.
  - simpl. lia.
  - repeat constructor; simpl; lia.
  - exists rp. split; [exact Hrun|]. split; [exact Hself|].
    apply Hnd; compute_done.
Defined.

Lemma exchange_data_one_get_per_partition_witness :
  ∃ handles,
    psort__exchange_data Z 0 (λ _ r, get_src r)
      (GlobIter 3 (λ _, 0) (λ u, 10 * u) 3) 64 [1; 0; 2]
      (λ u, (u + 1, u, 2 * u))
    = Some (handles,
            [GetRequest 11 64 2 2; GetRequest 3 64 0 1; GetRequest 22 64 4 3])
    ∧ handles !! 2%nat = Some 22.
Proof.
  destruct (exchange_data_one_get_per_partition Z 0 (λ _ r, get_src r)
              (GlobIter 3 (λ _, 0) (λ u, 10 * u) 3) 64 [1; 0; 2]
              (λ u, (u + 1, u, 2 * u)))
    as (handles & Hrun & _ & Hset).
  - unfold nullptr. lia.
  - repeat constructor; simpl; lia.
  - exists handles. split; [exact Hrun|].
    apply (Hset ltac:(compute_done) 2%nat 2). reflexivity.
Defined.

Lemma schedule_copy_tasks_futures_witness :
  ∃ submitted chunk_dependencies,
    psort__schedule_copy_tasks Z unit [0; 2] [7; 0; 9] [] 1 ()
    = Some (submitted, chunk_dependencies)
    ∧ chunk_dependencies !! (2, 3) = Some 1%nat
    ∧ submitted !! 1%nat = Some (WaitTask Z unit 9).
Proof.
  destruct (schedule_copy_tasks_futures Z unit [0; 2] [7; 0; 9] [] 1 ())
    as (submitted & deps & Hrun & _ & Hremote & _).
  - compute_done.
  - compute_done.
  - repeat constructor; simpl; lia.
  - exists submitted, deps. split; [exact Hrun|].
    destruct (Hremote 1%nat 2 eq_refl) as (handle & Hhandle & Hdep & Htask).
    injection Hhandle as <-. by split.
Defined.

Lemma schedule_copy_tasks_assertion_witness :
  is_Some (psort__schedule_copy_tasks Z unit [0; 2] [7; 0; 9] [] 1 ())
  ∧ psort__schedule_copy_tasks Z unit [0; 1] [7; 0; 9] [] 1 () = None.
Proof.
  split.
  - apply (schedule_copy_tasks_assertion Z unit [0; 2] [7; 0; 9] [] 1 ()).
    + repeat constructor; simpl; lia.
    + split; compute_done.
  - apply eq_None_not_Some. intros Hsome.
    apply (schedule_copy_tasks_assertion Z unit [0; 1] [7; 0; 9] [] 1 ())
      in Hsome as [_ Hself].
    + apply Hself. compute_done.
    + repeat constructor; simpl; lia.
Defined.

Lemma sort_stages_compose_witness :
  ∃ remote_partitions handles issued thread_pool chunk_dependencies,
    psort__remote_partitions (-1) [0; 1; 2] [4; 0; 7; 3] 4 0 2
    = Some remote_partitions
    ∧ psort__exchange_data Z 0 (λ _ r, get_src r)
        (GlobIter 0 (λ _, 0) (λ u, 10 * u) 4) 64 remote_partitions
        (λ u, (u + 1, u, 2 * u))
      = Some (handles, issued)
    ∧ psort__schedule_copy_tasks Z unit remote_partitions handles [] 2 ()
      = Some (thread_pool, chunk_dependencies)
    ∧ size chunk_dependencies = (length remote_partitions + 1)%nat.
Proof.
  destruct (sort_stages_compose (-1) Z 0 unit (λ _ r, get_src r)
              [0; 1; 2] [4; 0; 7; 3] 4 2
              (GlobIter 0 (λ _, 0) (λ u, 10 * u) 4) 64
              (λ u, (u + 1, u, 2 * u)) [] ())
    as (rp & handles & issued & tp & deps & Hrp & Hex & _ & Hsched & Hsize).
  - lia.
  - repeat constructor; lia.
  - simpl. lia.
  - simpl. lia.
  - repeat constructor; simpl; lia.
  - compute_done.
  - compute_done.
  - reflexivity.
  - by exists rp, handles, issued, tp, deps.
Defined.

Lemma merge_tree_waits_on_earlier_witness :
  ∃ submitted merged,
    merge_tree_loops Z unit
      (<[(0, 1) := 0%nat]> (<[(1, 2) := 1%nat]> (<[(2, 3) := 2%nat]> ∅)))
      3 [WaitTask Z unit 7; LocalCopyTask Z unit (); WaitTask Z unit 9]
    = ([WaitTask Z unit 7; LocalCopyTask Z unit (); WaitTask Z unit 9]
         ++ submitted, merged)
    ∧ waits_on_earlier Z unit
        ([WaitTask Z unit 7; LocalCopyTask Z unit (); WaitTask Z unit 9]
           ++ submitted) merged 4.
Proof.
  destruct (merge_tree_waits_on_earlier Z unit
              (<[(0, 1) := 0%nat]> (<[(1, 2) := 1%nat]>
                 (<[(2, 3) := 2%nat]> ∅)))
              3 [WaitTask Z unit 7; LocalCopyTask Z unit (); WaitTask Z unit 9])
    as (submitted & merged & Hrun & _ & Hwait).
  - lia.
  - intros p Hp.
    assert (p = 0 ∨ p = 1 ∨ p = 2) as [-> | [-> | ->]] by lia; by eexists.
  - repeat apply map_Forall_insert_2; simpl; try lia.
    apply map_Forall_empty.
  - exists submitted, merged. split; [exact Hrun|].
    apply Hwait. simpl. lia.
Defined.

Lemma merge_tree_submits_one_merge_less_witness :
  ∃ submitted merged,
    merge_tree_loops Z unit ∅ 5 [] = (submitted, merged)
    ∧ length submitted = 4%nat.
Proof.
  destruct (merge_tree_submits_one_merge_less Z unit ∅ 5 [])
    as (submitted & merged & Hrun & Hlen & _).
  - lia.
  - by exists submitted, merged.
Defined.

Lemma merge_inplace_and_copy_sorted_witness :
  merged_sequence (merge_inplace_and_copy Z.ltb [1; 4; 6] [2; 3; 7] true)
  ≡ₚ [1; 4; 6; 2; 3; 7]
  ∧ written_to_out (merge_inplace_and_copy Z.ltb [1; 4; 6] [2; 3; 7] false)
    = None.
Proof.
  assert (∀ a b, (a <? b) = true → (b <? a) = false) as Hasym.
  { intros a b Hab. apply Z.ltb_lt in Hab. apply Z.ltb_ge. lia. }
  split.
  - apply (merge_inplace_and_copy_sorted Z.ltb [1; 4; 6] [2; 3; 7] true
             Hasym); repeat constructor.
  - destruct (merge_inplace_and_copy_sorted Z.ltb [1; 4; 6] [2; 3; 7] false
                Hasym) as (_ & _ & _ & Hout & _);
      [repeat constructor..|exact Hout].
Defined.

End SortPipeline.

(** ** More of [dart_globmem.c]: pointer arithmetic and collective
    segments *)

Module GlobmemOps.

Import Globmem.

(** *** [dart_gptr_setaddr], [dart_gptr_incaddr], [dart_gptr_setunit] *)

Definition set_offset (gptr : dart_gptr_t) (off : Z) : dart_gptr_t :=
  Gptr (unitid gptr) (segid gptr) (flags gptr) off.

(** [(char * ) addr - addr_base], stored in the [uint64_t] offset. Returns
    the code and the pointer as the call leaves it. *)
Definition dart_gptr_setaddr (SHAREDMEM_ENABLE : bool) (st : dart_state)
    (gptr : dart_gptr_t) (addr : Z) : dart_ret_t * dart_gptr_t :=
  let seg_id := segid gptr in
  if decide (seg_id ≠ 0) then
    if SHAREDMEM_ENABLE then
      match dart_adapt_transtable_get_win st seg_id with
      | None => (DART_ERR_INVAL, gptr)
      | Some win =>
          (DART_OK, set_offset gptr (to_size_t (addr - mpi_win_base st win)))
      end
    else
      match dart_adapt_transtable_get_selfbaseptr st seg_id with
      | None => (DART_ERR_INVAL, gptr)
      | Some addr_base =>
          (DART_OK, set_offset gptr (to_size_t (addr - addr_base)))
      end
  else
    (DART_OK,
     set_offset gptr (to_size_t (addr - dart_mempool_localalloc st))).


Definition dart_gptr_setunit (gptr : dart_gptr_t) (unit_id : Z)
    : dart_ret_t * dart_gptr_t :=
  (DART_OK, Gptr unit_id (segid gptr) (flags gptr) (offset gptr)).

(** **** Proofs *)

Lemma set_offset_same (gptr : dart_gptr_t) :
  set_offset gptr (offset gptr) = gptr.
Proof. by destruct gptr. Qed.

Lemma to_size_t_idemp (z : Z) : to_size_t (to_size_t z) = to_size_t z.
Proof. unfold to_size_t. apply Z.mod_mod. lia. Qed.


Lemma to_size_t_sub_l (a b : Z) :
  to_size_t (to_size_t a - b) = to_size_t (a - b).
Proof. unfold to_size_t. apply Zminus_mod_idemp_l. Qed.

Lemma to_size_t_id (z : Z) : 0 ≤ z < 2 ^ 64 → to_size_t z = z.
Proof. intros Hz. unfold to_size_t. by apply Z.mod_small. Qed.

(** What both functions read of the segment: the base [segment_base]
    names, or the failure to find one. *)
Lemma getaddr_owner (SHAREDMEM_ENABLE : bool) (st : dart_state)
    (gptr : dart_gptr_t) (base : Z) :
  dart_myid st = unitid gptr →
  segment_base SHAREDMEM_ENABLE st (segid gptr) = Some base →
  dart_gptr_getaddr SHAREDMEM_ENABLE st gptr
  = (DART_OK, Some (ptr_add base (offset gptr))).
Proof.
  intros Hown Hbase. unfold dart_gptr_getaddr, segment_base in *.
  destruct (decide (dart_myid st = unitid gptr)); [|done].
  destruct (decide (segid gptr ≠ 0)) as [Hseg|Hseg].
  - rewrite decide_False in Hbase by done.
    destruct SHAREDMEM_ENABLE.
    + destruct (dart_adapt_transtable_get_win st (segid gptr)); [|done].
      by injection Hbase as <-.
    + destruct (dart_adapt_transtable_get_selfbaseptr st (segid gptr));
        [|done].
      by injection Hbase as <-.
  - rewrite decide_True in Hbase by (by apply dec_stable).
    by injection Hbase as <-.
Qed.

Lemma setaddr_resolved (SHAREDMEM_ENABLE : bool) (st : dart_state)
    (gptr : dart_gptr_t) (base addr : Z) :
  segment_base SHAREDMEM_ENABLE st (segid gptr) = Some base →
  dart_gptr_setaddr SHAREDMEM_ENABLE st gptr addr
  = (DART_OK, set_offset gptr (to_size_t (addr - base))).
Proof.
  intros Hbase. unfold dart_gptr_setaddr, segment_base in *.
  destruct (decide (segid gptr ≠ 0)) as [Hseg|Hseg].
  - rewrite decide_False in Hbase by done.
    destruct SHAREDMEM_ENABLE.
    + destruct (dart_adapt_transtable_get_win st (segid gptr)); [|done].
      by injection Hbase as <-.
    + destruct (dart_adapt_transtable_get_selfbaseptr st (segid gptr));
        [|done].
      by injection Hbase as <-.
  - rewrite decide_True in Hbase by (by apply dec_stable).
    by injection Hbase as <-.
Qed.

(** X9. On the unit that owns a pointer whose segment resolves (or is
    [0]), storing the address [dart_gptr_getaddr] returns back with
    [dart_gptr_setaddr] leaves the pointer as it was, also when the
    address arithmetic wraps. *)
Theorem setaddr_of_getaddr (SHAREDMEM_ENABLE : bool) (st : dart_state)
    (gptr : dart_gptr_t) (base : Z) :
  dart_myid st = unitid gptr →
  segment_base SHAREDMEM_ENABLE st (segid gptr) = Some base →
  0 ≤ offset gptr < 2 ^ 64 →
  ∃ addr,
    dart_gptr_getaddr SHAREDMEM_ENABLE st gptr = (DART_OK, Some addr)
    ∧ dart_gptr_setaddr SHAREDMEM_ENABLE st gptr addr = (DART_OK, gptr).
Proof.
  intros Hown Hbase Hoff. eexists. split; [by apply getaddr_owner|].
  rewrite (setaddr_resolved _ _ _ base) by done.
  unfold ptr_add. rewrite to_size_t_sub_l.
  replace (base + offset gptr - base) with (offset gptr) by lia.
  by rewrite to_size_t_id, set_offset_same.
Qed.



Lemma setaddr_of_getaddr_witness :
  dart_gptr_setaddr false example_state (Gptr 1 3 0 16) 8208
  = (DART_OK, Gptr 1 3 0 16).
Proof.
  destruct (setaddr_of_getaddr false example_state (Gptr 1 3 0 16) 8192)
    as (addr & Hget & Hset).
  - reflexivity.
  - reflexivity.
  - simpl. lia.
  - vm_compute in Hget. injection Hget as <-. exact Hset.
Defined.



End GlobmemOps.

Module TeamMem.

Import Globmem.

(** *** The state of collective allocation *)

(** [dart_memid] is an [int16_t]. *)
Definition INT16_MAX : Z := 2 ^ 15 - 1.

(** Conversion to [int16_t], two's complement. *)
Definition to_int16 (z : Z) : Z := (z + 2 ^ 15) mod 2 ^ 16 - 2 ^ 15.

(** Besides the state of the local functions: the segment counter, the
    team list and the memory attached to the windows of [dart_win_lists],
    by slot. *)
Record team_mem_state : Type := TeamMemState {
  globmem : dart_state;
  dart_memid : Z;
  dart_teamlist : list (option Z);
  win_attached : list (nat * Z)
}.

(** Modelled from the spec: [dart_adapt_teamlist_convert] of the MPI
    implementation ([dart_team_private.c] is not part of the sources at
    hand) finds the slot of a team id, or reports [-1], here [None]. *)
Definition dart_adapt_teamlist_convert (teamlist : list (option Z))
    (teamid : Z) : option nat :=
  fst <$> list_find (λ slot, slot = Some teamid) teamlist.

(** Modelled from the spec: [dart_adapt_transtable_add] and
    [dart_adapt_transtable_remove] ([dart_translation.c]) enter a
    descriptor under its segment id and remove the one of an id; the
    removal reports [-1], here [None], for an id that is not there. *)
Definition dart_adapt_transtable_add (table : gmap Z info_t) (item : info_t)
    : gmap Z info_t :=
  <[seg_id item := item]> table.

Definition dart_adapt_transtable_remove (table : gmap Z info_t) (seg : Z)
    : option (gmap Z info_t) :=
  match table !! seg with
  | Some _ => Some (delete seg table)
  | None => None
  end.

(** What MPI answers during one call of [dart_team_memalloc_aligned]: the
    global rank of the team's unit 0 ([MPI_Group_translate_ranks]), the
    memory allocated, the window of [MPI_Win_allocate_shared] with the
    caller's rank on the node, the size of the node and the base pointers
    of the other units ([MPI_Win_shared_query]), and the displacements
    [MPI_Allgather] collects. *)
Record mpi_alloc_env : Type := AllocEnv {
  translated_rank : Z;
  sub_mem : Z;
  sharedmem_win : Z;
  sharedmem_unitid : Z;
  sharedmemnode_size : Z;
  shared_query : Z → Z;
  gathered_disp : list Z
}.

Definition set_globmem_table (st : dart_state) (table : gmap Z info_t)
    (win_base : Z → Z) : dart_state :=
  State (dart_myid st) (dart_mempool_localalloc st) (dart_localpool st)
        table win_base.

(** [MPI_Win_detach]: the region leaves the window. *)
Fixpoint detach_region (attached : list (nat * Z)) (region : nat * Z)
    : list (nat * Z) :=
  match attached with
  | [] => []
  | r :: rest =>
      if decide (r = region) then rest else r :: detach_region rest region
  end.

(** *** [dart_team_memalloc_aligned] *)

(** Returns the code, the pointer stored through [gptr] if any, and the
    state. [dart_memid ++] adds in [int] and converts the sum back to
    [int16_t]: at [INT16_MAX] the counter wraps around to [- 2 ^ 15]. In
    the shared-memory build the new window has the allocated memory as its
    [MPI_WIN_BASE]. *)
Definition dart_team_memalloc_aligned (SHAREDMEM_ENABLE : bool)
    (env : mpi_alloc_env) (st : team_mem_state) (teamid nbytes : Z)
    : dart_ret_t * option dart_gptr_t * team_mem_state :=
  match dart_adapt_teamlist_convert (dart_teamlist st) teamid with
  | None => (DART_ERR_INVAL, None, st)
  | Some index =>
      let localid := 0 in
      let gptr_unitid :=
        if decide (index = 0%nat) then localid else translated_rank env in
      let baseptr_set :=
        (λ i, if decide (sharedmem_unitid env ≠ i) then shared_query env i
              else sub_mem env) <$> seqZ 0 (sharedmemnode_size env) in
      let attached := win_attached st ++ [(index, sub_mem env)] in
      let disp_set := gathered_disp env in
      let gptr := Gptr gptr_unitid (dart_memid st) (Z.of_nat index) 0 in
      let item :=
        if SHAREDMEM_ENABLE
        then Info (dart_memid st) nbytes disp_set (sharedmem_win env)
                  baseptr_set 0
        else Info (dart_memid st) nbytes disp_set 0 [] (sub_mem env) in
      let win_base :=
        if SHAREDMEM_ENABLE
        then λ w, if decide (w = sharedmem_win env) then sub_mem env
                  else mpi_win_base (globmem st) w
        else mpi_win_base (globmem st) in
      let table :=
        dart_adapt_transtable_add (dart_transtable (globmem st)) item in
      (DART_OK, Some gptr,
       TeamMemState (set_globmem_table (globmem st) table win_base)
                    (to_int16 (dart_memid st + 1)) (dart_teamlist st)
                    attached)
  end.

(** *** [dart_team_memfree] *)

Definition dart_team_memfree (SHAREDMEM_ENABLE : bool)
    (st : team_mem_state) (teamid : Z) (gptr : dart_gptr_t)
    : dart_ret_t * team_mem_state :=
  let index := Z.to_nat (flags gptr) in
  let seg_id := segid gptr in
  let found :=
    if SHAREDMEM_ENABLE
    then mpi_win_base (globmem st)
           <$> dart_adapt_transtable_get_win (globmem st) seg_id
    else dart_adapt_transtable_get_selfbaseptr (globmem st) seg_id in
  match found with
  | None => (DART_ERR_INVAL, st)
  | Some sub_mem =>
      let attached := detach_region (win_attached st) (index, sub_mem) in
      match dart_adapt_transtable_remove (dart_transtable (globmem st))
                                         seg_id with
      | None =>
          (DART_ERR_INVAL,
           TeamMemState (globmem st) (dart_memid st) (dart_teamlist st)
                        attached)
      | Some table =>
          (DART_OK,
           TeamMemState
             (set_globmem_table (globmem st) table
                                (mpi_win_base (globmem st)))
             (dart_memid st) (dart_teamlist st) attached)
      end
  end.

(** Every segment of the table was numbered before the counter. *)
Definition segments_below_memid (st : team_mem_state) : Prop :=
  ∀ seg, is_Some (dart_transtable (globmem st) !! seg) → seg < dart_memid st.

(** A state to evaluate on: the local example, segment counter 4, the
    universal team 0 and team 7 in the team list. *)
Definition example_team_state : team_mem_state :=
  TeamMemState example_state 4 [Some 0; Some 7; None] [].

Definition example_alloc_env : mpi_alloc_env :=
  AllocEnv 2 12288 21 0 2 (λ i, 20000 + i) [12288; 16384].

(** **** Proofs *)

Lemma detach_region_last (attached : list (nat * Z)) (region : nat * Z) :
  region ∉ attached → detach_region (attached ++ [region]) region = attached.
Proof.
  induction attached as [|r attached IH]; intros Hfresh; simpl.
  - by rewrite decide_True.
  - apply not_elem_of_cons in Hfresh as [Hne Hfresh].
    rewrite decide_False by done. by rewrite IH.
Qed.

Lemma not_below_is_None (st : team_mem_state) :
  segments_below_memid st →
  dart_transtable (globmem st) !! dart_memid st = None.
Proof.
  intros Hbelow. apply eq_None_not_Some. intros Hsome.
  apply Hbelow in Hsome. lia.
Qed.

(** What a call for a team of the list returns, and the base
    [segment_base] names for the new segment afterwards, in either
    build. *)
Lemma memalloc_run (SHAREDMEM_ENABLE : bool) (env : mpi_alloc_env)
    (st : team_mem_state) (teamid nbytes : Z) (index : nat) :
  dart_adapt_teamlist_convert (dart_teamlist st) teamid = Some index →
  ∃ owner st',
    dart_team_memalloc_aligned SHAREDMEM_ENABLE env st teamid nbytes
    = (DART_OK, Some (Gptr owner (dart_memid st) (Z.of_nat index) 0), st')
    ∧ dart_memid st' = to_int16 (dart_memid st + 1)
    ∧ dart_mempool_localalloc (globmem st')
      = dart_mempool_localalloc (globmem st)
    ∧ (dart_memid st ≠ 0 →
       segment_base SHAREDMEM_ENABLE (globmem st') (dart_memid st)
       = Some (sub_mem env)).
Proof.
  intros Hindex. unfold dart_team_memalloc_aligned. rewrite Hindex.
  eexists _, _. split; [reflexivity|]. split; [done|]. split; [done|].
  intros Hseg. unfold segment_base. rewrite decide_False by done.
  unfold dart_adapt_transtable_get_win, dart_adapt_transtable_get_selfbaseptr,
    dart_adapt_transtable_add.
  destruct SHAREDMEM_ENABLE; cbn [dart_transtable set_globmem_table globmem
    seg_id mpi_win_base]; rewrite lookup_insert_eq; cbn [fmap option_fmap
    option_map win selfbaseptr]; [|done].
  by rewrite decide_True.
Qed.

(** X12. On a team of the team list, [dart_team_memalloc_aligned] returns
    [DART_OK] and a pointer at offset [0] of the segment numbered by
    [dart_memid], with the slot of the team in the flags, and advances
    [dart_memid] by one in [int16_t], wrapping around at [INT16_MAX]. A
    unit that sets the unit of the pointer to itself translates it, in
    either build, to the memory it allocated when [dart_memid] was not
    [0]; when it was [0], the pointer has segment [0] and translates to
    the start of the local pool instead. A unit other than the one named
    in the pointer gets [NULL] for the pointer as returned. For a team
    that is not in the list the call returns [DART_ERR_INVAL], stores no
    pointer and changes nothing. The allocated address is in the range of
    a pointer. *)
Theorem memalloc_then_getaddr (SHAREDMEM_ENABLE : bool)
    (env : mpi_alloc_env) (st : team_mem_state) (teamid nbytes : Z) :
  0 ≤ sub_mem env < 2 ^ 64 →
  match dart_adapt_teamlist_convert (dart_teamlist st) teamid with
  | Some index =>
      ∃ owner st',
        let gptr := Gptr owner (dart_memid st) (Z.of_nat index) 0 in
        dart_team_memalloc_aligned SHAREDMEM_ENABLE env st teamid nbytes
        = (DART_OK, Some gptr, st')
        ∧ dart_memid st' = to_int16 (dart_memid st + 1)
        ∧ dart_gptr_getaddr SHAREDMEM_ENABLE (globmem st')
            (GlobmemOps.dart_gptr_setunit gptr (dart_myid (globmem st'))).2
          = (DART_OK,
             Some (if decide (dart_memid st = 0)
                   then ptr_add (dart_mempool_localalloc (globmem st)) 0
                   else sub_mem env))
        ∧ (dart_myid (globmem st') ≠ owner →
           dart_gptr_getaddr SHAREDMEM_ENABLE (globmem st') gptr
           = (DART_OK, Some NULL))
  | None =>
      dart_team_memalloc_aligned SHAREDMEM_ENABLE env st teamid nbytes
      = (DART_ERR_INVAL, None, st)
  end.
Proof.
  intros Hmem.
  destruct (dart_adapt_teamlist_convert (dart_teamlist st) teamid)
    as [index|] eqn:Hindex.
  - destruct (memalloc_run SHAREDMEM_ENABLE env st teamid nbytes index
                Hindex) as (owner & st' & Hrun & Hnext & Hpool & Hbase).
    exists owner, st'. cbn zeta. split; [exact Hrun|]. split; [exact Hnext|].
    split.
    + destruct (decide (dart_memid st = 0)) as [Hzero|Hseg].
      * rewrite (GlobmemOps.getaddr_owner _ _ _
                   (dart_mempool_localalloc (globmem st))); [done|done|].
        cbn [snd GlobmemOps.dart_gptr_setunit segid]. unfold segment_base.
        rewrite decide_True by done. by rewrite Hpool.
      * rewrite (GlobmemOps.getaddr_owner _ _ _ (sub_mem env));
          [|done|by apply Hbase].
        cbn [snd GlobmemOps.dart_gptr_setunit offset]. unfold ptr_add.
        rewrite Z.add_0_r. by rewrite GlobmemOps.to_size_t_id.
    + intros Hother. unfold dart_gptr_getaddr. cbn [unitid].
      by rewrite decide_False.
  - unfold dart_team_memalloc_aligned. by rewrite Hindex.
Qed.

(** X13. When every segment of the table was numbered before the counter,
    the counter is neither [0] nor [INT16_MAX] and the memory allocated is
    not attached to the window of the team already, a segment
    [dart_team_memalloc_aligned] creates is new, and the segments of the
    table afterwards are numbered before the counter again. Freeing the
    pointer it returned with [dart_team_memfree] gives back the table and
    the attached memory as they were before the allocation, but not the
    counter: the number of the segment is not used again, and the pointer
    no longer translates. *)
Theorem memfree_of_memalloc (SHAREDMEM_ENABLE : bool)
    (env : mpi_alloc_env) (st st1 : team_mem_state) (teamid nbytes : Z)
    (gptr : dart_gptr_t) :
  segments_below_memid st →
  dart_memid st ≠ 0 →
  - 2 ^ 15 ≤ dart_memid st < INT16_MAX →
  (Z.to_nat (flags gptr), sub_mem env) ∉ win_attached st →
  dart_team_memalloc_aligned SHAREDMEM_ENABLE env st teamid nbytes
  = (DART_OK, Some gptr, st1) →
  segments_below_memid st1
  ∧ dart_transtable (globmem st) !! segid gptr = None
  ∧ ∃ st2,
      dart_team_memfree SHAREDMEM_ENABLE st1 teamid gptr = (DART_OK, st2)
      ∧ dart_transtable (globmem st2) = dart_transtable (globmem st)
      ∧ win_attached st2 = win_attached st
      ∧ dart_memid st2 = dart_memid st + 1
      ∧ segments_below_memid st2
      ∧ dart_gptr_getaddr SHAREDMEM_ENABLE (globmem st2)
          (GlobmemOps.dart_gptr_setunit gptr (dart_myid (globmem st2))).2
        = (DART_ERR_INVAL, None).
Proof.
  intros Hbelow Hseg Hrange Hfresh Hrun.
  pose proof (not_below_is_None st Hbelow) as Hnew.
  assert (to_int16 (dart_memid st + 1) = dart_memid st + 1) as Hnext.
  { unfold to_int16, INT16_MAX in *. rewrite Z.mod_small; lia. }
  unfold dart_team_memalloc_aligned in Hrun. rewrite Hnext in Hrun.
  destruct (dart_adapt_teamlist_convert _ _) as [index|]; [|done].
  injection Hrun as <- <-. cbn [segid flags] in *.
  rewrite Nat2Z.id in Hfresh.
  unfold dart_team_memfree, dart_adapt_transtable_get_win,
    dart_adapt_transtable_get_selfbaseptr, dart_adapt_transtable_remove,
    dart_adapt_transtable_add.
  destruct SHAREDMEM_ENABLE;
    cbn [segid flags globmem win_attached dart_memid dart_teamlist
         dart_transtable set_globmem_table seg_id mpi_win_base];
    rewrite Nat2Z.id, !lookup_insert_eq;
    cbn [fmap option_fmap option_map win selfbaseptr];
    rewrite ?decide_True by done;
    rewrite delete_insert_id by done;
    rewrite detach_region_last by done.
  all: split; [|split; [exact Hnew|]].
  all: try (intros seg; unfold segments_below_memid;
            cbn [globmem dart_transtable set_globmem_table dart_memid];
            rewrite lookup_insert_is_Some; intros [<-|[_ Hold]];
            [lia|apply Hbelow in Hold; lia]).
  all: eexists; split; [reflexivity|].
  all: cbn [globmem dart_transtable set_globmem_table win_attached
            dart_memid].
  all: split; [done|]; split; [done|]; split; [done|]; split.
  all: try (intros seg Hsome; apply Hbelow in Hsome; cbn [dart_memid]; lia).
  all: unfold dart_gptr_getaddr, dart_adapt_transtable_get_win,
         dart_adapt_transtable_get_selfbaseptr.
  all: cbn [snd GlobmemOps.dart_gptr_setunit unitid segid offset dart_myid
            set_globmem_table dart_transtable].
  all: rewrite decide_True by done; rewrite decide_True by done.
  all: by rewrite Hnew.
Qed.


Lemma memalloc_then_getaddr_witness :
  ∃ st',
    dart_team_memalloc_aligned false example_alloc_env example_team_state
                               7 256
    = (DART_OK, Some (Gptr 2 4 1 0), st')
    ∧ dart_memid st' = 5
    ∧ dart_gptr_getaddr false (globmem st') (Gptr 1 4 1 0)
      = (DART_OK, Some 12288).
Proof.
  pose proof (memalloc_then_getaddr false example_alloc_env
                example_team_state 7 256) as Hspec.
  change (dart_adapt_teamlist_convert (dart_teamlist example_team_state) 7)
    with (Some 1%nat) in Hspec.
  destruct Hspec as (owner & st' & Hrun & Hnext & Hget & _).
  - vm_compute. split; [discriminate|reflexivity].
  - exists st'. cbn zeta in Hrun.
    assert (owner = 2 ∧ dart_myid (globmem st') = 1) as [-> Hme].
    { vm_compute in Hrun. by injection Hrun as <- <-. }
    split; [exact Hrun|]. split; [exact Hnext|].
    rewrite Hme in Hget. exact Hget.
Defined.

Lemma memfree_of_memalloc_witness :
  ∃ st1 st2,
    dart_team_memalloc_aligned true example_alloc_env example_team_state
                               7 256
    = (DART_OK, Some (Gptr 2 4 1 0), st1)
    ∧ dart_team_memfree true st1 7 (Gptr 2 4 1 0) = (DART_OK, st2)
    ∧ dart_transtable (globmem st2)
      = dart_transtable (globmem example_team_state)
    ∧ dart_memid st2 = 5.
Proof.
  assert (∃ st1,
            dart_team_memalloc_aligned true example_alloc_env
                                       example_team_state 7 256
            = (DART_OK, Some (Gptr 2 4 1 0), st1)) as [st1 Hrun]
    by (eexists; reflexivity).
  exists st1.
  destruct (memfree_of_memalloc true example_alloc_env example_team_state
              st1 7 256 (Gptr 2 4 1 0))
    as (_ & _ & st2 & Hfree & Htable & _ & Hid & _);
    [| | | |exact Hrun|].
  - intros seg [item Hitem].
    destruct (decide (seg = 3)) as [->|Hne]; [vm_compute; reflexivity|].
    unfold example_team_state, example_state in Hitem.
    cbn [globmem dart_transtable] in Hitem.
    by rewrite lookup_singleton_ne in Hitem.
  - vm_compute. lia.
  - vm_compute. split; [discriminate|reflexivity].
  - compute_done.
  - exists st2. split; [exact Hrun|]. split; [exact Hfree|].
    split; [exact Htable|exact Hid].
Defined.

(** With the counter at [0], its initial value as a variable of static
    storage, the pointer has segment [0]: the owner translates it to the
    local pool, at 4096 here, not to the memory allocated at 12288,
    and still does so after [dart_team_memfree]. *)
Example memalloc_segment_zero :
  let st0 := TeamMemState example_state 0 [Some 0; Some 7; None] [] in
  let '(ret, gptr, st1) :=
    dart_team_memalloc_aligned false example_alloc_env st0 0 256 in
  gptr = Some (Gptr 0 0 0 0)
  ∧ dart_gptr_getaddr false (globmem st1) (Gptr 1 0 0 0)
    = (DART_OK, Some 4096)
  ∧ dart_gptr_getaddr false
      (globmem (dart_team_memfree false st1 0 (Gptr 0 0 0 0)).2)
      (Gptr 1 0 0 0)
    = (DART_OK, Some 4096).
Proof. by repeat split. Qed.

(** At [INT16_MAX] the counter wraps around, and the new segment is no
    longer numbered before it. *)
Example memalloc_counter_wraps :
  let st0 := TeamMemState example_state INT16_MAX [Some 0; Some 7; None] [] in
  let '(ret, gptr, st1) :=
    dart_team_memalloc_aligned false example_alloc_env st0 7 256 in
  ret = DART_OK
  ∧ gptr = Some (Gptr 2 32767 1 0)
  ∧ dart_memid st1 = - 2 ^ 15.
Proof. by repeat split. Qed.


End TeamMem.

(** ** More of [dart_team_group.c]: the registry across calls *)

Module TeamRegistry.

Import TeamGroup.

Section Registry.

(** Constants of [dart_types.h], which is not part of the sources at
    hand. *)
Variable DART_TEAM_MAX : Z.
Variable DART_TEAM_NULL : Z.
Variable DART_TEAM_ALL : Z.

(** What [gaspi_proc_rank] and [gaspi_proc_num] answer. *)
Record gaspi_proc : Type := Proc {
  proc_rank_ret : dart_ret_t;
  proc_rank : Z;
  proc_num_ret : dart_ret_t;
  proc_num : Z
}.

(** The functions return the code and the value stored through the
    pointer argument, [None] when nothing is stored. *)
Definition dart_myid (proc : gaspi_proc) : dart_ret_t * option Z :=
  if decide (proc_rank_ret proc = DART_OK)
  then (DART_OK, Some (proc_rank proc))
  else (proc_rank_ret proc, None).

Definition dart_size (proc : gaspi_proc) : dart_ret_t * option Z :=
  if decide (proc_num_ret proc = DART_OK)
  then (DART_OK, Some (proc_num proc))
  else (proc_num_ret proc, None).

Definition dart_team_get_group (st : dart_state) (teamid : Z)
    : option (dart_ret_t * option dart_group_struct) :=
  match dart_adapt_teamlist_convert (dart_teams st) teamid with
  | None => Some (DART_ERR_INVAL, None)
  | Some index =>
      slot ← dart_teams st !! index;
      Some (DART_OK, Some (group slot))
  end.

Definition dart_team_size (proc : gaspi_proc) (st : dart_state) (teamid : Z)
    : option (dart_ret_t * option Z) :=
  if decide (teamid = DART_TEAM_ALL) then Some (dart_size proc)
  else
    match dart_adapt_teamlist_convert (dart_teams st) teamid with
    | None => Some (DART_ERR_INVAL, None)
    | Some index =>
        slot ← dart_teams st !! index;
        Some (DART_OK, Some (nmem (group slot)))
    end.

(** [l2g[localid.id]] and [g2l[globalid.id]] are plain array accesses:
    [None] outside the array. *)
Definition dart_team_unit_l2g (st : dart_state) (teamid localid : Z)
    : option (dart_ret_t * option Z) :=
  match dart_adapt_teamlist_convert (dart_teams st) teamid with
  | None => Some (DART_ERR_INVAL, None)
  | Some index =>
      slot ← dart_teams st !! index;
      globalid ← vec_at (l2g (group slot)) localid;
      Some (DART_OK, Some globalid)
  end.

Definition dart_team_unit_g2l (st : dart_state) (teamid globalid : Z)
    : option (dart_ret_t * option Z) :=
  if decide (teamid = DART_TEAM_ALL) then Some (DART_OK, Some globalid)
  else
    match dart_adapt_teamlist_convert (dart_teams st) teamid with
    | None => Some (DART_ERR_INVAL, None)
    | Some index =>
        slot ← dart_teams st !! index;
        localid ← vec_at (g2l (group slot)) globalid;
        Some (DART_OK, Some localid)
    end.

Definition dart_team_myid (proc : gaspi_proc) (st : dart_state) (teamid : Z)
    : option (dart_ret_t * option Z) :=
  match dart_myid proc with
  | (DART_OK, Some global_myid) => dart_team_unit_g2l st teamid global_myid
  | (err, _) => Some (err, None)
  end.

(** Modelled from the spec: [dart_adapt_teamlist_recycle]
    ([dart_team_private.c]) makes the slot free. *)
Definition dart_adapt_teamlist_recycle (teams : list dart_team_struct)
    (index : nat) : list dart_team_struct :=
  alter (λ slot, Team None (id slot) (group slot)) index teams.

(** [group_delete_ret] is what [gaspi_group_delete] answers. The slot is
    recycled before the group is deleted. *)
Definition dart_team_destroy (group_delete_ret : dart_ret_t)
    (st : dart_state) (teamid : Z) : dart_ret_t * dart_state :=
  match dart_adapt_teamlist_convert (dart_teams st) teamid with
  | None => (DART_ERR_INVAL, st)
  | Some index =>
      let st := set_teams st (dart_adapt_teamlist_recycle (dart_teams st)
                                                          index) in
      if decide (group_delete_ret = DART_OK) then (DART_OK, st)
      else (group_delete_ret, st)
  end.

(** The answers of the transport during a second creation, after the one
    of [example_env]. *)
Definition example_env_second : gaspi_env :=
  Env 0 DART_OK [3; 3; 3] DART_OK [1; 1; 1] DART_OK
      [(DART_OK, 1); (DART_OK, 2)] (λ _, DART_OK) DART_OK.

(** The team ids bound in the registry. *)
Definition bound_teams (teams : list dart_team_struct) : list Z :=
  omap team_bound teams.

(** No id is bound twice, and every bound id is below the counter. *)
Definition registry_fresh (st : dart_state) : Prop :=
  NoDup (bound_teams (dart_teams st))
  ∧ Forall (λ t, t < dart_next_availteamid st) (bound_teams (dart_teams st)).

(** **** Proofs *)

Lemma bound_teams_cons (slot : dart_team_struct)
    (teams : list dart_team_struct) :
  bound_teams (slot :: teams)
  = match team_bound slot with
    | Some t => t :: bound_teams teams
    | None => bound_teams teams
    end.
Proof. reflexivity. Qed.

Lemma bound_teams_bind (teams : list dart_team_struct) (i : nat)
    (slot slot' : dart_team_struct) (t : Z) :
  teams !! i = Some slot → team_bound slot = None →
  team_bound slot' = Some t →
  bound_teams (<[i := slot']> teams) ≡ₚ t :: bound_teams teams.
Proof.
  revert i. induction teams as [|s teams IH]; intros i Hi Hfree Hbound;
    [done|].
  destruct i as [|i]; simpl in Hi.
  - injection Hi as ->. cbn [insert list_insert].
    by rewrite !bound_teams_cons, Hfree, Hbound.
  - cbn [insert list_insert]. rewrite !bound_teams_cons.
    destruct (team_bound s) as [u|].
    + rewrite (IH i Hi Hfree Hbound). apply perm_swap.
    + by apply IH.
Qed.

Lemma bound_teams_recycle (teams : list dart_team_struct) (i : nat)
    (slot : dart_team_struct) (t : Z) :
  teams !! i = Some slot → team_bound slot = Some t →
  bound_teams teams
  ≡ₚ t :: bound_teams (dart_adapt_teamlist_recycle teams i).
Proof.
  unfold dart_adapt_teamlist_recycle.
  revert i. induction teams as [|s teams IH]; intros i Hi Hbound; [done|].
  destruct i as [|i]; simpl in Hi.
  - injection Hi as ->. cbn [alter list_alter].
    by rewrite !bound_teams_cons, Hbound.
  - cbn [alter list_alter]. rewrite !bound_teams_cons.
    destruct (team_bound s) as [u|].
    + rewrite (IH i Hi Hbound). apply perm_swap.
    + by apply IH.
Qed.

Lemma elem_of_bound_teams (teams : list dart_team_struct) (t : Z) :
  t ∈ bound_teams teams
  ↔ ∃ slot, slot ∈ teams ∧ team_bound slot = Some t.
Proof. unfold bound_teams. apply list_elem_of_omap. Qed.

Lemma group_create_loop_error (replies : list (dart_ret_t * Z))
    (new gaspi_group_max : Z) (err : dart_ret_t) :
  group_create_loop replies new gaspi_group_max = Some (inl err) →
  err ≠ DART_OK.
Proof.
  revert new. induction replies as [|[r g] rs IH]; intros new; simpl.
  - by destruct (decide (new ≤ gaspi_group_max)).
  - destruct (decide (new ≤ gaspi_group_max)); [|done].
    destruct (decide (r = DART_OK)); [apply IH|congruence].
Qed.

Lemma group_add_loop_error (add_ret : Z → dart_ret_t) (members : list Z)
    (err : dart_ret_t) :
  group_add_loop add_ret members = Some err → err ≠ DART_OK.
Proof.
  induction members as [|m ms IH]; simpl; [done|].
  destruct (decide (add_ret m = DART_OK)); [done|congruence].
Qed.

(** What the member's part does to the registry. *)
Lemma team_create_member_teams (env : gaspi_env) (st : dart_state)
    (new_group : dart_group_struct) (max_teamid gaspi_group_max : Z)
    (ret : dart_ret_t) (st' : dart_state) (newteam : option Z) :
  team_create_member DART_TEAM_NULL env st new_group max_teamid
                     gaspi_group_max = Some (ret, st', newteam) →
  dart_next_availteamid st' = dart_next_availteamid st
  ∧ ((ret ≠ DART_OK ∧ dart_teams st' = dart_teams st)
     ∨ (ret = DART_OK ∧ newteam = Some max_teamid
        ∧ ∃ (i : nat) (slot : dart_team_struct) (gaspi_group : Z),
            dart_teams st !! i = Some slot ∧ team_bound slot = None
            ∧ dart_teams st'
              = <[i := Team (Some max_teamid) gaspi_group new_group]>
                  (dart_teams st))).
Proof.
  unfold team_create_member. intros Hrun.
  destruct (group_create_loop _ _ _) as [[err|new_gaspi_group]|] eqn:Hloop;
    [| |done].
  { injection Hrun as <- <- <-. split; [done|]. left.
    split; [by eapply group_create_loop_error|done]. }
  destruct (group_add_loop _ _) as [err|] eqn:Hadd.
  { injection Hrun as <- <- <-. split; [done|]. left.
    split; [by eapply group_add_loop_error|done]. }
  destruct (decide (group_commit_ret env = DART_OK)) as [Hcommit|Hcommit].
  - unfold dart_adapt_teamlist_alloc in Hrun.
    cbn [dart_teams set_group_id_top] in Hrun.
    destruct (list_find _ (dart_teams st)) as [[i slot]|] eqn:Hfind.
    + cbn [mbind option_bind] in Hrun. injection Hrun as <- <- <-.
      apply list_find_Some in Hfind as (Hi & Hfree & _).
      split; [done|]. right. split; [done|]. split; [done|].
      exists i, slot, new_gaspi_group. split; [done|]. split; [done|].
      cbn [dart_teams set_teams]. apply list_insert_insert_eq.
    + cbn [mbind option_bind] in Hrun. injection Hrun as <- <- <-.
      split; [done|]. by left.
  - injection Hrun as <- <- <-. split; [done|]. by left.
Qed.

(** What a call does to the counter and the registry. *)
Lemma team_create_effect (env : gaspi_env) (st : dart_state) (teamid : Z)
    (new_group : dart_group_struct)
    (ret : dart_ret_t) (st' : dart_state) (newteam : option Z) :
  dart_team_create DART_TEAM_MAX DART_TEAM_NULL env st teamid new_group
  = Some (ret, st', newteam) →
  dart_next_availteamid st ≤ dart_next_availteamid st'
  ∧ ((dart_teams st' = dart_teams st
      ∧ (ret = DART_OK → newteam = None))
     ∨ (ret = DART_OK
        ∧ ∃ (t : Z) (i : nat) (slot : dart_team_struct) (gaspi_group : Z),
            newteam = Some t
            ∧ dart_next_availteamid st ≤ t
            ∧ dart_next_availteamid st' = t + 1
            ∧ dart_teams st !! i = Some slot ∧ team_bound slot = None
            ∧ dart_teams st'
              = <[i := Team (Some t) gaspi_group new_group]>
                  (dart_teams st))).
Proof.
  unfold dart_team_create. intros Hrun.
  pose proof (allreduce_max_ge_own (dart_next_availteamid st)
                (peer_next_availteamid env)) as Hge.
  set (max_teamid := allreduce_max (dart_next_availteamid st)
                                   (peer_next_availteamid env)) in *.
  destruct (decide (gaspi_proc_num_ret env = DART_OK));
    [|injection Hrun as <- <- <-; split; [lia|]; left; by split].
  destruct (dart_adapt_teamlist_convert _ _);
    [|injection Hrun as <- <- <-; split; [lia|]; by left].
  destruct (decide (allreduce_teamid_ret env = DART_OK));
    [|injection Hrun as <- <- <-; split; [lia|]; left; by split].
  destruct (decide (max_teamid = DART_TEAM_MAX)); [done|].
  destruct (decide (allreduce_group_ret env = DART_OK));
    [|injection Hrun as <- <- <-; cbn [dart_next_availteamid
        set_next_availteamid]; split; [lia|]; left; by split].
  destruct (dart_group_ismember new_group (gaspi_proc_rank env)).
  - apply team_create_member_teams in Hrun as [Hnext Hteams].
    cbn [dart_next_availteamid set_next_availteamid dart_teams] in *.
    split; [lia|].
    destruct Hteams as [[Herr Hsame]|(-> & -> & i & slot & g & Hi & Hfree & Hnew)].
    + left. by split.
    + right. split; [done|]. exists max_teamid, i, slot, g.
      repeat split; first [done|lia].
  - injection Hrun as <- <- <-.
    cbn [dart_next_availteamid set_next_availteamid]. split; [lia|].
    left. by split.
Qed.

(** X15. [dart_team_create] keeps the registry in order: when no team id
    is bound to two slots and every bound id is below
    [dart_next_availteamid], the same holds after the call, whatever it
    returns; the id of a team it creates was not bound before and is bound
    afterwards, and the counter never goes down. *)
Theorem team_create_keeps_registry_fresh (env : gaspi_env)
    (st : dart_state) (teamid : Z) (new_group : dart_group_struct)
    (ret : dart_ret_t) (st' : dart_state) (newteam : option Z) :
  registry_fresh st →
  dart_team_create DART_TEAM_MAX DART_TEAM_NULL env st teamid new_group
  = Some (ret, st', newteam) →
  registry_fresh st'
  ∧ dart_next_availteamid st ≤ dart_next_availteamid st'
  ∧ ∀ t, ret = DART_OK → newteam = Some t →
      (t ∉ bound_teams (dart_teams st)) ∧ t ∈ bound_teams (dart_teams st').
Proof.
  intros [Hnd Hbelow] Hrun.
  apply team_create_effect in Hrun as [Hnext Hteams].
  destruct Hteams
    as [[Hsame Hnone]
       |(-> & t & i & slot & g & -> & Hlow & Hnext' & Hi & Hfree & Hnew)].
  - split; [|split; [done|]].
    + unfold registry_fresh. rewrite Hsame. split; [done|].
      eapply Forall_impl; [exact Hbelow|]. simpl. intros u Hu. lia.
    + intros t Hok Hsome. specialize (Hnone Hok). congruence.
  - assert (t ∉ bound_teams (dart_teams st)) as Hfresh.
    { intros Hin. rewrite Forall_forall in Hbelow.
      specialize (Hbelow t Hin). lia. }
    pose proof (bound_teams_bind (dart_teams st) i slot
                  (Team (Some t) g new_group) t Hi Hfree eq_refl) as Hperm.
    rewrite <- Hnew in Hperm.
    split; [|split; [done|]].
    + unfold registry_fresh. rewrite Hperm. split.
      * by apply NoDup_cons.
      * apply Forall_cons. split; [lia|].
        eapply Forall_impl; [exact Hbelow|]. simpl. intros u Hu. lia.
    + intros t' _ Ht. injection Ht as <-. split; [done|].
      rewrite Hperm. by left.
Qed.

Lemma convert_bound (teams : list dart_team_struct) (i : nat)
    (slot : dart_team_struct) (t gaspi_group : Z)
    (new_group : dart_group_struct) :
  teams !! i = Some slot → t ∉ bound_teams teams →
  dart_adapt_teamlist_convert
    (<[i := Team (Some t) gaspi_group new_group]> teams) t = Some i.
Proof.
  intros Hi Hfresh. unfold dart_adapt_teamlist_convert.
  apply fmap_Some. exists (i, Team (Some t) gaspi_group new_group).
  split; [|done]. apply list_find_Some. split.
  { apply list_lookup_insert_eq. by eapply lookup_lt_Some. }
  split; [done|]. intros j y Hj Hlt Hy.
  rewrite list_lookup_insert_ne in Hj by lia.
  apply Hfresh, elem_of_bound_teams. exists y. split; [|done].
  by eapply list_elem_of_lookup_2.
Qed.

Lemma list_find_recycle_other (teams : list dart_team_struct) (i : nat)
    (slot : dart_team_struct) (teamid other : Z) :
  teams !! i = Some slot → team_bound slot = Some teamid →
  other ≠ teamid →
  list_find (λ slot, team_bound slot = Some other)
            (dart_adapt_teamlist_recycle teams i)
  = list_find (λ slot, team_bound slot = Some other) teams.
Proof.
  unfold dart_adapt_teamlist_recycle.
  revert i. induction teams as [|s teams IH]; intros i Hi Hbound Hne;
    [done|].
  destruct i as [|i]; simpl in Hi.
  - injection Hi as ->. cbn [alter list_alter list_find].
    destruct (decide (team_bound (Team None (id slot) (group slot))
                      = Some other)) as [Hnone|_]; [done|].
    destruct (decide (team_bound slot = Some other)); [congruence|done].
  - cbn [alter list_alter list_find].
    destruct (decide (team_bound s = Some other)); [done|].
    f_equal. by apply IH.
Qed.

Lemma lookup_recycle_ne (teams : list dart_team_struct) (i j : nat) :
  i ≠ j → dart_adapt_teamlist_recycle teams i !! j = teams !! j.
Proof. intros Hne. by apply list_lookup_alter_ne. Qed.

Lemma convert_unbound (teams : list dart_team_struct) (t : Z) :
  t ∉ bound_teams teams → dart_adapt_teamlist_convert teams t = None.
Proof.
  intros Hfresh. unfold dart_adapt_teamlist_convert.
  apply fmap_None, list_find_None, Forall_forall. intros slot Hin Hbound.
  apply Hfresh, elem_of_bound_teams. by exists slot.
Qed.

Lemma convert_Some_lookup (teams : list dart_team_struct) (t : Z)
    (i : nat) :
  dart_adapt_teamlist_convert teams t = Some i →
  ∃ slot, teams !! i = Some slot ∧ team_bound slot = Some t.
Proof.
  unfold dart_adapt_teamlist_convert. intros Hfind.
  apply fmap_Some in Hfind as ([j slot] & Hfind & ->).
  apply list_find_Some in Hfind as (Hj & Hbound & _). by exists slot.
Qed.

(** X16. A team that [dart_team_create] has just created on a registry in
    order can be looked up under the id returned: [dart_team_get_group]
    gives the group handed in, [dart_team_size] its number of members,
    [dart_team_unit_l2g] and [dart_team_unit_g2l] the entries of its two
    tables, [dart_team_myid] the caller's entry of [g2l]. The lookups
    that treat [DART_TEAM_ALL] apart need the new id to differ from
    it. *)
Theorem team_create_then_lookup (env : gaspi_env) (proc : gaspi_proc)
    (st : dart_state) (teamid : Z) (new_group : dart_group_struct)
    (st' : dart_state) (newteam : Z) :
  registry_fresh st →
  dart_team_create DART_TEAM_MAX DART_TEAM_NULL env st teamid new_group
  = Some (DART_OK, st', Some newteam) →
  dart_team_get_group st' newteam = Some (DART_OK, Some new_group)
  ∧ (∀ localid,
       dart_team_unit_l2g st' newteam localid
       = (λ globalid, (DART_OK, Some globalid))
           <$> vec_at (l2g new_group) localid)
  ∧ (newteam ≠ DART_TEAM_ALL →
     dart_team_size proc st' newteam
     = Some (DART_OK, Some (nmem new_group))
     ∧ (∀ globalid,
          dart_team_unit_g2l st' newteam globalid
          = (λ localid, (DART_OK, Some localid))
              <$> vec_at (g2l new_group) globalid)
     ∧ (proc_rank_ret proc = DART_OK →
        dart_team_myid proc st' newteam
        = (λ localid, (DART_OK, Some localid))
            <$> vec_at (g2l new_group) (proc_rank proc))).
Proof.
  intros [Hnd Hbelow] Hrun.
  apply team_create_effect in Hrun as [Hnext Hteams].
  destruct Hteams
    as [[_ Hnone]
       |(_ & t & i & slot & g & Ht & Hlow & Hnext' & Hi & Hfree & Hnew)];
    [by specialize (Hnone eq_refl)|].
  injection Ht as <-.
  assert (newteam ∉ bound_teams (dart_teams st)) as Hfresh.
  { intros Hin. rewrite Forall_forall in Hbelow.
    specialize (Hbelow newteam Hin). lia. }
  pose proof (convert_bound (dart_teams st) i slot newteam g new_group
                Hi Hfresh) as Hconv.
  rewrite <- Hnew in Hconv.
  assert (dart_teams st' !! i = Some (Team (Some newteam) g new_group))
    as Hslot.
  { rewrite Hnew. apply list_lookup_insert_eq. by eapply lookup_lt_Some. }
  unfold dart_team_get_group, dart_team_unit_l2g, dart_team_size,
    dart_team_myid, dart_team_unit_g2l, dart_myid.
  rewrite Hconv, Hslot. cbn [mbind option_bind group].
  split; [done|]. split.
  { intros localid. by destruct (vec_at (l2g new_group) localid). }
  intros Hall.
  destruct (decide (newteam = DART_TEAM_ALL)); [done|].
  split; [done|]. split.
  { intros globalid. by destruct (vec_at (g2l new_group) globalid). }
  intros Hrank. destruct (decide (proc_rank_ret proc = DART_OK)); [|done].
  by destruct (vec_at (g2l new_group) (proc_rank proc)).
Qed.

(** X17. [dart_team_destroy] of a team the registry of which is in order
    returns what [gaspi_group_delete] answers, and, also when that is an
    error, leaves the id unbound: a lookup of it gives [DART_ERR_INVAL]
    afterwards. Every other team resolves as before, the registry is
    still in order and the counter is untouched. *)
Theorem team_destroy_unbinds (group_delete_ret : dart_ret_t)
    (st : dart_state) (teamid : Z) (index : nat) :
  registry_fresh st →
  dart_adapt_teamlist_convert (dart_teams st) teamid = Some index →
  let '(ret, st') := dart_team_destroy group_delete_ret st teamid in
  ret = group_delete_ret
  ∧ dart_team_get_group st' teamid = Some (DART_ERR_INVAL, None)
  ∧ (∀ other, other ≠ teamid →
       dart_team_get_group st' other = dart_team_get_group st other)
  ∧ registry_fresh st'
  ∧ dart_next_availteamid st' = dart_next_availteamid st.
Proof.
  intros [Hnd Hbelow] Hconv. unfold dart_team_destroy. rewrite Hconv.
  destruct (convert_Some_lookup _ _ _ Hconv) as (slot & Hi & Hbound).
  pose proof (bound_teams_recycle _ _ _ _ Hi Hbound) as Hperm.
  rewrite Hperm in Hnd, Hbelow.
  apply NoDup_cons in Hnd as [Hgone Hnd].
  apply Forall_cons in Hbelow as [_ Hbelow].
  set (st' := set_teams st
                (dart_adapt_teamlist_recycle (dart_teams st) index)).
  assert (dart_team_get_group st' teamid = Some (DART_ERR_INVAL, None)
          ∧ (∀ other, other ≠ teamid →
               dart_team_get_group st' other = dart_team_get_group st other)
          ∧ registry_fresh st'
          ∧ dart_next_availteamid st' = dart_next_availteamid st)
    as Hrest.
  { split; [|split; [|split; [by split|done]]].
    - unfold dart_team_get_group. subst st'. cbn [dart_teams set_teams].
      by rewrite convert_unbound.
    - intros other Hne. unfold dart_team_get_group,
        dart_adapt_teamlist_convert. subst st'. cbn [dart_teams set_teams].
      rewrite (list_find_recycle_other _ _ _ _ _ Hi Hbound Hne).
      destruct (list_find _ (dart_teams st)) as [[j y]|] eqn:Hfind;
        [|done].
      cbn [fmap option_fmap option_map fst].
      apply list_find_Some in Hfind as (Hj & Hy & _).
      rewrite lookup_recycle_ne; [done|]. intros <-. congruence. }
  by destruct (decide (group_delete_ret = DART_OK)) as [->|].
Qed.

(** X18. Team ids are not handed out twice: when [dart_team_create]
    returns a new team, and later, after a [dart_team_destroy] of any
    team, returns another one, the second id is above the first, so also
    the id of a destroyed team does not come back. *)
Theorem team_ids_not_reused (env1 env2 : gaspi_env) (st st1 st3 : dart_state)
    (parent1 parent2 destroyed : Z) (group1 group2 : dart_group_struct)
    (group_delete_ret : dart_ret_t) (team1 team2 : Z) :
  dart_team_create DART_TEAM_MAX DART_TEAM_NULL env1 st parent1 group1
  = Some (DART_OK, st1, Some team1) →
  dart_team_create DART_TEAM_MAX DART_TEAM_NULL env2
    (dart_team_destroy group_delete_ret st1 destroyed).2 parent2 group2
  = Some (DART_OK, st3, Some team2) →
  team1 < team2.
Proof.
  intros Hrun1 Hrun2.
  apply team_create_effect in Hrun1 as [_ Hteams1].
  apply team_create_effect in Hrun2 as [_ Hteams2].
  destruct Hteams1
    as [[_ Hnone]|(_ & t1 & _ & _ & _ & Ht1 & _ & Hnext1 & _)];
    [by specialize (Hnone eq_refl)|].
  destruct Hteams2
    as [[_ Hnone]|(_ & t2 & _ & _ & _ & Ht2 & Hlow2 & _)];
    [by specialize (Hnone eq_refl)|].
  injection Ht1 as <-. injection Ht2 as <-.
  assert (dart_next_availteamid
            (dart_team_destroy group_delete_ret st1 destroyed).2
          = dart_next_availteamid st1) as Hsame.
  { unfold dart_team_destroy.
    destruct (dart_adapt_teamlist_convert _ _); [|done].
    by destruct (decide (group_delete_ret = DART_OK)). }
  lia.
Qed.

End Registry.

Lemma example_state_fresh : registry_fresh example_state.
Proof.
  split.
  - apply NoDup_singleton.
  - apply Forall_singleton. reflexivity.
Qed.

Lemma team_create_keeps_registry_fresh_witness :
  ∃ st',
    dart_team_create (2 ^ 31 - 1) (-1) example_env example_state 0
                     (Group 2 [0; 2] [0; -1; 1; -1])
    = Some (DART_OK, st', Some 2)
    ∧ registry_fresh st'
    ∧ (2 ∉ bound_teams (dart_teams example_state))
    ∧ 2 ∈ bound_teams (dart_teams st').
Proof.
  assert (∃ st',
            dart_team_create (2 ^ 31 - 1) (-1) example_env example_state 0
                             (Group 2 [0; 2] [0; -1; 1; -1])
            = Some (DART_OK, st', Some 2)) as [st' Hrun]
    by (eexists; reflexivity).
  destruct (team_create_keeps_registry_fresh (2 ^ 31 - 1) (-1)
              example_env example_state 0 (Group 2 [0; 2] [0; -1; 1; -1])
              DART_OK st' (Some 2) example_state_fresh Hrun)
    as (Hfresh & _ & Hnew).
  destruct (Hnew 2 eq_refl eq_refl) as [Hout Hin].
  by exists st'.
Defined.

Lemma team_create_then_lookup_witness :
  ∃ st',
    dart_team_create (2 ^ 31 - 1) (-1) example_env example_state 0
                     (Group 2 [0; 2] [0; -1; 1; -1])
    = Some (DART_OK, st', Some 2)
    ∧ dart_team_get_group st' 2
      = Some (DART_OK, Some (Group 2 [0; 2] [0; -1; 1; -1]))
    ∧ dart_team_unit_l2g st' 2 1 = Some (DART_OK, Some 2)
    ∧ dart_team_size 0 (Proc DART_OK 2 DART_OK 4) st' 2
      = Some (DART_OK, Some 2)
    ∧ dart_team_unit_g2l 0 st' 2 2 = Some (DART_OK, Some 1)
    ∧ dart_team_myid 0 (Proc DART_OK 2 DART_OK 4) st' 2
      = Some (DART_OK, Some 1).
Proof.
  assert (∃ st',
            dart_team_create (2 ^ 31 - 1) (-1) example_env example_state 0
                             (Group 2 [0; 2] [0; -1; 1; -1])
            = Some (DART_OK, st', Some 2)) as [st' Hrun]
    by (eexists; reflexivity).
  destruct (team_create_then_lookup (2 ^ 31 - 1) (-1) 0 example_env
              (Proc DART_OK 2 DART_OK 4) example_state 0
              (Group 2 [0; 2] [0; -1; 1; -1]) st' 2
              example_state_fresh Hrun)
    as (Hgroup & Hl2g & Hrest).
  destruct Hrest as (Hsize & Hg2l & Hmyid); [done|].
  exists st'. split; [done|]. split; [done|].
  split; [exact (Hl2g 1)|]. split; [done|].
  split; [exact (Hg2l 2)|]. by apply Hmyid.
Defined.

Lemma team_destroy_unbinds_witness :
  let '(ret, st') := dart_team_destroy DART_ERR_OTHER example_state 0 in
  ret = DART_ERR_OTHER
  ∧ dart_team_get_group st' 0 = Some (DART_ERR_INVAL, None)
  ∧ (∀ other, other ≠ 0 →
       dart_team_get_group st' other
       = dart_team_get_group example_state other)
  ∧ registry_fresh st'
  ∧ dart_next_availteamid st' = dart_next_availteamid example_state.
Proof.
  apply (team_destroy_unbinds DART_ERR_OTHER example_state 0 0%nat).
  - exact example_state_fresh.
  - reflexivity.
Defined.

Lemma team_ids_not_reused_witness :
  ∃ st1 st3,
    dart_team_create (2 ^ 31 - 1) (-1) example_env example_state 0
                     (Group 2 [0; 2] [0; -1; 1; -1])
    = Some (DART_OK, st1, Some 2)
    ∧ dart_team_create (2 ^ 31 - 1) (-1) example_env_second
        (dart_team_destroy DART_OK st1 2).2 0 (Group 2 [0; 1] [0; 1; -1; -1])
      = Some (DART_OK, st3, Some 3)
    ∧ 2 < 3.
Proof.
  assert (∃ st1,
            dart_team_create (2 ^ 31 - 1) (-1) example_env example_state 0
                             (Group 2 [0; 2] [0; -1; 1; -1])
            = Some (DART_OK, st1, Some 2)
            ∧ ∃ st3,
                dart_team_create (2 ^ 31 - 1) (-1) example_env_second
                  (dart_team_destroy DART_OK st1 2).2 0
                  (Group 2 [0; 1] [0; 1; -1; -1])
                = Some (DART_OK, st3, Some 3))
    as (st1 & Hrun1 & st3 & Hrun2)
    by (eexists; split; [reflexivity|eexists; reflexivity]).
  exists st1, st3. split; [done|]. split; [done|].
  exact (team_ids_not_reused (2 ^ 31 - 1) (-1) example_env
           example_env_second example_state st1 st3 0 0 2
           (Group 2 [0; 2] [0; -1; 1; -1]) (Group 2 [0; 1] [0; 1; -1; -1])
           DART_OK 2 3 Hrun1 Hrun2).
Defined.

End TeamRegistry.

(** * The bucket list of [PersistentMemoryAllocator]
    ([dash/allocator/PersistentMemoryAllocator.h]) *)

Module PmemBuckets.

Import Globmem.

(** The comparison of two [dart_gptr_t] of the MPI implementation, field
    by field. *)
#[local] Instance dart_gptr_t_eq_dec : EqDecision dart_gptr_t.
Proof. solve_decision. Defined.

Section Buckets.

(** [dart_gptr_t] with its comparisons ([==] and [DART_GPTR_EQUAL]) and
    [DART_GPTR_NULL] come from the DART interface headers, which are not
    part of the sources at hand: a type with a decidable equality, which
    both comparisons decide, and one value of it. *)
Context {pointer : Type} `{!EqDecision pointer}.
Variable DART_GPTR_NULL : pointer.

(** [sizeof(value_type)]. *)
Variable sizeof_value_type : Z.

(** A [local_pointer] is an address. *)
Definition nullptr : Z := 0.

(** [pmem_bucket_info], with the default member initializers [0] and
    [DART_GPTR_NULL]. *)
Record pmem_bucket_info : Type := BucketInfo {
  nbytes : Z;
  gptr : pointer
}.

Definition default_bucket : pmem_bucket_info := BucketInfo 0 DART_GPTR_NULL.

(** What the runtime answers during one call of a member function:
    whether DASH is initialized; the code of [dart__pmem__getaddr] and the
    address it stores, if it stores one; the code of
    [dart_team_memregister] and the global pointer it stores, if it stores
    one; the codes of [dart_team_memderegister] and of
    [dart__pmem__persist]. *)
Record pmem_env : Type := PmemEnv {
  is_initialized : bool;
  getaddr_ret : dart_ret_t;
  getaddr_lptr : option Z;
  memregister_ret : dart_ret_t;
  memregister_gptr : option pointer;
  memderegister_ret : dart_ret_t;
  persist_ret : dart_ret_t
}.

(** The member functions work on [_allocated], a vector of pairs of a
    local pointer and a bucket; they return their value and the vector. *)
Definition allocate_local (env : pmem_env)
    (_allocated : list (Z * pmem_bucket_info)) (num_local_elem : Z)
    : Z * list (Z * pmem_bucket_info) :=
  let lptr := default nullptr (getaddr_lptr env) in
  let nbytes := to_size_t (sizeof_value_type * num_local_elem) in
  if decide (getaddr_ret env = DART_OK)
  then (lptr, _allocated ++ [(lptr, BucketInfo nbytes (gptr default_bucket))])
  else (lptr, _allocated).

Definition attach (env : pmem_env)
    (_allocated : list (Z * pmem_bucket_info)) (lptr num_local_elem : Z)
    : pointer * list (Z * pmem_bucket_info) :=
  match list_find (λ i, i.1 = lptr) _allocated with
  | None => (DART_GPTR_NULL, _allocated)
  | Some (bucket_it, (first, second)) =>
      let second :=
        match memregister_gptr env with
        | Some stored => BucketInfo (nbytes second) stored
        | None => second
        end in
      let _allocated := <[bucket_it := (first, second)]> _allocated in
      if decide (memregister_ret env = DART_OK)
      then (gptr second, _allocated)
      else (DART_GPTR_NULL, _allocated)
  end.

(** [None] stands for the failure of [DASH_ASSERT_RETURNS], when
    [dart__pmem__persist] does not answer [DART_OK]. *)
Definition detach_bucket_by_gptr (env : pmem_env)
    (_allocated : list (Z * pmem_bucket_info)) (gptr_ : pointer)
    (deallocate : bool) : option (list (Z * pmem_bucket_info)) :=
  match list_find (λ i, gptr i.2 = gptr_) _allocated with
  | None => Some _allocated
  | Some (bucket_it, _) =>
      if decide (memderegister_ret env = DART_OK) then
        if decide (persist_ret env = DART_OK) then
          let _allocated :=
            if deallocate
            then <[bucket_it := (nullptr, BucketInfo 0 DART_GPTR_NULL)]>
                   _allocated
            else _allocated in
          Some (delete bucket_it _allocated)
        else None
      else Some _allocated
  end.

Definition detach (env : pmem_env)
    (_allocated : list (Z * pmem_bucket_info)) (gptr_ : pointer)
    : option (list (Z * pmem_bucket_info)) :=
  if is_initialized env
  then detach_bucket_by_gptr env _allocated gptr_ false
  else Some _allocated.

Definition deallocate (env : pmem_env)
    (_allocated : list (Z * pmem_bucket_info)) (gptr_ : pointer)
    : option (list (Z * pmem_bucket_info)) :=
  if is_initialized env
  then detach_bucket_by_gptr env _allocated gptr_ true
  else Some _allocated.

(** A call returns a value or leaves by the exception
    [dash::exception::NotImplemented]. *)
Inductive outcome : Type :=
  | Returned (gmem : pointer)
  | NotImplemented.

Definition deallocate_local (lptr : Z) : outcome := NotImplemented.

Definition allocate (env : pmem_env)
    (_allocated : list (Z * pmem_bucket_info)) (num_local_elem : Z)
    : outcome * list (Z * pmem_bucket_info) :=
  let '(lmem, _allocated) := allocate_local env _allocated num_local_elem in
  let '(gmem, _allocated) := attach env _allocated lmem num_local_elem in
  if decide (gmem = DART_GPTR_NULL)
  then (deallocate_local lmem, _allocated)
  else (Returned gmem, _allocated).

Definition get_local_pointers (_allocated : list (Z * pmem_bucket_info))
    : list (Z * Z) :=
  (λ item, (item.1, nbytes item.2 / sizeof_value_type)) <$> _allocated.

(** **** Proofs *)

Lemma insert_last {A} (l : list A) (x y : A) :
  <[length l := y]> (l ++ [x]) = l ++ [y].
Proof. induction l as [|z l IH]; simpl; [done|]. by rewrite IH. Qed.

Lemma delete_last {A} (l : list A) (x : A) :
  delete (length l) (l ++ [x]) = l.
Proof. by rewrite delete_middle, app_nil_r. Qed.

Lemma delete_insert_same {A} (l : list A) (k : nat) (x : A) :
  delete k (<[k := x]> l) = delete k l.
Proof.
  revert k. induction l as [|z l IH]; intros [|k]; simpl; try done.
  by rewrite IH.
Qed.

(** [std::find_if] on a vector with one more bucket at the back, when no
    bucket before it matches. *)
Lemma list_find_last {A} (P : A → Prop) `{!∀ x, Decision (P x)}
    (l : list A) (x : A) :
  Forall (λ y, ¬ P y) l → P x →
  list_find P (l ++ [x]) = Some (length l, x).
Proof.
  intros Hl Hx.
  assert (list_find P l = None) as Hnone by (by apply list_find_None).
  rewrite list_find_app_r by done. cbn [list_find].
  by rewrite decide_True.
Qed.

(** [attach] of the pointer of the bucket at the back, which no other
    bucket has. *)
Lemma attach_last (env : pmem_env)
    (_allocated : list (Z * pmem_bucket_info)) (lptr num_local_elem : Z)
    (second : pmem_bucket_info) :
  Forall (λ item, item.1 ≠ lptr) _allocated →
  attach env (_allocated ++ [(lptr, second)]) lptr num_local_elem
  = let second :=
      match memregister_gptr env with
      | Some stored => BucketInfo (nbytes second) stored
      | None => second
      end in
    (if decide (memregister_ret env = DART_OK) then gptr second
     else DART_GPTR_NULL,
     _allocated ++ [(lptr, second)]).
Proof.
  intros Hfresh. unfold attach.
  rewrite (list_find_last (λ i, i.1 = lptr)) by done.
  cbn zeta. rewrite insert_last.
  by destruct (decide (memregister_ret env = DART_OK)).
Qed.

(** What [allocate] does when no bucket has the address the allocation
    gives. *)
Lemma allocate_fresh (env : pmem_env)
    (_allocated : list (Z * pmem_bucket_info)) (num_local_elem : Z) :
  let lptr := default nullptr (getaddr_lptr env) in
  let stored := default DART_GPTR_NULL (memregister_gptr env) in
  let bucket :=
    (lptr, BucketInfo (to_size_t (sizeof_value_type * num_local_elem))
                      stored) in
  Forall (λ item, item.1 ≠ lptr) _allocated →
  allocate env _allocated num_local_elem
  = if decide (getaddr_ret env = DART_OK) then
      if decide (memregister_ret env = DART_OK ∧ stored ≠ DART_GPTR_NULL)
      then (Returned stored, _allocated ++ [bucket])
      else (NotImplemented, _allocated ++ [bucket])
    else (NotImplemented, _allocated).
Proof.
  intros lptr stored bucket Hfresh. unfold allocate, allocate_local.
  fold lptr. destruct (decide (getaddr_ret env = DART_OK)) as [Hget|Hget].
  - rewrite attach_last by done. subst stored bucket. cbn zeta.
    unfold deallocate_local.
    destruct (memregister_gptr env) as [g|];
      cbn [default from_option gptr nbytes default_bucket]; unfold id;
      repeat case_decide; try reflexivity; exfalso;
      first [tauto|congruence].
  - unfold attach.
    assert (list_find (λ i : Z * pmem_bucket_info, i.1 = lptr) _allocated
            = None) as -> by (by apply list_find_None).
    by rewrite decide_True by done.
Qed.

(** X19. When no bucket has the address the allocation gives, a call of
    [allocate] that returns gives a global pointer other than
    [DART_GPTR_NULL], and [_allocated] has one more bucket, at the back,
    with the address, the size in bytes and that global pointer. *)
Theorem allocate_appends_attached_bucket (env : pmem_env)
    (_allocated _allocated' : list (Z * pmem_bucket_info))
    (num_local_elem : Z) (gmem : pointer) :
  Forall (λ item, item.1 ≠ default nullptr (getaddr_lptr env)) _allocated →
  allocate env _allocated num_local_elem = (Returned gmem, _allocated') →
  gmem ≠ DART_GPTR_NULL
  ∧ _allocated'
    = _allocated
      ++ [(default nullptr (getaddr_lptr env),
           BucketInfo (to_size_t (sizeof_value_type * num_local_elem))
                      gmem)].
Proof.
  intros Hfresh Hrun. rewrite allocate_fresh in Hrun by done.
  cbn zeta in Hrun.
  destruct (decide (getaddr_ret env = DART_OK)); [|done].
  destruct (decide (_ ∧ _)) as [[_ Hstored]|]; [|done].
  by injection Hrun as <- <-.
Qed.

(** X20. [allocate] does not undo the local allocation when [attach]
    fails: with an address from [dart__pmem__getaddr] that no bucket has
    and an answer of [dart_team_memregister] other than [DART_OK], the
    call leaves by [NotImplemented], thrown by [deallocate_local], and the
    bucket pushed by [allocate_local] stays at the back of
    [_allocated]. *)
Theorem allocate_failure_keeps_bucket (env : pmem_env)
    (_allocated : list (Z * pmem_bucket_info)) (num_local_elem : Z) :
  Forall (λ item, item.1 ≠ default nullptr (getaddr_lptr env)) _allocated →
  getaddr_ret env = DART_OK →
  memregister_ret env ≠ DART_OK →
  allocate env _allocated num_local_elem
  = (NotImplemented,
     _allocated
     ++ [(default nullptr (getaddr_lptr env),
          BucketInfo (to_size_t (sizeof_value_type * num_local_elem))
                     (default DART_GPTR_NULL (memregister_gptr env)))]).
Proof.
  intros Hfresh Hget Hreg. rewrite allocate_fresh by done. cbn zeta.
  rewrite decide_True by done.
  by rewrite decide_False by (by intros [? _]).
Qed.

(** X21. [detach] and [deallocate] undo [allocate] on [_allocated]: when
    [allocate] has returned a global pointer that no earlier bucket has,
    for an address that no earlier bucket has, then, with DASH
    initialized and [dart_team_memderegister] and [dart__pmem__persist]
    answering [DART_OK], either call on that pointer gives [_allocated]
    as it was before the allocation. *)
Theorem detach_of_allocate (env env' : pmem_env)
    (_allocated _allocated' : list (Z * pmem_bucket_info))
    (num_local_elem : Z) (gmem : pointer) :
  Forall (λ item, item.1 ≠ default nullptr (getaddr_lptr env)) _allocated →
  Forall (λ item, gptr item.2 ≠ gmem) _allocated →
  allocate env _allocated num_local_elem = (Returned gmem, _allocated') →
  is_initialized env' = true →
  memderegister_ret env' = DART_OK →
  persist_ret env' = DART_OK →
  detach env' _allocated' gmem = Some _allocated
  ∧ deallocate env' _allocated' gmem = Some _allocated.
Proof.
  intros Hfresh Hgptr Hrun Hinit Hdereg Hpersist.
  rewrite allocate_fresh in Hrun by done. cbn zeta in Hrun.
  destruct (decide (getaddr_ret env = DART_OK)); [|done].
  destruct (decide (_ ∧ _)) as [[_ Hstored]|]; [|done].
  injection Hrun as <- <-.
  unfold detach, deallocate, detach_bucket_by_gptr. rewrite Hinit.
  rewrite (list_find_last (λ i, gptr i.2 = _)) by done.
  rewrite !decide_True by done.
  by rewrite delete_insert_same, delete_last.
Qed.

(** X22. [deallocate] changes [_allocated] as [detach] does, whatever the
    runtime answers: the fields it resets are those of the bucket it
    erases, and no persistent memory is released. *)
Theorem deallocate_is_detach (env : pmem_env)
    (_allocated : list (Z * pmem_bucket_info)) (gptr_ : pointer) :
  deallocate env _allocated gptr_ = detach env _allocated gptr_.
Proof.
  unfold deallocate, detach, detach_bucket_by_gptr.
  destruct (is_initialized env); [|done].
  destruct (list_find _ _allocated) as [[bucket_it item]|]; [|done].
  destruct (decide (memderegister_ret env = DART_OK)); [|done].
  destruct (decide (persist_ret env = DART_OK)); [|done].
  by rewrite delete_insert_same.
Qed.

(** X23. [get_local_pointers] after a successful [allocate_local] lists
    what it listed before and then the new address with the number of
    elements asked for, provided the size in bytes fits [size_t]. *)
Theorem get_local_pointers_of_allocate_local (env : pmem_env)
    (_allocated : list (Z * pmem_bucket_info)) (num_local_elem : Z) :
  0 < sizeof_value_type →
  0 ≤ num_local_elem →
  sizeof_value_type * num_local_elem < 2 ^ 64 →
  getaddr_ret env = DART_OK →
  get_local_pointers (allocate_local env _allocated num_local_elem).2
  = get_local_pointers _allocated
    ++ [((allocate_local env _allocated num_local_elem).1, num_local_elem)].
Proof.
  intros Hsize Hnum Hfits Hget. unfold allocate_local, get_local_pointers.
  rewrite decide_True by done. cbn [fst snd].
  rewrite fmap_app. cbn [fmap list_fmap fst snd nbytes].
  do 3 f_equal. unfold to_size_t.
  rewrite Z.mod_small by nia.
  rewrite Z.mul_comm. apply Z.div_mul. lia.
Qed.

End Buckets.

(** An allocator of 8-byte elements with one attached bucket, and a
    runtime that allocates at address 4096 and registers the segment 5 of
    unit 1. *)
Definition example_null : dart_gptr_t := Gptr 0 0 0 0.

Definition example_allocated : list (Z * @pmem_bucket_info dart_gptr_t) :=
  [(1024, BucketInfo 16 (Gptr 1 4 0 0))].

Definition example_pmem_env : @pmem_env dart_gptr_t :=
  PmemEnv true DART_OK (Some 4096) DART_OK (Some (Gptr 1 5 0 0))
          DART_OK DART_OK.

Definition example_pmem_env_failing : @pmem_env dart_gptr_t :=
  PmemEnv true DART_OK (Some 4096) DART_ERR_OTHER None DART_OK DART_OK.

Lemma allocate_appends_attached_bucket_witness :
  allocate example_null 8 example_pmem_env example_allocated 4
  = (Returned (Gptr 1 5 0 0),
     example_allocated ++ [(4096, BucketInfo 32 (Gptr 1 5 0 0))])
  ∧ Gptr 1 5 0 0 ≠ example_null.
Proof.
  split; [reflexivity|].
  apply (allocate_appends_attached_bucket example_null 8 example_pmem_env
           example_allocated
           (example_allocated ++ [(4096, BucketInfo 32 (Gptr 1 5 0 0))])
           4 (Gptr 1 5 0 0)).
  - repeat constructor. done.
  - reflexivity.
Defined.

Lemma allocate_failure_keeps_bucket_witness :
  allocate example_null 8 example_pmem_env_failing example_allocated 4
  = (NotImplemented,
     example_allocated ++ [(4096, BucketInfo 32 example_null)]).
Proof.
  apply (allocate_failure_keeps_bucket example_null 8
           example_pmem_env_failing example_allocated 4).
  - repeat constructor. done.
  - reflexivity.
  - done.
Defined.

Lemma detach_of_allocate_witness :
  detach example_null example_pmem_env
         (example_allocated ++ [(4096, BucketInfo 32 (Gptr 1 5 0 0))])
         (Gptr 1 5 0 0)
  = Some example_allocated
  ∧ deallocate example_null example_pmem_env
               (example_allocated ++ [(4096, BucketInfo 32 (Gptr 1 5 0 0))])
               (Gptr 1 5 0 0)
    = Some example_allocated.
Proof.
  apply (detach_of_allocate example_null 8 example_pmem_env
           example_pmem_env example_allocated _ 4).
  - repeat constructor. done.
  - repeat constructor. done.
  - reflexivity.
  - reflexivity.
  - reflexivity.
  - reflexivity.
Defined.

Lemma get_local_pointers_of_allocate_local_witness :
  get_local_pointers 8
    (allocate_local example_null 8 example_pmem_env example_allocated 4).2
  = [(1024, 2); (4096, 4)].
Proof.
  apply (get_local_pointers_of_allocate_local example_null 8
           example_pmem_env example_allocated 4).
  - lia.
  - lia.
  - lia.
  - reflexivity.
Defined.

(** With a size in bytes that does not fit [size_t], the number of
    elements listed is not the number asked for: [2 ^ 61] elements of 8
    bytes are listed as none. *)
Example get_local_pointers_wraps :
  get_local_pointers 8
    (allocate_local example_null 8 example_pmem_env [] (2 ^ 61)).2
  = [(4096, 0)].
Proof. reflexivity. Qed.

End PmemBuckets.
